(** * KenKen solver: a shallow embedding of [src/lib/kenkenSolver.ts]

    The solver is one exported function, [solveKenKen], whose nested
    helpers ([cageValidPartial], [getCandidates], [selectNext],
    [backtrack]) close over the board size [n], the puzzle's cages, the
    cell-to-cage index [cageOf] and three mutable arrays ([grid],
    [rowUsed], [colUsed]).  The embedding keeps that shape: the closed-over
    constants are the variables of a section, the three arrays are the
    fields of a [State] record that is threaded through every helper, and
    a thrown [TypeError] is an explicit outcome.

    Modelling conventions.
    - JavaScript numbers are doubles.  Sizes, targets, cell coordinates
      and cell values are integers, modelled by [Z]; what the solver adds,
      subtracts or divides are cell values, far below 2^53, where doubles
      are exact.  A value that is [undefined] or [NaN] is [None] in the
      type [num]; the solver only ever feeds such a value to arithmetic and
      to comparisons against numbers, where [undefined] and [NaN] behave
      alike (the result is [NaN], the comparison is false).
    - The products of the [*] branch of the oracle do leave that range:
      [prod *= v] and [maxPossible *= n] are multiplications of doubles.
      They are modelled in the type [dbl], each product rounded as binary64
      rounds it (53 bits, to nearest, ties to even, overflow to an
      infinity) by the rounding function of the library's [SpecFloat];
      [SFmul_dmul] shows this product to be the library's binary64
      multiplication.
    - A JavaScript array is a list.  Reading outside it yields [undefined];
      reading a property of [undefined] throws [TypeError].
    - The recursion of [backtrack] is driven by a fuel argument;
      [solveKenKen] supplies [n * n + 1], which is shown to suffice. *)

From Stdlib Require Import ZArith Lia Bool SpecFloat.
From stdpp Require Import base option list gmap.

Local Open Scope Z_scope.

(** ** Data model ([types.ts]) *)

Inductive Op : Type := Plus | Minus | Times | Divide | Equals.

Record Cage : Type := mkCage {
  cells : list (Z * Z);   (* 0-based [row, col] *)
  target : Z;
  op : Op
}.

Record Puzzle : Type := mkPuzzle {
  size : Z;               (* n x n *)
  cages : list Cage
}.

(** ** Outcomes *)

Inductive res (A : Type) : Type :=
| Ok (a : A)
| TypeError            (* a property of [undefined] was read *)
| OutOfFuel.           (* artefact of the fuel; never the outcome of [solveKenKen] *)
Arguments Ok {A} a.
Arguments TypeError {A}.
Arguments OutOfFuel {A}.

Definition bind {A B : Type} (m : res A) (k : A -> res B) : res B :=
  match m with
  | Ok a => k a
  | TypeError => TypeError
  | OutOfFuel => OutOfFuel
  end.

Notation "'let*' x ':=' m 'in' k" := (bind m (fun x => k))
  (at level 10, x pattern, m at level 100, k at level 200).

(** ** JavaScript numbers that may be [undefined] or [NaN] *)

Definition num : Type := option Z.

Definition nadd (a b : num) : num :=
  match a, b with Some x, Some y => Some (x + y) | _, _ => None end.
Definition nsub (a b : num) : num :=
  match a, b with Some x, Some y => Some (x - y) | _, _ => None end.
(* The one product taken here is [known * cage.target], which is only
   compared with 1 and with n: rounding, which keeps the order, cannot
   change the outcome. *)
Definition nmul (a b : num) : num :=
  match a, b with Some x, Some y => Some (x * y) | _, _ => None end.
Definition nabs (a : num) : num :=
  match a with Some x => Some (Z.abs x) | None => None end.
Definition nmax (a b : num) : num :=
  match a, b with Some x, Some y => Some (Z.max x y) | _, _ => None end.
Definition nmin (a b : num) : num :=
  match a, b with Some x, Some y => Some (Z.min x y) | _, _ => None end.

(* a === b, a >= b, a <= b on numbers: false as soon as one side is NaN *)
Definition nseq (a b : num) : bool :=
  match a, b with Some x, Some y => x =? y | _, _ => false end.
Definition nge (a b : num) : bool :=
  match a, b with Some x, Some y => x >=? y | _, _ => false end.
Definition nle (a b : num) : bool :=
  match a, b with Some x, Some y => x <=? y | _, _ => false end.

(* a / b === t for an integer t.  The quotient of two integers is t exactly
   when b is not 0 and a = b * t; for b = 0 the quotient is an infinity or NaN. *)
Definition ndiv_eq (a b : num) (t : Z) : bool :=
  match a, b with
  | Some x, Some y => negb (y =? 0) && (x =? y * t)
  | _, _ => false
  end.

(* with q = k / t:  Number.isInteger(q) && q >= 1 && q <= n *)
Definition quot_in_range (k : num) (t n : Z) : bool :=
  match k with
  | Some x =>
      negb (t =? 0) && (Z.rem x t =? 0) && (1 <=? Z.quot x t) && (Z.quot x t <=? n)
  | None => false
  end.

(** ** Doubles that hold products

    The values of this type are the doubles a chain of multiplications of
    integers can produce: an integer, an infinity, or NaN.  The two zeros
    are not told apart; nothing the solver does with a product ([>], [>=],
    [===], [%], a further [*]) tells them apart either. *)

Inductive dbl : Type :=
| Fin (z : Z)
| Inf (negative : bool)
| NaN.

(* The integer that the binary64 number of mantissa m and exponent e holds,
   sign apart.  For a negative exponent the division is exact on every
   number that comes up: see [normal]. *)
Definition mag (m : positive) (e : Z) : Z :=
  if e <? 0 then Z.pos m / 2 ^ (- e) else Z.pos m * 2 ^ e.

Definition ofSF (f : spec_float) : dbl :=
  match f with
  | S754_zero _ => Fin 0
  | S754_infinity s => Inf s
  | S754_nan => NaN
  | S754_finite s m e => Fin (if s then - mag m e else mag m e)
  end.

(* The integer [z] as a binary64 number, rounded to nearest, ties to even:
   binary64 is [SpecFloat] at precision 53 and maximal exponent 1024. *)
Definition toSF (z : Z) : spec_float := binary_normalize 53 1024 z 0 false.

(* the double nearest to the integer [z] *)
Definition round64 (z : Z) : dbl := ofSF (toSF z).

Definition ofNum (v : num) : dbl :=
  match v with Some z => Fin z | None => NaN end.

(* a * b: the exact product, rounded; [SFmul_dmul] below shows that this
   is the library's binary64 multiplication [SFmul] *)
Definition dmul (a b : dbl) : dbl :=
  match a, b with
  | Fin x, Fin y => round64 (x * y)
  | Fin x, Inf s | Inf s, Fin x => if x =? 0 then NaN else Inf (xorb s (x <? 0))
  | Inf s, Inf s' => Inf (xorb s s')
  | _, _ => NaN
  end.

(* a % b for a finite a: the remainder is exact, takes the sign of the
   dividend, is a itself for an infinite b, and NaN for b = 0 *)
Definition drem (a b : dbl) : dbl :=
  match a, b with
  | Fin x, Fin y => if y =? 0 then NaN else Fin (Z.rem x y)
  | Fin x, Inf _ => Fin x
  | _, _ => NaN
  end.

(* the order of doubles; NaN compares with nothing *)
Definition dcmp (a b : dbl) : option comparison :=
  match a, b with
  | Fin x, Fin y => Some (x ?= y)
  | Fin _, Inf s => Some (if s then Gt else Lt)
  | Inf s, Fin _ => Some (if s then Lt else Gt)
  | Inf s, Inf s' =>
      Some (if s then (if s' then Eq else Lt) else (if s' then Gt else Eq))
  | _, _ => None
  end.

(* a === b, a > b, a >= b *)
Definition dseq (a b : dbl) : bool :=
  match dcmp a b with Some Eq => true | _ => false end.
Definition dgt (a b : dbl) : bool :=
  match dcmp a b with Some Gt => true | _ => false end.
Definition dge (a b : dbl) : bool :=
  match dcmp a b with Some (Gt | Eq) => true | _ => false end.

(** ** Arrays *)

(* a[i]: [None] is undefined *)
Definition aget {A : Type} (a : list A) (i : Z) : option A :=
  if i <? 0 then None else a !! Z.to_nat i.

(* a[i] = x.  JavaScript would grow the array when i is past its end; every
   write of the solver is inside the array (see [wf_state] and the lemmas on
   it), so the model leaves the list alone there. *)
Definition aset {A : Type} (a : list A) (i : Z) (x : A) : list A :=
  if i <? 0 then a else <[Z.to_nat i := x]> a.

(* m[r][c]: throws when m[r] is undefined *)
Definition get2 {A : Type} (m : list (list A)) (r c : Z) : res (option A) :=
  match aget m r with
  | None => TypeError
  | Some row => Ok (aget row c)
  end.

(* m[r][c] = x.  Every such write of the solver is to a row that exists:
   the indices either have just served to read the usage tables, or are
   loop indices of [selectNext]. *)
Definition set2 {A : Type} (m : list (list A)) (r c : Z) (x : A) : list (list A) :=
  match aget m r with
  | None => m
  | Some row => aset m r (aset row c x)
  end.

(* values[i] on the local array of cell values *)
Definition vget (values : list num) (i : nat) : num :=
  match values !! i with Some v => v | None => None end.

(** ** Search state: the three arrays [solveKenKen] allocates *)

Record State : Type := mkState {
  grid : list (list Z);
  rowUsed : list (list bool);
  colUsed : list (list bool)
}.

Definition init (n : Z) : State :=
  let k := Z.to_nat n in
  mkState (replicate k (replicate k 0))
          (replicate k (replicate (S k) false))
          (replicate k (replicate (S k) false)).

(* grid[r][c] = v; rowUsed[r][v] = colUsed[c][v] = true *)
Definition place (st : State) (r c v : Z) : State :=
  mkState (set2 (grid st) r c v)
          (set2 (rowUsed st) r v true)
          (set2 (colUsed st) c v true).

(* grid[r][c] = 0; rowUsed[r][v] = colUsed[c][v] = false *)
Definition unplace (st : State) (r c v : Z) : State :=
  mkState (set2 (grid st) r c 0)
          (set2 (rowUsed st) r v false)
          (set2 (colUsed st) c v false).

Definition truthy (b : option bool) : bool :=
  match b with Some true => true | _ => false end.

(* rowUsed[r][v] || colUsed[c][v], left to right with short circuit *)
Definition used (st : State) (r c v : Z) : res bool :=
  let* a := get2 (rowUsed st) r v in
  if truthy a then Ok true
  else let* b := get2 (colUsed st) c v in Ok (truthy b).

(** ** Cell -> cage lookup *)

(* The source keys the Map by the string `${r},${c}`, which determines the
   pair of integers; a later cage overwrites an earlier one on a shared cell. *)
Definition register (m : gmap (Z * Z) Cage) (cage : Cage) : gmap (Z * Z) Cage :=
  foldl (fun acc rc => <[rc := cage]> acc) m (cells cage).

Definition buildCageOf (cs : list Cage) : gmap (Z * Z) Cage :=
  foldl register ∅ cs.

(** ** The oracle: [cageValidPartial] *)

(* the loop that fills [values] *)
Fixpoint readCells (g : list (list Z)) (cs : list (Z * Z)) : res (list num) :=
  match cs with
  | [] => Ok []
  | (r, c) :: rest =>
      let* v := get2 g r c in
      let* vs := readCells g rest in
      Ok (v :: vs)
  end.

Definition isZero (v : num) : bool := nseq v (Some 0).

(* number of values with v === 0 *)
Definition countUnassigned (values : list num) : nat :=
  length (List.filter isZero values).

(* values.reduce((s, v) => s + v, 0) *)
Definition sumValues (values : list num) : num :=
  foldl nadd (Some 0) values.

(* let prod = 1; for (const v of values) if (v !== 0) prod *= v; *)
Definition prodValues (values : list num) : dbl :=
  foldl (fun p v => if isZero v then p else dmul p (ofNum v)) (Fin 1) values.

(* for (let i = 0; i < unassigned; i++) maxPossible *= n; *)
Definition scaleBy (n : Z) (unassigned : nat) (start : dbl) : dbl :=
  Nat.iter unassigned (fun m => dmul m (Fin n)) start.

(* values.find(v => v !== 0) *)
Definition findKnown (values : list num) : num :=
  match List.find (fun v => negb (isZero v)) values with
  | Some v => v
  | None => None
  end.

(* lo <= x && x <= hi *)
Definition between (lo hi : Z) (x : num) : bool :=
  nge x (Some lo) && nle x (Some hi).

Definition evalCage (n : Z) (cage : Cage) (values : list num) : bool :=
  let unassigned := countUnassigned values in
  let t := target cage in
  match op cage with
  | Plus =>
      let sum := sumValues values in
      if (unassigned =? 0)%nat then nseq sum (Some t)
      else if nge sum (Some t) then false
      else
        let minPossible := nadd sum (Some (1 * Z.of_nat unassigned)) in
        let maxPossible := nadd sum (Some (n * Z.of_nat unassigned)) in
        nge (Some t) minPossible && nle (Some t) maxPossible
  | Times =>
      let prod := prodValues values in
      if dgt prod (Fin t) || negb (dseq (drem (Fin t) prod) (Fin 0)) then false
      else if (unassigned =? 0)%nat then dseq prod (Fin t)
      else dge (scaleBy n unassigned prod) (Fin t)
  | Minus =>
      if negb (length (cells cage) =? 2)%nat then
        if (unassigned =? 0)%nat
        then nseq (nabs (nsub (vget values 0) (vget values 1))) (Some t)
        else true
      else if (unassigned =? 2)%nat then true
      else if (unassigned =? 0)%nat
      then nseq (nabs (nsub (vget values 0) (vget values 1))) (Some t)
      else
        let known := findKnown values in
        let p1 := nadd known (Some t) in
        let p2 := nsub known (Some t) in
        between 1 n p1 || between 1 n p2
  | Divide =>
      if negb (length (cells cage) =? 2)%nat then
        if (unassigned =? 0)%nat
        then ndiv_eq (nmax (vget values 0) (vget values 1))
                     (nmin (vget values 0) (vget values 1)) t
        else true
      else if (unassigned =? 2)%nat then true
      else if (unassigned =? 0)%nat
      then
        (* const [a, b] = values.sort((x, y) => y - x): descending, an
           undefined entry last, so that a / b is NaN if there is one *)
        ndiv_eq (nmax (vget values 0) (vget values 1))
                (nmin (vget values 0) (vget values 1)) t
      else
        let known := findKnown values in
        let asDen := nmul known (Some t) in
        quot_in_range known t n || between 1 n asDen
  | Equals =>
      nseq (vget values 0) (Some 0) || nseq (vget values 0) (Some t)
  (* the source's [default: return false] is for operators outside [Op] *)
  end.

Definition cageValidPartial (n : Z) (g : list (list Z)) (cage : Cage) : res bool :=
  let* values := readCells g (cells cage) in
  Ok (evalCage n cage values).

(** ** The closure of [solveKenKen] *)

Section Solver.

Variable n : Z.                          (* puzzle.size *)
Variable cs : list Cage.                 (* puzzle.cages *)
Variable cageOf : gmap (Z * Z) Cage.     (* the cell -> cage Map *)

(* Pre-assignment of the single-cell cages; [Ok None] is [return null]. *)
Fixpoint preseed (todo : list Cage) (st : State) : res (option State) :=
  match todo with
  | [] => Ok (Some st)
  | cage :: rest =>
      let single := (length (cells cage) =? 1)%nat in
      let isEq := match op cage with Equals => true | _ => false end in
      if (isEq || single) && single then
        match cells cage with
        | [] => TypeError
        | (r, c) :: _ =>
            let v := target cage in
            if (v <? 1) || (v >? n) then Ok None
            else
              let* u := used st r c v in
              if u then Ok None
              else preseed rest (place st r c v)
        end
      else preseed rest st
  end.

(* cage ? cageValidPartial(cage) : true *)
Definition probe (cage : option Cage) (g : list (list Z)) : res bool :=
  match cage with
  | Some cg => cageValidPartial n g cg
  | None => Ok true
  end.

(* the body of [for (let v = 1; v <= n; v++)], over the values still to try *)
Fixpoint candLoop (cage : option Cage) (r c : Z) (vs : list Z)
         (st : State) (out : list Z) : res (list Z * State) :=
  match vs with
  | [] => Ok (out, st)
  | v :: rest =>
      let* u := used st r c v in
      if u then candLoop cage r c rest st out
      else
        let st1 := place st r c v in
        let* ok := probe cage (grid st1) in
        let st2 := unplace st1 r c v in
        candLoop cage r c rest st2 (if ok then out ++ [v] else out)
  end.

Definition getCandidates (st : State) (r c : Z) : res (list Z * State) :=
  candLoop (cageOf !! (r, c)) r c (seqZ 1 n) st [].

(* the cells in the order of the two nested loops of [selectNext] *)
Definition scanOrder : list (Z * Z) :=
  r ← seqZ 0 n; c ← seqZ 0 n; [(r, c)].

Definition Pick : Type := (Z * Z * list Z)%type.

(* !best *)
Definition noBest (best : option (Z * Z)) : bool :=
  match best with None => true | Some _ => false end.

(* if (grid[r][c]) continue; *)
Definition assigned (st : State) (r c : Z) : res bool :=
  let* v := get2 (grid st) r c in
  Ok (match v with Some x => negb (x =? 0) | None => false end).

(* The scan of [selectNext] from some cell on, with the loop variables
   [best] and [bestChoices].  [Ok (None, _)] is [return null]. *)
Fixpoint scan (todo : list (Z * Z)) (best : option (Z * Z)) (bestChoices : list Z)
         (st : State) : res (option Pick * State) :=
  match todo with
  | [] =>
      Ok (match best with
          | Some (r, c) => Some (r, c, bestChoices)
          | None => None
          end, st)
  | (r, c) :: rest =>
      let* a := assigned st r c in
      if a then scan rest best bestChoices st
      else
        let* (cand, st1) := getCandidates st r c in
        if (length cand =? 0)%nat then Ok (None, st1)          (* dead end now *)
        else if noBest best || (length cand <? length bestChoices)%nat then
          if (length cand =? 1)%nat then Ok (Some (r, c, cand), st1)
          else scan rest (Some (r, c)) cand st1
        else scan rest best bestChoices st1
  end.

Definition selectNext (st : State) : res (option Pick * State) :=
  scan scanOrder None [] st.

(* for (const cage of puzzle.cages) if (!cageValidPartial(cage)) return false;
   return true; *)
Fixpoint allCagesValid (todo : list Cage) (g : list (list Z)) : res bool :=
  match todo with
  | [] => Ok true
  | cage :: rest =>
      let* ok := cageValidPartial n g cage in
      if ok then allCagesValid rest g else Ok false
  end.

(* cageValidPartial(cage) where cage comes from [cageOf.get(...)!]: the
   first thing the oracle does is read [cage.op] *)
Definition recheck (cage : option Cage) (g : list (list Z)) : res bool :=
  match cage with
  | Some cg => cageValidPartial n g cg
  | None => TypeError
  end.

(* for (const v of cand) { ... } return false;  [rec] is the recursive call *)
Fixpoint tryCands (rec : State -> res (bool * State)) (cage : option Cage)
         (r c : Z) (cand : list Z) (st : State) : res (bool * State) :=
  match cand with
  | [] => Ok (false, st)
  | v :: rest =>
      let st1 := place st r c v in
      let* ok := recheck cage (grid st1) in
      if ok then
        let* (solved, st2) := rec st1 in
        if solved then Ok (true, st2)
        else tryCands rec cage r c rest (unplace st2 r c v)
      else tryCands rec cage r c rest (unplace st1 r c v)
  end.

Fixpoint backtrack (fuel : nat) (st : State) : res (bool * State) :=
  match fuel with
  | O => OutOfFuel
  | S fuel' =>
      let* (pick, st1) := selectNext st in
      match pick with
      | None =>
          let* ok := allCagesValid cs (grid st1) in
          Ok (ok, st1)
      | Some (r, c, cand) =>
          tryCands (backtrack fuel') (cageOf !! (r, c)) r c cand st1
      end
  end.

End Solver.

Definition solveWith (fuel : nat) (p : Puzzle) : res (option (list (list Z))) :=
  let n := size p in
  if n <? 1 then Ok None
  else
    let* seeded := preseed n (cages p) (init n) in
    match seeded with
    | None => Ok None
    | Some st =>
        let* (solved, st') := backtrack n (cages p) (buildCageOf (cages p)) fuel st in
        Ok (if solved then Some (grid st') else None)
    end.

(* one level of recursion per cell, plus the call that finds the grid full *)
Definition fuelFor (n : Z) : nat := S (Z.to_nat n * Z.to_nat n).

Definition solveKenKen (p : Puzzle) : res (option (list (list Z))) :=
  solveWith (fuelFor (size p)) p.

(** ** Vocabulary of the specification *)

(** The shape [solveKenKen] gives its arrays: [grid] is n x n, the usage
    tables are n x (n + 1). *)
Definition wf_state (n : Z) (st : State) : Prop :=
  let k := Z.to_nat n in
  length (grid st) = k /\ Forall (fun row => length row = k) (grid st) /\
  length (rowUsed st) = k /\ Forall (fun row => length row = S k) (rowUsed st) /\
  length (colUsed st) = k /\ Forall (fun row => length row = S k) (colUsed st).

(** Cells of the n x n board. *)
Definition onGrid (n : Z) (rc : Z * Z) : Prop :=
  0 <= rc.1 < n /\ 0 <= rc.2 < n.

Definition onGridb (n : Z) (rc : Z * Z) : bool :=
  (0 <=? rc.1) && (rc.1 <? n) && (0 <=? rc.2) && (rc.2 <? n).

(** Every cell of every cage lies on the board. *)
Definition cagesOnGrid (n : Z) (cs : list Cage) : bool :=
  forallb (fun cage => forallb (onGridb n) (cells cage)) cs.

Definition cellEqb (a b : Z * Z) : bool := (a.1 =? b.1) && (a.2 =? b.2).

(** The cell belongs to some cage. *)
Definition caged (cs : list Cage) (rc : Z * Z) : bool :=
  existsb (fun cage => existsb (cellEqb rc) (cells cage)) cs.

(** Every cell of the board belongs to some cage. *)
Definition allCaged (n : Z) (cs : list Cage) : bool :=
  forallb (caged cs) (scanOrder n).

(** A cage of one cell whose operator is [-] or [/]. *)
Definition lonelyBinary (cage : Cage) : bool :=
  (length (cells cage) =? 1)%nat &&
  match op cage with Minus | Divide => true | _ => false end.

(** The content of a cell of a grid, when the grid has that cell. *)
Definition cellOf (g : list (list Z)) (rc : Z * Z) : option Z :=
  row ← aget g rc.1; aget row rc.2.

Definition isUnassigned (st : State) (r c : Z) : Prop :=
  cellOf (grid st) (r, c) = Some 0.

(** The filled (non-zero) values among the values of a cage's cells. *)
Definition filled (vals : list Z) : list Z :=
  List.filter (fun v => negb (v =? 0)) vals.

(** The number of zero cells. *)
Definition unassignedIn (vals : list Z) : nat :=
  length (List.filter (fun v => v =? 0) vals).

Definition sumOf (l : list Z) : Z := foldr Z.add 0 l.
Definition prodOf (l : list Z) : Z := foldr Z.mul 1 l.

(** Number of unassigned cells of a grid. *)
Definition zeros (g : list (list Z)) : nat :=
  length (List.filter (fun v => v =? 0) (concat g)).

(** No cell holds 0 and every value is in 1..n, on an n x n grid. *)
Definition fullyPopulated (n : Z) (g : list (list Z)) : bool :=
  (length g =? Z.to_nat n)%nat &&
  forallb (fun row => (length row =? Z.to_nat n)%nat &&
                      forallb (fun v => (1 <=? v) && (v <=? n)) row) g.

(** [g'] keeps every value that [g] has assigned. *)
Definition extends (g g' : list (list Z)) : Prop :=
  forall rc x, cellOf g rc = Some x -> x <> 0 -> cellOf g' rc = Some x.

(** A run that ended, whatever its fuel. *)
Definition finished {A : Type} (r : res A) : Prop := r <> OutOfFuel.

(** The cages that the cell -> cage Map holds lie on the board. *)
Definition indexOnGrid (n : Z) (cageOf : gmap (Z * Z) Cage) : Prop :=
  forall rc cage, cageOf !! rc = Some cage ->
                  forallb (onGridb n) (cells cage) = true.

(** What keeps the helpers from throwing: the cages lie on the board and
    every cell of the board has an entry in the cell -> cage Map. *)
Definition noThrow (n : Z) (cs : list Cage) (cageOf : gmap (Z * Z) Cage) : Prop :=
  Forall (fun cage => forallb (onGridb n) (cells cage) = true) cs /\
  indexOnGrid n cageOf /\
  (forall rc, onGrid n rc -> is_Some (cageOf !! rc)).

(** A pick that [selectNext] may hand to [backtrack]: an unassigned cell
    together with its non-empty candidate list. *)
Definition pickOk (n : Z) (cageOf : gmap (Z * Z) Cage) (st : State) (p : Pick) : Prop :=
  let '(r, c, cand) := p in
  isUnassigned st r c /\ cand <> [] /\
  getCandidates n cageOf st r c = Ok (cand, st).

(** What a call of [backtrack] from [st] may end in: it does not run out of
    fuel; it throws only if [noThrow] fails; a failed search hands the state
    back unchanged; a successful one ends in a state that keeps the values
    assigned in [st] and in which the check of all cages passed. *)
Definition good (n : Z) (cs : list Cage) (cageOf : gmap (Z * Z) Cage)
           (st : State) (r : res (bool * State)) : Prop :=
  match r with
  | OutOfFuel => False
  | TypeError => ~ noThrow n cs cageOf
  | Ok (b, st') =>
      wf_state n st' /\
      (b = false -> st' = st) /\
      (b = true -> allCagesValid n cs (grid st') = Ok true /\
                   extends (grid st) (grid st'))
  end.

(** The grid has the cell and the cell is assigned. *)
Definition nonzeroAt (g : list (list Z)) (rc : Z * Z) : Prop :=
  exists x, cellOf g rc = Some x /\ x <> 0.

(** A usage mark is set in row [r] or in column [c] for value [v]. *)
Definition marked (st : State) (r c v : Z) : Prop :=
  get2 (rowUsed st) r v = Ok (Some true) \/ get2 (colUsed st) c v = Ok (Some true).



(** ** Puzzles and states used in the examples *)

Definition eqCage (r c t : Z) : Cage := mkCage [(r, c)] t Equals.

(** The bundled 3 x 3 example: nine single-cell [=] cages. *)
Definition example3 : Puzzle :=
  mkPuzzle 3 [eqCage 0 0 1; eqCage 0 1 2; eqCage 0 2 3;
              eqCage 1 0 2; eqCage 1 1 3; eqCage 1 2 1;
              eqCage 2 0 3; eqCage 2 1 1; eqCage 2 2 2].

(** 2 x 2, cages partition the board: (0,0) = 1, (1,1) = 2, and the other
    diagonal sums to 3.  No Latin square extends the two given cells. *)
Definition deadEndPuzzle : Puzzle :=
  mkPuzzle 2 [eqCage 0 0 1; eqCage 1 1 2; mkCage [(0, 1); (1, 0)] 3 Plus].

(** Its state when [backtrack] is first called. *)
Definition deadEndState : State :=
  mkState [[1; 0]; [0; 2]]
          [[false; true; false]; [false; false; true]]
          [[false; true; false]; [false; false; true]].

(** 1 x 1 with no cage at all: the one cell belongs to no cage. *)
Definition uncagedPuzzle : Puzzle := mkPuzzle 1 [].

(** 1 x 1 with its cell given. *)
Definition unitPuzzle : Puzzle := mkPuzzle 1 [eqCage 0 0 1].

(** 2 x 2, two row cages: the top row must sum to 4 (so (0,0) can only be
    2), the bottom row to 100 (so (1,0) has no candidate). *)
Definition forcedThenDead : Puzzle :=
  mkPuzzle 2 [mkCage [(0, 0); (0, 1)] 4 Plus; mkCage [(1, 0); (1, 1)] 100 Plus].

(** 2 x 2 with (0,0) = 1 given and the other three cells summing to 5. *)
Definition cornerPuzzle : Puzzle :=
  mkPuzzle 2 [eqCage 0 0 1; mkCage [(0, 1); (1, 0); (1, 1)] 5 Plus].

(** Its state after pre-seeding. *)
Definition cornerState : State :=
  mkState [[1; 0]; [0; 0]]
          [[false; true; false]; [false; false; false]]
          [[false; true; false]; [false; false; false]].

(** 2 x 2 whose cell (0,0) is a one-cell [-] cage with target 1; the rest
    would admit the Latin square 1 2 / 2 1. *)
Definition lonelyPuzzle : Puzzle :=
  mkPuzzle 2 [mkCage [(0, 0)] 1 Minus; mkCage [(0, 1); (1, 1)] 3 Plus;
              eqCage 1 0 2].

(** 7 x 7, blank but for a 1 in the corner, and the [*] cage of its first
    twenty cells whose target is the double next above 7^19. *)
Definition cornerOne7 : list (list Z) :=
  [1; 0; 0; 0; 0; 0; 0] :: replicate 6 (replicate 7 0).

Definition twentyCells : Cage :=
  mkCage (take 20 (scanOrder 7)) 11398895185373144 Times.

(** The cyclic Latin square of size 7, and the [*] cage of the whole
    board whose target is what the 49 multiplications give in doubles. *)
Definition latin7 : list (list Z) :=
  [[1; 2; 3; 4; 5; 6; 7]; [2; 3; 4; 5; 6; 7; 1]; [3; 4; 5; 6; 7; 1; 2];
   [4; 5; 6; 7; 1; 2; 3]; [5; 6; 7; 1; 2; 3; 4]; [6; 7; 1; 2; 3; 4; 5];
   [7; 1; 2; 3; 4; 5; 6]].

Definition wholeBoard : Cage :=
  mkCage (scanOrder 7) 82606411253903518739726336 Times.

(** ** Further vocabulary *)

(** The cage has the cell. *)
Definition hasCell (rc : Z * Z) (cage : Cage) : bool :=
  existsb (cellEqb rc) (cells cage).

(** The cage is a single-cell cage on the cell. *)
Definition singleAt (rc : Z * Z) (cage : Cage) : bool :=
  match cells cage with
  | [rc'] => cellEqb rc rc'
  | _ => false
  end.

(** [vals] is [full] with some entries blanked (set to 0). *)
Definition blanked (vals full : list Z) : Prop :=
  Forall2 (fun v w => v = 0 \/ v = w) vals full.

(** Every assigned cell holds a value of 1..n whose row mark and column
    mark are set. *)
Definition marksCover (n : Z) (st : State) : Prop :=
  forall r c v, cellOf (grid st) (r, c) = Some v -> v <> 0 ->
    1 <= v <= n /\
    get2 (rowUsed st) r v = Ok (Some true) /\
    get2 (colUsed st) c v = Ok (Some true).

(** No value other than 0 occurs twice in a row or twice in a column. *)
Definition noRepeat (g : list (list Z)) : Prop :=
  forall r c r' c' v, v <> 0 ->
    cellOf g (r, c) = Some v -> cellOf g (r', c') = Some v ->
    (r = r' -> c = c') /\ (c = c' -> r = r').

(** Column [c] of a grid. *)
Definition column (g : list (list Z)) (c : Z) : list Z :=
  omap (fun row => aget row c) g.

(** The shapes for which the operators are defined: two cells for [-] and
    [/], one cell for [=]. *)
Definition wellShaped (cage : Cage) : bool :=
  match op cage with
  | Plus | Times => true
  | Minus | Divide => (length (cells cage) =? 2)%nat
  | Equals => (length (cells cage) =? 1)%nat
  end.

(** The cell values combine under the operator to exactly the target. *)
Definition cageSatisfied (cage : Cage) (vals : list Z) : Prop :=
  match op cage with
  | Plus => sumOf vals = target cage
  | Times => prodOf vals = target cage
  | Minus => exists a b, vals = [a; b] /\ Z.abs (a - b) = target cage
  | Divide => exists a b, vals = [a; b] /\ Z.max a b = Z.min a b * target cage
  | Equals => exists a, vals = [a] /\ a = target cage
  end.

(** What a product past 2^53 in absolute value is rounded to: a number of
    the same sign that is at least 2^53 in absolute value, or the infinity
    of that sign. *)
Definition large (negative : bool) (d : dbl) : Prop :=
  match d with
  | Fin q => 2 ^ 53 <= Z.abs q /\ (q <? 0) = negative
  | Inf s => s = negative
  | NaN => False
  end.

(** The double [d] stands where exact arithmetic has the integer [P]: it
    is [P] itself while [P] is below 2^53 in absolute value, and large with
    the sign of [P] otherwise. *)
Definition tracks (d : dbl) (P : Z) : Prop :=
  if Z.abs P <? 2 ^ 53 then d = Fin P else large (P <? 0) d.

(** The binary64 numbers that hold integers, in their normal form: a
    mantissa of 53 bits, whose bits below the unit are 0. *)
Definition normal (f : spec_float) : Prop :=
  match f with
  | S754_finite _ m e =>
      Z.pos (Pos.size m) = 53 /\ -52 <= e <= 971 /\
      (e < 0 -> exists a, Z.pos m = a * 2 ^ (- e))
  | _ => True
  end.

(** An integer that binary64 holds exactly. *)
Definition representable (z : Z) : Prop := round64 z = Fin z.

(** ** The editor component ([GridInput]) *)

(** The state of the component: one field per [useState].  The two texts
    the component can put in [error] from the handlers modelled here are
    constructors. *)
Inductive Message : Type :=
| OverlapMsg        (* 'Selected cells overlap with an existing cage.' *)
| NoSolutionMsg     (* 'No solution found for this puzzle!' *)
| NoExampleMsg.     (* 'No example for this size' *)

Record Editor : Type := mkEditor {
  edSize : Z;                              (* size *)
  pz : Puzzle;
  sol : option (list (list Z));
  selectedCells : list (Z * Z);
  isDragging : bool;
  showCageModal : bool;
  cageOp : Op;
  cageTarget : Z;
  error : option Message;
  showIncompleteWarning : bool
}.

(** The setters.  A handler reads the state it was rendered with and
    queues its updates; the next state is that state with the updates
    applied in order. *)
Definition setSize (ed : Editor) (v : Z) : Editor :=
  mkEditor v (pz ed) (sol ed) (selectedCells ed) (isDragging ed) (showCageModal ed)
           (cageOp ed) (cageTarget ed) (error ed) (showIncompleteWarning ed).
Definition setPz (ed : Editor) (v : Puzzle) : Editor :=
  mkEditor (edSize ed) v (sol ed) (selectedCells ed) (isDragging ed) (showCageModal ed)
           (cageOp ed) (cageTarget ed) (error ed) (showIncompleteWarning ed).
Definition setSol (ed : Editor) (v : option (list (list Z))) : Editor :=
  mkEditor (edSize ed) (pz ed) v (selectedCells ed) (isDragging ed) (showCageModal ed)
           (cageOp ed) (cageTarget ed) (error ed) (showIncompleteWarning ed).
Definition setSelectedCells (ed : Editor) (v : list (Z * Z)) : Editor :=
  mkEditor (edSize ed) (pz ed) (sol ed) v (isDragging ed) (showCageModal ed)
           (cageOp ed) (cageTarget ed) (error ed) (showIncompleteWarning ed).
Definition setIsDragging (ed : Editor) (v : bool) : Editor :=
  mkEditor (edSize ed) (pz ed) (sol ed) (selectedCells ed) v (showCageModal ed)
           (cageOp ed) (cageTarget ed) (error ed) (showIncompleteWarning ed).
Definition setShowCageModal (ed : Editor) (v : bool) : Editor :=
  mkEditor (edSize ed) (pz ed) (sol ed) (selectedCells ed) (isDragging ed) v
           (cageOp ed) (cageTarget ed) (error ed) (showIncompleteWarning ed).
Definition setCageOp (ed : Editor) (v : Op) : Editor :=
  mkEditor (edSize ed) (pz ed) (sol ed) (selectedCells ed) (isDragging ed)
           (showCageModal ed) v (cageTarget ed) (error ed) (showIncompleteWarning ed).
Definition setCageTarget (ed : Editor) (v : Z) : Editor :=
  mkEditor (edSize ed) (pz ed) (sol ed) (selectedCells ed) (isDragging ed)
           (showCageModal ed) (cageOp ed) v (error ed) (showIncompleteWarning ed).
Definition setError (ed : Editor) (v : option Message) : Editor :=
  mkEditor (edSize ed) (pz ed) (sol ed) (selectedCells ed) (isDragging ed)
           (showCageModal ed) (cageOp ed) (cageTarget ed) v (showIncompleteWarning ed).
Definition setShowIncompleteWarning (ed : Editor) (v : bool) : Editor :=
  mkEditor (edSize ed) (pz ed) (sol ed) (selectedCells ed) (isDragging ed)
           (showCageModal ed) (cageOp ed) (cageTarget ed) (error ed) v.

Definition DEFAULT_SIZE : Z := 4.

(* defaultCages *)
Definition defaultCages (size : Z) : list Cage := [].

(** The first state, for a component rendered without [defaultPuzzle]. *)
Definition initialEditor : Editor :=
  mkEditor DEFAULT_SIZE (mkPuzzle DEFAULT_SIZE (defaultCages DEFAULT_SIZE))
           None [] false false Plus 1 None false.

(* handleSizeChange, with the integer that parseInt reads off the select *)
Definition handleSizeChange (ed : Editor) (newSize : Z) : Editor :=
  setSol (setPz (setSize ed newSize) (mkPuzzle newSize (defaultCages newSize))) None.

(* the loop of isPuzzleComplete over the cells of one cage *)
Definition markCage (size : Z) (assigned : list (list bool)) (cage : Cage)
  : list (list bool) :=
  foldl (fun acc rc =>
           let '(r, c) := rc in
           if (r >=? 0) && (r <? size) && (c >=? 0) && (c <? size)
           then set2 acc r c true else acc)
        assigned (cells cage).

Definition isPuzzleComplete (ed : Editor) : bool :=
  let k := Z.to_nat (edSize ed) in
  let assigned :=
    foldl (markCage (edSize ed)) (replicate k (replicate k false)) (cages (pz ed)) in
  forallb (fun b => b) (concat assigned).

(* handleSolve.  The timer that takes the warning down again two seconds
   later is a later event, [warningTimeout]. *)
Definition handleSolve (ed : Editor) : res Editor :=
  if negb (isPuzzleComplete ed) then Ok (setShowIncompleteWarning ed true)
  else
    let* ans := solveKenKen (pz ed) in
    Ok (setError (setSol ed ans)
                 (match ans with None => Some NoSolutionMsg | Some _ => None end)).

Definition warningTimeout (ed : Editor) : Editor :=
  setShowIncompleteWarning ed false.

(* rr === r && cc === c *)
Definition isCell (r c : Z) (rc : Z * Z) : bool := (rc.1 =? r) && (rc.2 =? c).

Definition handleCellMouseDown (ed : Editor) (r c : Z) : Editor :=
  setSelectedCells (setIsDragging ed true) [(r, c)].

Definition handleCellMouseEnter (ed : Editor) (r c : Z) : Editor :=
  if isDragging ed then
    let prev := selectedCells ed in
    setSelectedCells ed (if existsb (isCell r c) prev then prev else prev ++ [(r, c)])
  else ed.

(* onMouseLeave of the table *)
Definition handleMouseLeave (ed : Editor) : Editor := setIsDragging ed false.

(* The cells of all cages; the source compares their renderings `${r},${c}`,
   which agree exactly when the pairs of integers do. *)
Definition usedCells (cs : list Cage) : list (Z * Z) :=
  concat (map cells cs).

Definition overlaps (cs : list Cage) (selected : list (Z * Z)) : bool :=
  existsb (fun rc => existsb (isCell rc.1 rc.2) (usedCells cs)) selected.

Definition handleMouseUp (ed : Editor) : Editor :=
  let ed1 := setIsDragging ed false in
  if (0 <? length (selectedCells ed))%nat then
    if overlaps (cages (pz ed)) (selectedCells ed)
    then setSelectedCells (setError ed1 (Some OverlapMsg)) []
    else setShowCageModal ed1 true
  else ed1.

Definition handleCageModalSubmit (ed : Editor) : Editor :=
  if (cageTarget ed =? 0) || (length (selectedCells ed) =? 0)%nat then ed
  else
    let newCage := mkCage (selectedCells ed) (cageTarget ed) (cageOp ed) in
    let ed1 := setPz ed (mkPuzzle (size (pz ed)) (cages (pz ed) ++ [newCage])) in
    setError (setCageTarget (setCageOp (setShowCageModal (setSelectedCells ed1 [])
                                                         false) Plus) 1) None.

Definition handleCageModalClose (ed : Editor) : Editor :=
  setError (setSelectedCells (setShowCageModal ed false) []) None.

(* pz.cages.findIndex(...): -1 when no cage has the cell *)
Fixpoint findIndexFrom (i : Z) (r c : Z) (cs : list Cage) : Z :=
  match cs with
  | [] => -1
  | cage :: rest =>
      if existsb (isCell r c) (cells cage) then i else findIndexFrom (i + 1) r c rest
  end.

Definition cageAt (ed : Editor) (r c : Z) : Z :=
  findIndexFrom 0 r c (cages (pz ed)).

Definition cageInfoAt (ed : Editor) (r c : Z) : option Cage :=
  List.find (fun cage => existsb (isCell r c) (cells cage)) (cages (pz ed)).

(* the callback of the two reduce calls of isCageLabelCell *)
Definition topLeft (min rc : Z * Z) : Z * Z :=
  if (rc.1 <? min.1) || ((rc.1 =? min.1) && (rc.2 <? min.2)) then rc else min.

(* With no cell the reduce returns its initial value cage.cells[0], that is
   undefined, and indexing it throws. *)
Definition isCageLabelCell (cage : Cage) (r c : Z) : res bool :=
  match cells cage with
  | [] => TypeError
  | first :: _ =>
      let m := foldl topLeft first (cells cage) in
      Ok ((m.1 =? r) && (m.2 =? c))
  end.

(* prev.cages.filter((_, i) => i !== idx) *)
Fixpoint filterIndexFrom (i idx : Z) (cs : list Cage) : list Cage :=
  match cs with
  | [] => []
  | cage :: rest =>
      if i =? idx then filterIndexFrom (i + 1) idx rest
      else cage :: filterIndexFrom (i + 1) idx rest
  end.

Definition handleRemoveCage (ed : Editor) (idx : Z) : Editor :=
  setSol (setPz ed (mkPuzzle (size (pz ed)) (filterIndexFrom 0 idx (cages (pz ed)))))
         None.

(* examplePuzzles *)
Definition examplePuzzles (size : Z) : option (list Cage) :=
  if size =? 3 then Some [
   eqCage 0 0 1; eqCage 0 1 2; eqCage 0 2 3;
   eqCage 1 0 2; eqCage 1 1 3; eqCage 1 2 1;
   eqCage 2 0 3; eqCage 2 1 1; eqCage 2 2 2]
  else if size =? 4 then Some
  [mkCage [(0, 0); (0, 1)] 3 Plus; mkCage [(0, 2); (1, 2)] 4 Plus;
   mkCage [(0, 3); (1, 3)] 3 Divide; mkCage [(1, 0); (2, 0)] 3 Divide;
   mkCage [(1, 1); (2, 1)] 2 Divide; mkCage [(2, 2); (2, 3)] 3 Minus;
   mkCage [(3, 0); (3, 1)] 4 Plus; mkCage [(3, 2); (3, 3)] 1 Minus]
  else if size =? 5 then Some [
   eqCage 0 0 1; eqCage 0 1 2; eqCage 0 2 3; eqCage 0 3 4; eqCage 0 4 5;
   eqCage 1 0 2; eqCage 1 1 3; eqCage 1 2 4; eqCage 1 3 5; eqCage 1 4 1;
   eqCage 2 0 3; eqCage 2 1 4; eqCage 2 2 5; eqCage 2 3 1; eqCage 2 4 2;
   eqCage 3 0 4; eqCage 3 1 5; eqCage 3 2 1; eqCage 3 3 2; eqCage 3 4 3;
   eqCage 4 0 5; eqCage 4 1 1; eqCage 4 2 2; eqCage 4 3 3; eqCage 4 4 4]
  else if size =? 6 then Some [
   eqCage 0 0 1; eqCage 0 1 2; eqCage 0 2 3; eqCage 0 3 4; eqCage 0 4 5; eqCage 0 5 6;
   eqCage 1 0 2; eqCage 1 1 3; eqCage 1 2 4; eqCage 1 3 5; eqCage 1 4 6; eqCage 1 5 1;
   eqCage 2 0 3; eqCage 2 1 4; eqCage 2 2 5; eqCage 2 3 6; eqCage 2 4 1; eqCage 2 5 2;
   eqCage 3 0 4; eqCage 3 1 5; eqCage 3 2 6; eqCage 3 3 1; eqCage 3 4 2; eqCage 3 5 3;
   eqCage 4 0 5; eqCage 4 1 6; eqCage 4 2 1; eqCage 4 3 2; eqCage 4 4 3; eqCage 4 5 4;
   eqCage 5 0 6; eqCage 5 1 1; eqCage 5 2 2; eqCage 5 3 3; eqCage 5 4 4; eqCage 5 5 5]
  else None.

Definition handleClearAll (ed : Editor) : Editor :=
  setSelectedCells (setError (setSol (setPz ed (mkPuzzle (edSize ed) [])) None) None) [].

Definition handleLoadExample (ed : Editor) : Editor :=
  match examplePuzzles (edSize ed) with
  | Some cs =>
      setSelectedCells
        (setError (setSol (setPz ed (mkPuzzle (edSize ed) cs)) None) None) []
  | None => setError ed (Some NoExampleMsg)
  end.

(** The events of the component and the handler of each. *)
Inductive Event : Type :=
| SizeChange (newSize : Z)
| Solve
| WarningTimeout
| CellMouseDown (r c : Z)
| CellMouseEnter (r c : Z)
| MouseLeave
| MouseUp
| CageModalSubmit
| CageModalClose
| CageOpChange (o : Op)
| CageTargetChange (t : Z)
| RemoveCage (idx : Z)
| ClearAll
| LoadExample.

Definition handle (ed : Editor) (ev : Event) : res Editor :=
  match ev with
  | SizeChange newSize => Ok (handleSizeChange ed newSize)
  | Solve => handleSolve ed
  | WarningTimeout => Ok (warningTimeout ed)
  | CellMouseDown r c => Ok (handleCellMouseDown ed r c)
  | CellMouseEnter r c => Ok (handleCellMouseEnter ed r c)
  | MouseLeave => Ok (handleMouseLeave ed)
  | MouseUp => Ok (handleMouseUp ed)
  | CageModalSubmit => Ok (handleCageModalSubmit ed)
  | CageModalClose => Ok (handleCageModalClose ed)
  | CageOpChange o => Ok (setCageOp ed o)
  | CageTargetChange t => Ok (setCageTarget ed t)
  | RemoveCage idx => Ok (handleRemoveCage ed idx)
  | ClearAll => Ok (handleClearAll ed)
  | LoadExample => Ok (handleLoadExample ed)
  end.

Fixpoint run (ed : Editor) (evs : list Event) : res Editor :=
  match evs with
  | [] => Ok ed
  | ev :: rest => let* ed' := handle ed ev in run ed' rest
  end.

(** The gesture that defines a cage: press on a cell, drag over others,
    release, confirm the dialog. *)
Definition dragAndAdd (ed : Editor) (r c : Z) (path : list (Z * Z)) : Editor :=
  let pressed := handleCellMouseDown ed r c in
  let dragged := foldl (fun e rc => handleCellMouseEnter e rc.1 rc.2) pressed path in
  handleCageModalSubmit (handleMouseUp dragged).

(** No cell occurs twice among the cells of the cages. *)
Definition disjointCages (cs : list Cage) : Prop := NoDup (usedCells cs).

(** The lexicographic order on cells: row first, then column. *)
Definition cellLe (a b : Z * Z) : Prop :=
  a.1 < b.1 \/ (a.1 = b.1 /\ a.2 <= b.2).

(** The shape of the table of marks of [isPuzzleComplete]. *)
Definition markShape (size : Z) (a : list (list bool)) : Prop :=
  length a = Z.to_nat size /\ Forall (fun row => length row = Z.to_nat size) a.

(** * Properties *)

(** ** Outcomes and arrays *)

Lemma bind_Ok {A B : Type} (m : res A) (k : A -> res B) (b : B) :
  bind m k = Ok b -> exists a, m = Ok a /\ k a = Ok b.
Proof. destruct m; simpl; intros H; try discriminate. eauto. Qed.

Lemma aget_Some {A : Type} (a : list A) (i : Z) (x : A) :
  aget a i = Some x <-> 0 <= i /\ a !! Z.to_nat i = Some x.
Proof.
  unfold aget. destruct (Z.ltb_spec i 0); split.
  - discriminate.
  - intros [? _]; lia.
  - auto.
  - intros [_ ?]; done.
Qed.

Lemma aget_range {A : Type} (a : list A) (i : Z) (x : A) :
  aget a i = Some x -> 0 <= i < Z.of_nat (length a).
Proof.
  intros [H0 H]%aget_Some. apply lookup_lt_Some in H. lia.
Qed.

Lemma aget_in_range {A : Type} (a : list A) (i : Z) :
  0 <= i < Z.of_nat (length a) -> exists x, aget a i = Some x.
Proof.
  intros H. destruct (lookup_lt_is_Some_2 a (Z.to_nat i)) as [x Hx]; [lia|].
  exists x. apply aget_Some. split; [lia | done].
Qed.

Lemma aset_length {A : Type} (a : list A) (i : Z) (x : A) :
  length (aset a i x) = length a.
Proof. unfold aset. destruct (i <? 0); [done | apply length_insert]. Qed.

Lemma aget_aset_eq {A : Type} (a : list A) (i : Z) (x y : A) :
  aget a i = Some y -> aget (aset a i x) i = Some x.
Proof.
  intros [H0 H]%aget_Some. apply aget_Some. split; [done|].
  unfold aset. destruct (Z.ltb_spec i 0); [lia|].
  apply list_lookup_insert_eq. by apply lookup_lt_Some in H.
Qed.

Lemma aget_aset_ne {A : Type} (a : list A) (i j : Z) (x : A) :
  i <> j -> aget (aset a i x) j = aget a j.
Proof.
  intros Hne. unfold aget, aset.
  destruct (Z.ltb_spec j 0); [done|].
  destruct (Z.ltb_spec i 0); [done|].
  apply list_lookup_insert_ne. lia.
Qed.

Lemma aset_aset {A : Type} (a : list A) (i : Z) (x y : A) :
  aset (aset a i x) i y = aset a i y.
Proof. unfold aset. destruct (i <? 0); [done | apply list_insert_insert_eq]. Qed.

Lemma aset_id {A : Type} (a : list A) (i : Z) (x : A) :
  aget a i = Some x -> aset a i x = a.
Proof.
  intros [H0 H]%aget_Some. unfold aset.
  destruct (Z.ltb_spec i 0); [lia|]. by apply list_insert_id.
Qed.

Lemma aset_Forall {A : Type} (P : A -> Prop) (a : list A) (i : Z) (x : A) :
  Forall P a -> P x -> Forall P (aset a i x).
Proof.
  intros Ha Hx. unfold aset. destruct (i <? 0); [done|]. by apply Forall_insert.
Qed.

Lemma aget_Forall {A : Type} (P : A -> Prop) (a : list A) (i : Z) (x : A) :
  Forall P a -> aget a i = Some x -> P x.
Proof.
  intros Ha [_ H]%aget_Some. rewrite Forall_lookup in Ha. eauto.
Qed.

(** ** Two-dimensional arrays *)

Lemma cellOf_get2 (g : list (list Z)) (r c : Z) (x : Z) :
  cellOf g (r, c) = Some x <-> get2 g r c = Ok (Some x).
Proof.
  unfold cellOf, get2; simpl. destruct (aget g r) as [row|]; simpl.
  - split; [intros -> | intros [= ->]]; done.
  - split; discriminate.
Qed.

Lemma get2_Some {A : Type} (m : list (list A)) (r c : Z) (x : A) :
  get2 m r c = Ok (Some x) <->
  exists row, aget m r = Some row /\ aget row c = Some x.
Proof.
  unfold get2. destruct (aget m r) as [row|].
  - split.
    + intros [= H]. eauto.
    + intros (row' & [= <-] & H). by rewrite H.
  - split; [discriminate | intros (? & ? & _); discriminate].
Qed.

Lemma get2_not_fuel {A : Type} (m : list (list A)) (r c : Z) :
  get2 m r c <> OutOfFuel.
Proof. unfold get2. destruct (aget m r); discriminate. Qed.

Lemma set2_length {A : Type} (m : list (list A)) (r c : Z) (x : A) :
  length (set2 m r c x) = length m.
Proof. unfold set2. destruct (aget m r); [apply aset_length | done]. Qed.

Lemma set2_Forall_length {A : Type} (m : list (list A)) (r c : Z) (x : A) (k : nat) :
  Forall (fun row => length row = k) m ->
  Forall (fun row => length row = k) (set2 m r c x).
Proof.
  intros H. unfold set2. destruct (aget m r) as [row|] eqn:E; [|done].
  apply aset_Forall; [done|]. rewrite aset_length.
  by apply (aget_Forall _ _ _ _ H E).
Qed.

Lemma get2_set2_eq {A : Type} (m : list (list A)) (r c : Z) (x y : A) :
  get2 m r c = Ok (Some y) -> get2 (set2 m r c x) r c = Ok (Some x).
Proof.
  intros (row & Hr & Hc)%get2_Some. apply get2_Some.
  unfold set2. rewrite Hr. exists (aset row c x). split.
  - by apply (aget_aset_eq _ _ _ row).
  - by apply (aget_aset_eq _ _ _ y).
Qed.

Lemma get2_set2_ne {A : Type} (m : list (list A)) (r c r' c' : Z) (x : A) :
  (r, c) <> (r', c') -> get2 (set2 m r c x) r' c' = get2 m r' c'.
Proof.
  intros Hne. unfold set2. destruct (aget m r) as [row|] eqn:Hr; [|done].
  unfold get2. destruct (Z.eq_dec r r') as [<-|Hrr].
  - rewrite (aget_aset_eq _ _ _ row Hr), Hr.
    rewrite aget_aset_ne; [done | congruence].
  - by rewrite aget_aset_ne.
Qed.

Lemma set2_set2 {A : Type} (m : list (list A)) (r c : Z) (x y : A) :
  set2 (set2 m r c x) r c y = set2 m r c y.
Proof.
  unfold set2 at 2 3. destruct (aget m r) as [row|] eqn:Hr.
  - unfold set2. rewrite (aget_aset_eq _ _ _ row Hr).
    by rewrite aset_aset, aset_aset.
  - unfold set2. by rewrite Hr.
Qed.

Lemma set2_id {A : Type} (m : list (list A)) (r c : Z) (x : A) :
  get2 m r c = Ok (Some x) -> set2 m r c x = m.
Proof.
  intros (row & Hr & Hc)%get2_Some. unfold set2. rewrite Hr.
  rewrite (aset_id row c x Hc). by apply aset_id.
Qed.

Lemma set2_undo {A : Type} (m : list (list A)) (r c : Z) (x y : A) :
  get2 m r c = Ok (Some y) -> set2 (set2 m r c x) r c y = m.
Proof. intros H. rewrite set2_set2. by apply set2_id. Qed.

(** ** The search state *)

Lemma init_wf (n : Z) : wf_state n (init n).
Proof.
  unfold wf_state, init; cbn [grid rowUsed colUsed].
  rewrite !length_replicate. repeat split; try done.
  all: apply Forall_replicate; apply length_replicate.
Qed.

Lemma place_wf (n : Z) (st : State) (r c v : Z) :
  wf_state n st -> wf_state n (place st r c v).
Proof.
  intros (H1 & H2 & H3 & H4 & H5 & H6). unfold wf_state, place; simpl.
  rewrite !set2_length. repeat split; try done; by apply set2_Forall_length.
Qed.

Lemma get2_in_range {A : Type} (m : list (list A)) (k : nat) (r c : Z) :
  Forall (fun row => length row = k) m ->
  0 <= r < Z.of_nat (length m) -> 0 <= c < Z.of_nat k ->
  exists x, get2 m r c = Ok (Some x).
Proof.
  intros Hm Hr Hc. destruct (aget_in_range m r Hr) as [row Hrow].
  pose proof (aget_Forall _ _ _ _ Hm Hrow) as Hlen; simpl in Hlen.
  destruct (aget_in_range row c) as [x Hx]; [lia|].
  exists x. apply get2_Some. eauto.
Qed.

Lemma get2_range {A : Type} (m : list (list A)) (k : nat) (r c : Z) (x : A) :
  Forall (fun row => length row = k) m ->
  get2 m r c = Ok (Some x) ->
  0 <= r < Z.of_nat (length m) /\ 0 <= c < Z.of_nat k.
Proof.
  intros Hm (row & Hr & Hc)%get2_Some.
  pose proof (aget_Forall _ _ _ _ Hm Hr) as Hlen; simpl in Hlen.
  apply aget_range in Hr. apply aget_range in Hc. lia.
Qed.

Lemma get2_row {A : Type} (m : list (list A)) (r c : Z) :
  0 <= r < Z.of_nat (length m) -> exists o, get2 m r c = Ok o.
Proof.
  intros Hr. destruct (aget_in_range m r Hr) as [row Hrow].
  unfold get2. rewrite Hrow. eauto.
Qed.

Lemma wf_cell (n : Z) (st : State) (r c : Z) :
  wf_state n st -> onGrid n (r, c) ->
  exists x, get2 (grid st) r c = Ok (Some x).
Proof.
  intros (H1 & H2 & _) [Hr Hc]; simpl in *.
  apply (get2_in_range _ (Z.to_nat n)); [done | lia | lia].
Qed.

Lemma wf_cell_onGrid (n : Z) (st : State) (r c : Z) (x : Z) :
  wf_state n st -> get2 (grid st) r c = Ok (Some x) -> onGrid n (r, c).
Proof.
  intros (H1 & H2 & _) H.
  destruct (get2_range _ _ _ _ _ H2 H) as [Hr Hc].
  unfold onGrid; simpl. lia.
Qed.

Lemma used_not_fuel (st : State) (r c v : Z) : used st r c v <> OutOfFuel.
Proof.
  unfold used, get2.
  destruct (aget (rowUsed st) r); simpl; [|discriminate].
  destruct (truthy _); [discriminate|].
  destruct (aget (colUsed st) c); simpl; discriminate.
Qed.

Lemma used_total (n : Z) (st : State) (r c v : Z) :
  wf_state n st -> onGrid n (r, c) -> exists b, used st r c v = Ok b.
Proof.
  intros (_ & _ & H3 & _ & H5 & _) [Hr Hc]; simpl in *.
  destruct (get2_row (rowUsed st) r v) as [a Ha]; [lia|].
  destruct (get2_row (colUsed st) c v) as [b Hb]; [lia|].
  unfold used. rewrite Ha; simpl. destruct (truthy a); [eauto|].
  rewrite Hb; simpl. eauto.
Qed.

(** A value that [used] reports free, on a well-shaped state, has both its
    usage marks present and false, and the cell is on the board. *)
Lemma used_false (n : Z) (st : State) (r c v : Z) :
  wf_state n st -> 1 <= v <= n -> used st r c v = Ok false ->
  get2 (rowUsed st) r v = Ok (Some false) /\
  get2 (colUsed st) c v = Ok (Some false) /\
  0 <= r < n /\ 0 <= c < n.
Proof.
  intros (_ & _ & H3 & H4 & H5 & H6) Hv H. unfold used in H.
  apply bind_Ok in H as (a & Ha & H).
  destruct (truthy a) eqn:Ta; [discriminate|].
  apply bind_Ok in H as (b & Hb & [= Tb]).
  assert (Hr : 0 <= r < n).
  { unfold get2 in Ha. destruct (aget (rowUsed st) r) eqn:E; [|discriminate].
    apply aget_range in E. lia. }
  assert (Hc : 0 <= c < n).
  { unfold get2 in Hb. destruct (aget (colUsed st) c) eqn:E; [|discriminate].
    apply aget_range in E. lia. }
  destruct (get2_in_range _ _ r v H4) as [x Hx]; [lia | lia |].
  destruct (get2_in_range _ _ c v H6) as [y Hy]; [lia | lia |].
  rewrite Hx in Ha. injection Ha as <-. rewrite Hy in Hb. injection Hb as <-.
  destruct x, y; simpl in *; try discriminate. done.
Qed.

Lemma place_unplace (n : Z) (st : State) (r c v : Z) :
  wf_state n st -> isUnassigned st r c -> 1 <= v <= n ->
  used st r c v = Ok false ->
  unplace (place st r c v) r c v = st.
Proof.
  intros Hwf Hz%cellOf_get2 Hv Hu.
  destruct (used_false _ _ _ _ _ Hwf Hv Hu) as (Hr & Hc & _).
  destruct st as [g ru cu]; unfold unplace, place; simpl in *.
  by rewrite !set2_undo.
Qed.

(** Undoing a placement also restores a state reached from it that left the
    placement in place. *)
Lemma place_marks (n : Z) (st : State) (r c v : Z) :
  wf_state n st -> 1 <= v <= n -> used st r c v = Ok false ->
  get2 (rowUsed (place st r c v)) r v = Ok (Some true) /\
  get2 (colUsed (place st r c v)) c v = Ok (Some true).
Proof.
  intros Hwf Hv Hu.
  destruct (used_false _ _ _ _ _ Hwf Hv Hu) as (Hr & Hc & _).
  unfold place; simpl. split; eapply get2_set2_eq; eauto.
Qed.

(** ** Counting the unassigned cells *)

Lemma zeros_app (g1 g2 : list (list Z)) :
  zeros (g1 ++ g2) = (zeros g1 + zeros g2)%nat.
Proof. unfold zeros. by rewrite concat_app, List.filter_app, length_app. Qed.

Lemma zeros_cons (row : list Z) (g : list (list Z)) :
  zeros (row :: g) = (zeros [row] + zeros g)%nat.
Proof. apply (zeros_app [row] g). Qed.

Lemma zeros_row_insert (row : list Z) (j : nat) (v : Z) :
  row !! j = Some 0 -> v <> 0 ->
  zeros [row] = S (zeros [<[j := v]> row]).
Proof.
  intros Hj Hv. unfold zeros; simpl. rewrite !app_nil_r.
  rewrite insert_take_drop by (by apply lookup_lt_Some in Hj).
  rewrite <- (take_drop_middle row j 0 Hj) at 1.
  rewrite !List.filter_app, !length_app. simpl.
  destruct (Z.eqb_spec v 0); [done|]. simpl. lia.
Qed.

Lemma zeros_set2 (g : list (list Z)) (r c v : Z) :
  get2 g r c = Ok (Some 0) -> v <> 0 ->
  zeros g = S (zeros (set2 g r c v)).
Proof.
  intros (row & Hr & Hc)%get2_Some Hv.
  unfold set2. rewrite Hr.
  pose proof Hr as [Hr0 Hr']%aget_Some. pose proof Hc as [Hc0 Hc']%aget_Some.
  unfold aset. destruct (Z.ltb_spec r 0); [lia|]. destruct (Z.ltb_spec c 0); [lia|].
  rewrite insert_take_drop by (by apply lookup_lt_Some in Hr').
  rewrite <- (take_drop_middle g (Z.to_nat r) row Hr') at 1.
  rewrite !zeros_app, (zeros_cons row), (zeros_cons (<[_ := _]> row)).
  rewrite (zeros_row_insert row (Z.to_nat c) v Hc' Hv). lia.
Qed.

Lemma zeros_bound (n : Z) (st : State) :
  wf_state n st -> (zeros (grid st) <= Z.to_nat n * Z.to_nat n)%nat.
Proof.
  intros (H1 & H2 & _). unfold zeros.
  etransitivity; [apply List.filter_length_le|].
  rewrite <- H1 at 1. clear H1.
  induction H2 as [|row g Hrow _ IH]; simpl; [done|].
  rewrite length_app. lia.
Qed.

(** ** The oracle *)

Lemma readCells_not_fuel (g : list (list Z)) (cl : list (Z * Z)) :
  readCells g cl <> OutOfFuel.
Proof.
  induction cl as [|[r c] rest IH]; simpl; [discriminate|].
  pose proof (get2_not_fuel g r c).
  destruct (get2 g r c); simpl; try done.
  destruct (readCells g rest); simpl; done.
Qed.

Lemma cageValidPartial_not_fuel (n : Z) (g : list (list Z)) (cage : Cage) :
  cageValidPartial n g cage <> OutOfFuel.
Proof.
  unfold cageValidPartial. pose proof (readCells_not_fuel g (cells cage)).
  destruct (readCells g (cells cage)); simpl; done.
Qed.

(** On cells that the grid has, the value list is the list of their
    contents, none of them undefined. *)
Lemma readCells_values (g : list (list Z)) (cl : list (Z * Z)) (vals : list Z) :
  mapM (cellOf g) cl = Some vals -> readCells g cl = Ok (map Some vals).
Proof.
  rewrite mapM_Some. induction 1 as [|[r c] v cl vals Hv _ IH]; simpl; [done|].
  apply cellOf_get2 in Hv. by rewrite Hv, IH.
Qed.

Lemma readCells_onGrid (n : Z) (st : State) (cl : list (Z * Z)) :
  wf_state n st -> forallb (onGridb n) cl = true ->
  exists vals, mapM (cellOf (grid st)) cl = Some vals.
Proof.
  intros Hwf. induction cl as [|[r c] rest IH]; simpl; [by exists []|].
  intros [Hrc Hrest]%andb_true_iff. destruct (IH Hrest) as [vals Hvals].
  destruct (wf_cell n st r c Hwf) as [x Hx].
  { unfold onGridb in Hrc; simpl in Hrc. unfold onGrid; simpl. lia. }
  apply cellOf_get2 in Hx. exists (x :: vals).
  by rewrite Hx; simpl; rewrite Hvals.
Qed.

Lemma countUnassigned_values (vals : list Z) :
  countUnassigned (map Some vals) = unassignedIn vals.
Proof.
  unfold countUnassigned, unassignedIn.
  induction vals as [|v vals IH]; [done|].
  cbn [map List.filter]. change (isZero (Some v)) with (v =? 0).
  destruct (v =? 0); cbn [length]; by rewrite IH.
Qed.

Lemma sumOf_filled (vals : list Z) : sumOf (filled vals) = sumOf vals.
Proof.
  induction vals as [|v vals IH]; simpl; [done|].
  destruct (Z.eqb_spec v 0); simpl; lia.
Qed.

Lemma sumValues_from (a : Z) (vals : list Z) :
  foldl nadd (Some a) (map Some vals) = Some (a + sumOf vals).
Proof.
  revert a. induction vals as [|v vals IH]; intros a; simpl.
  - f_equal. lia.
  - rewrite IH. f_equal. lia.
Qed.

Lemma sumValues_values (vals : list Z) :
  sumValues (map Some vals) = Some (sumOf (filled vals)).
Proof. unfold sumValues. by rewrite sumValues_from, sumOf_filled. Qed.

(** ** Rounding to binary64 *)

Lemma digits2_size (p : positive) : digits2_pos p = Pos.size p.
Proof. induction p; simpl; congruence. Qed.

Lemma size_bounds (p : positive) :
  2 ^ (Z.pos (Pos.size p) - 1) <= Z.pos p < 2 ^ Z.pos (Pos.size p).
Proof.
  assert (Hstep : forall s : positive,
            2 ^ Z.pos (Pos.succ s) = 2 * 2 ^ Z.pos s /\
            2 ^ (Z.pos (Pos.succ s) - 1) = 2 * 2 ^ (Z.pos s - 1)).
  { intros s. rewrite Pos2Z.inj_succ. split.
    - apply Z.pow_succ_r. lia.
    - replace (Z.succ (Z.pos s) - 1) with (Z.succ (Z.pos s - 1)) by lia.
      apply Z.pow_succ_r. lia. }
  induction p as [p IH|p IH|]; cbn [Pos.size].
  - destruct (Hstep (Pos.size p)) as [-> ->]. rewrite (Pos2Z.inj_xI p).
    revert IH. generalize (2 ^ (Z.pos (Pos.size p) - 1)) (2 ^ Z.pos (Pos.size p)). clear. lia.
  - destruct (Hstep (Pos.size p)) as [-> ->]. rewrite (Pos2Z.inj_xO p).
    revert IH. generalize (2 ^ (Z.pos (Pos.size p) - 1)) (2 ^ Z.pos (Pos.size p)). clear. lia.
  - cbn. lia.
Qed.

Lemma size_unique (p : positive) (s : Z) :
  2 ^ (s - 1) <= Z.pos p < 2 ^ s -> Z.pos (Pos.size p) = s.
Proof.
  intros [Hlo Hhi]. destruct (size_bounds p) as [Blo Bhi].
  set (d := Z.pos (Pos.size p)) in *.
  assert (Hd : 0 < d) by (subst d; lia).
  destruct (Z.lt_trichotomy d s) as [Hlt | [Heq | Hgt]]; [|done|].
  - assert (2 ^ d <= 2 ^ (s - 1)) by (apply Z.pow_le_mono_r; lia). lia.
  - assert (0 <= s \/ s < 0) as [Hs|Hs] by lia.
    + assert (2 ^ s <= 2 ^ (d - 1)) by (apply Z.pow_le_mono_r; lia). lia.
    + rewrite (Z.pow_neg_r 2 s) in Hhi by lia. lia.
Qed.

Lemma shr_1_m (r : shr_record) : 0 <= shr_m r -> shr_m (shr_1 r) = shr_m r / 2.
Proof.
  destruct r as [m r s]. cbn [shr_m]. intros Hm. unfold shr_1.
  destruct m as [|[p|p|]|p]; cbn [shr_m]; try lia.
  - done.
  - rewrite (Pos2Z.inj_xI p). apply Z.div_unique with 1; lia.
  - rewrite (Pos2Z.inj_xO p). apply Z.div_unique with 0; lia.
  - done.
Qed.

Lemma shr_iter_m (k : positive) :
  forall r, 0 <= shr_m r -> shr_m (SpecFloat.iter_pos shr_1 k r) = shr_m r / 2 ^ Z.pos k.
Proof.
  induction k as [k IH|k IH|]; intros r Hr; cbn [SpecFloat.iter_pos].
  - assert (H1 : 0 <= shr_m (shr_1 r)).
    { rewrite shr_1_m by done. apply Z.div_pos; lia. }
    assert (H2 : 0 <= shr_m (SpecFloat.iter_pos shr_1 k (shr_1 r))).
    { rewrite IH by done. apply Z.div_pos; lia. }
    rewrite IH, IH, shr_1_m by done.
    rewrite !Z.div_div by lia. f_equal.
    rewrite (Pos2Z.inj_xI k). replace (2 * Z.pos k + 1) with (1 + Z.pos k + Z.pos k) by lia.
    rewrite !Z.pow_add_r by lia. change (2 ^ 1) with 2. ring.
  - assert (H2 : 0 <= shr_m (SpecFloat.iter_pos shr_1 k r)).
    { rewrite IH by done. apply Z.div_pos; lia. }
    rewrite IH, IH by done. rewrite Z.div_div by lia. f_equal.
    rewrite (Pos2Z.inj_xO k). replace (2 * Z.pos k) with (Z.pos k + Z.pos k) by lia.
    rewrite Z.pow_add_r by lia. reflexivity.
  - by rewrite shr_1_m.
Qed.

Lemma size_53 (m : positive) : Z.pos m < 2 ^ 53 -> Z.pos (Pos.size m) <= 53.
Proof.
  intros Hm. destruct (size_bounds m) as [Blo _].
  destruct (Z.le_gt_cases (Z.pos (Pos.size m)) 53); [done|].
  assert (2 ^ 53 <= 2 ^ (Z.pos (Pos.size m) - 1)) by (apply Z.pow_le_mono_r; lia). lia.
Qed.

Lemma size_54 (m : positive) : 2 ^ 53 <= Z.pos m -> 54 <= Z.pos (Pos.size m).
Proof.
  intros Hm. destruct (size_bounds m) as [_ Bhi].
  destruct (Z.le_gt_cases 54 (Z.pos (Pos.size m))); [done|].
  assert (2 ^ Z.pos (Pos.size m) <= 2 ^ 53) by (apply Z.pow_le_mono_r; lia). lia.
Qed.

Lemma fexp64 (e : Z) : fexp 53 1024 e = Z.max (e - 53) (-1074).
Proof. reflexivity. Qed.

Lemma shr_spec (r : shr_record) (e n : Z) :
  0 <= shr_m r ->
  shr_m (shr r e n).1 = shr_m r / 2 ^ Z.max 0 n /\
  (shr r e n).2 = e + Z.max 0 n /\
  (n <= 0 -> (shr r e n).1 = r).
Proof.
  intros Hr. destruct n as [|k|k]; cbn [shr fst snd].
  - rewrite Z.max_l by lia. change (2 ^ 0) with 1. rewrite Z.div_1_r. split; [done|].
    split; [lia | done].
  - rewrite Z.max_r by lia. split; [by apply shr_iter_m|]. split; [done | lia].
  - rewrite Z.max_l by lia. change (2 ^ 0) with 1. rewrite Z.div_1_r. split; [done|].
    split; [lia | done].
Qed.

Lemma pow2_split (a b : Z) : 0 <= a -> 0 <= b -> 2 ^ (a + b) = 2 ^ a * 2 ^ b.
Proof. intros. by apply Z.pow_add_r. Qed.

(** A mantissa of 53 bits at an exponent within range is kept as it is. *)
Lemma round_aux_exact (s : bool) (m : positive) (e : Z) :
  Z.pos (Pos.size m) = 53 -> -1074 <= e <= 971 ->
  binary_round_aux 53 1024 s (Z.pos m) e loc_Exact = S754_finite s m e.
Proof.
  intros Hd He.
  assert (Hsame : shr_fexp 53 1024 (Z.pos m) e loc_Exact
                  = ({| shr_m := Z.pos m; shr_r := false; shr_s := false |}, e)).
  { unfold shr_fexp. cbn [Zdigits2 shr_record_of_loc]. rewrite digits2_size, Hd, fexp64.
    replace (Z.max (53 + e - 53) (-1074) - e) with 0 by lia. reflexivity. }
  unfold binary_round_aux. rewrite Hsame.
  cbn [shr_m loc_of_shr_record round_nearest_even]. rewrite Hsame. cbn [shr_m].
  change (1024 - 53) with 971. by destruct (Z.leb_spec e 971); [|lia].
Qed.

(** A mantissa of more than 53 bits at exponent 0 is cut down to 53 bits;
    what is left is at least 2^52, at an exponent of at least 1. *)
Lemma round_aux_big (s : bool) (m : positive) :
  2 ^ 53 <= Z.pos m ->
  match binary_round_aux 53 1024 s (Z.pos m) 0 loc_Exact with
  | S754_finite s' m' e' => s' = s /\ 2 ^ 52 <= Z.pos m' < 2 ^ 53 /\ 1 <= e' <= 971
  | S754_infinity s' => s' = s
  | _ => False
  end.
Proof.
  intros Hm. destruct (size_bounds m) as [Blo Bhi].
  set (d := Z.pos (Pos.size m)) in *.
  assert (Hd : 54 <= d).
  { destruct (Z.le_gt_cases 54 d); [done|].
    assert (2 ^ d <= 2 ^ 53) by (apply Z.pow_le_mono_r; lia). lia. }
  unfold binary_round_aux.
  (* first shift *)
  unfold shr_fexp at 1. cbn [Zdigits2 shr_record_of_loc]. rewrite digits2_size.
  fold d. rewrite fexp64.
  replace (Z.max (d + 0 - 53) (-1074) - 0) with (d - 53) by lia.
  destruct (shr_spec {| shr_m := Z.pos m; shr_r := false; shr_s := false |} 0 (d - 53))
    as (Hm1 & He1 & _); [cbn; lia|].
  destruct (shr _ 0 (d - 53)) as [r1 e1]. cbn [fst snd shr_m] in Hm1, He1.
  rewrite Z.max_r in Hm1, He1 by lia.
  assert (Hr1 : 2 ^ 52 <= shr_m r1 < 2 ^ 53).
  { rewrite Hm1. split.
    - apply Z.div_le_lower_bound; [lia|].
      rewrite Z.mul_comm, <- pow2_split by lia.
      by replace (52 + (d - 53)) with (d - 1) by lia.
    - apply Z.div_lt_upper_bound; [lia|].
      rewrite <- pow2_split by lia.
      by replace (d - 53 + 53) with d by lia. }
  set (m2 := round_nearest_even (shr_m r1) (loc_of_shr_record r1)).
  assert (Hm2 : 2 ^ 52 <= m2 <= 2 ^ 53).
  { subst m2. unfold round_nearest_even.
    destruct (loc_of_shr_record r1) as [|[| |]]; try lia.
    destruct (Z.even (shr_m r1)); lia. }
  clearbody m2. clear Hm1 Hr1 r1.
  destruct m2 as [|p2|p2]; [lia| |lia].
  (* second shift *)
  unfold shr_fexp. cbn [Zdigits2 shr_record_of_loc]. rewrite digits2_size, fexp64.
  set (d2 := Z.pos (Pos.size p2)).
  assert (Hd2 : (d2 = 53 /\ Z.pos p2 < 2 ^ 53) \/ (d2 = 54 /\ Z.pos p2 = 2 ^ 53)).
  { destruct (Z.eq_dec (Z.pos p2) (2 ^ 53)) as [E|E].
    - right. split; [|done]. apply size_unique. rewrite E.
      change (54 - 1) with 53. split; [lia|]. by apply Z.pow_lt_mono_r.
    - left. split; [|lia]. apply size_unique. change (53 - 1) with 52. lia. }
  destruct (shr_spec {| shr_m := Z.pos p2; shr_r := false; shr_s := false |} e1
              (Z.max (d2 + e1 - 53) (-1074) - e1)) as (Hm3 & He3 & _); [cbn; lia|].
  destruct (shr _ e1 _) as [r3 e3]. cbn [fst snd shr_m] in Hm3, He3.
  assert (Hr3 : 2 ^ 52 <= shr_m r3 < 2 ^ 53 /\ 1 <= e3).
  { destruct Hd2 as [[-> Hp2] | [-> Hp2]].
    - replace (Z.max 0 (Z.max (53 + e1 - 53) (-1074) - e1)) with 0 in Hm3, He3 by lia.
      change (2 ^ 0) with 1 in Hm3. rewrite Z.div_1_r in Hm3. lia.
    - replace (Z.max 0 (Z.max (54 + e1 - 53) (-1074) - e1)) with 1 in Hm3, He3 by lia.
      rewrite Hp2 in Hm3. change (2 ^ 53 / 2 ^ 1) with (2 ^ 52) in Hm3. lia. }
  destruct (shr_m r3) as [|p3|p3]; [lia| |lia].
  change (1024 - 53) with 971.
  destruct (Z.leb_spec e3 971); [|done]. split; [done|]. lia.
Qed.

Lemma iter_pos_nat {A : Type} (f : A -> A) (p : positive) :
  forall x, SpecFloat.iter_pos f p x = Nat.iter (Pos.to_nat p) f x.
Proof.
  induction p as [p IH|p IH|]; intros x; cbn [SpecFloat.iter_pos].
  - rewrite !IH, Pos2Nat.inj_xI, Nat.iter_succ_r.
    replace (2 * Pos.to_nat p)%nat with (Pos.to_nat p + Pos.to_nat p)%nat by lia.
    by rewrite Nat.iter_add.
  - rewrite !IH, Pos2Nat.inj_xO.
    replace (2 * Pos.to_nat p)%nat with (Pos.to_nat p + Pos.to_nat p)%nat by lia.
    by rewrite Nat.iter_add.
  - reflexivity.
Qed.

Lemma pos_iter_nat {A : Type} (f : A -> A) (p : positive) (x : A) :
  Pos.iter f x p = Nat.iter (Pos.to_nat p) f x.
Proof.
  induction p as [|p IH] using Pos.peano_ind.
  - reflexivity.
  - by rewrite Pos.iter_succ, Pos2Nat.inj_succ, IH.
Qed.

Lemma shl_value (j : nat) (m : positive) :
  Z.pos (Nat.iter j xO m) = Z.pos m * 2 ^ Z.of_nat j.
Proof.
  induction j as [|j IH].
  - cbn. lia.
  - rewrite Nat.iter_succ, (Pos2Z.inj_xO (Nat.iter j xO m)), IH, Nat2Z.inj_succ,
      Z.pow_succ_r by lia. ring.
Qed.

Lemma shl_size (j : nat) (m : positive) :
  Z.pos (Pos.size (Nat.iter j xO m)) = Z.pos (Pos.size m) + Z.of_nat j.
Proof.
  induction j as [|j IH].
  - cbn. lia.
  - rewrite Nat.iter_succ. cbn [Pos.size]. rewrite Pos2Z.inj_succ, IH. lia.
Qed.

Lemma shl_unique (j : nat) (m M : positive) :
  Z.pos M = Z.pos m * 2 ^ Z.of_nat j -> M = Nat.iter j xO m.
Proof. intros H. apply Pos2Z.inj. by rewrite shl_value. Qed.

(** Shifting out bits that are 0 leaves no trace. *)
Lemma shr_zeros (j : nat) (m : positive) :
  Nat.iter j shr_1 {| shr_m := Z.pos (Nat.iter j xO m); shr_r := false; shr_s := false |}
  = {| shr_m := Z.pos m; shr_r := false; shr_s := false |}.
Proof.
  induction j as [|j IH]; [done|].
  by rewrite Nat.iter_succ_r, (Nat.iter_succ j xO m).
Qed.

Lemma shr_nat (r : shr_record) (e : Z) (k : nat) :
  shr r e (Z.of_nat k) = (Nat.iter k shr_1 r, e + Z.of_nat k).
Proof.
  destruct k as [|k].
  - change (Z.of_nat 0) with 0. cbn [shr Nat.iter nat_rect]. by rewrite Z.add_0_r.
  - unfold shr. destruct (Z.of_nat (S k)) as [|p|p] eqn:E; [lia| |lia].
    rewrite iter_pos_nat. f_equal. f_equal. lia.
Qed.

(** The same number, written with [j] more bits at an exponent lower by
    [j], is rounded alike. *)
Lemma round_aux_shift (s : bool) (m : positive) (E : Z) (j : nat) :
  53 <= Z.pos (Pos.size m) -> -1021 <= E ->
  binary_round_aux 53 1024 s (Z.pos (Nat.iter j xO m)) (E - Z.of_nat j) loc_Exact
  = binary_round_aux 53 1024 s (Z.pos m) E loc_Exact.
Proof.
  intros Hd HE.
  assert (Hsame : shr_fexp 53 1024 (Z.pos (Nat.iter j xO m)) (E - Z.of_nat j) loc_Exact
                  = shr_fexp 53 1024 (Z.pos m) E loc_Exact).
  { unfold shr_fexp. cbn [Zdigits2 shr_record_of_loc].
    rewrite (digits2_size m), (digits2_size (Nat.iter j xO m)), shl_size, !fexp64.
    set (d := Z.pos (Pos.size m)) in *.
    set (n := Z.to_nat (d - 53)).
    assert (Hn : Z.of_nat n = d - 53) by (subst n; lia). clearbody n.
    replace (Z.max (d + Z.of_nat j + (E - Z.of_nat j) - 53) (-1074) - (E - Z.of_nat j))
      with (Z.of_nat (n + j)) by lia.
    replace (Z.max (d + E - 53) (-1074) - E) with (Z.of_nat n) by lia.
    rewrite !shr_nat, Nat.iter_add, shr_zeros. f_equal. lia. }
  unfold binary_round_aux. by rewrite Hsame.
Qed.

Lemma binary_round_small (s : bool) (m : positive) :
  Z.pos m < 2 ^ 53 ->
  binary_round 53 1024 s m 0
  = S754_finite s (Nat.iter (Z.to_nat (53 - Z.pos (Pos.size m))) xO m)
                (Z.pos (Pos.size m) - 53).
Proof.
  intros Hm. destruct (size_bounds m) as [Blo Bhi].
  unfold binary_round. rewrite digits2_size, fexp64.
  set (d := Z.pos (Pos.size m)) in *.
  assert (Hd : 1 <= d <= 53).
  { split; [subst d; lia|]. destruct (Z.le_gt_cases d 53); [done|].
    assert (2 ^ 53 <= 2 ^ (d - 1)) by (apply Z.pow_le_mono_r; lia). lia. }
  replace (Z.max (d + 0 - 53) (-1074)) with (d - 53) by lia.
  unfold shl_align. rewrite Z.sub_0_r.
  destruct (d - 53) as [|k|k] eqn:Hk; [|lia|].
  - replace (53 - d) with 0 by lia.
    apply round_aux_exact; [rewrite shl_size; subst d; lia | lia].
  - rewrite pos_iter_nat. replace (Z.to_nat (53 - d)) with (Pos.to_nat k) by lia.
    apply round_aux_exact; [|lia].
    rewrite shl_size. subst d. lia.
Qed.

Lemma binary_round_long (s : bool) (m : positive) :
  53 <= Z.pos (Pos.size m) ->
  binary_round 53 1024 s m 0 = binary_round_aux 53 1024 s (Z.pos m) 0 loc_Exact.
Proof.
  intros Hd. unfold binary_round. rewrite digits2_size, fexp64.
  replace (Z.max (Z.pos (Pos.size m) + 0 - 53) (-1074)) with (Z.pos (Pos.size m) - 53)
    by lia.
  unfold shl_align. rewrite Z.sub_0_r.
  by destruct (Z.pos (Pos.size m) - 53) as [|k|k] eqn:Hk; [| |lia].
Qed.

Lemma binary_round_normal (s : bool) (m : positive) :
  normal (binary_round 53 1024 s m 0).
Proof.
  destruct (Z.lt_ge_cases (Z.pos m) (2 ^ 53)) as [Hs|Hl].
  - rewrite binary_round_small by done. pose proof (size_53 m Hs) as Hd.
    cbn [normal]. rewrite shl_size. split; [lia|]. split; [lia|].
    intros _. exists (Z.pos m). rewrite shl_value. f_equal. f_equal. lia.
  - rewrite binary_round_long by (pose proof (size_54 m Hl); lia).
    pose proof (round_aux_big s m Hl) as H.
    destruct (binary_round_aux 53 1024 s (Z.pos m) 0 loc_Exact) as [| | |s' m' e'];
      try done.
    destruct H as (_ & Hm' & He'). cbn [normal]. split; [|split; [lia|lia]].
    apply size_unique. change (53 - 1) with 52. lia.
Qed.

Lemma toSF_normal (z : Z) : normal (toSF z).
Proof. destruct z; [done | apply binary_round_normal | apply binary_round_normal]. Qed.

Lemma mag_scaled (s : bool) (m : positive) (e : Z) :
  normal (S754_finite s m e) ->
  2 ^ 52 <= Z.pos m < 2 ^ 53 /\ mag m e * 2 ^ 52 = Z.pos m * 2 ^ (e + 52) /\ 0 < mag m e.
Proof.
  intros (Hd & He & Hint). destruct (size_bounds m) as [Blo Bhi]. rewrite Hd in Blo, Bhi.
  change (53 - 1) with 52 in Blo. split; [done|].
  unfold mag. destruct (Z.ltb_spec e 0) as [Hneg|Hpos].
  - destruct (Hint Hneg) as [a Ha]. rewrite Ha, Z.div_mul by lia.
    assert (Hp : 2 ^ 52 = 2 ^ (- e) * 2 ^ (e + 52)).
    { rewrite <- Z.pow_add_r by lia. f_equal. lia. }
    split; [rewrite Hp; ring|].
    assert (0 < 2 ^ (- e)) by (apply Z.pow_pos_nonneg; lia). nia.
  - assert (Hp : 2 ^ (e + 52) = 2 ^ e * 2 ^ 52) by (apply Z.pow_add_r; lia).
    split; [rewrite Hp; ring|].
    assert (0 < 2 ^ e) by (apply Z.pow_pos_nonneg; lia). nia.
Qed.

Lemma round64_signed (s : bool) (a : positive) :
  round64 (if s then - Z.pos a else Z.pos a) = ofSF (binary_round 53 1024 s a 0).
Proof. by destruct s. Qed.

Lemma round_pos_exact (s : bool) (m : positive) :
  Z.pos m < 2 ^ 53 ->
  ofSF (binary_round 53 1024 s m 0) = Fin (if s then - Z.pos m else Z.pos m).
Proof.
  intros Hm. pose proof (binary_round_normal s m) as Hn.
  rewrite binary_round_small in * by done. pose proof (size_53 m Hm) as Hd.
  cbn [ofSF]. f_equal.
  assert (Hmag : mag (Nat.iter (Z.to_nat (53 - Z.pos (Pos.size m))) xO m)
                     (Z.pos (Pos.size m) - 53) = Z.pos m); [|by rewrite Hmag].
  unfold mag. rewrite shl_value, Z2Nat.id by lia.
  destruct (Z.ltb_spec (Z.pos (Pos.size m) - 53) 0).
  - replace (- (Z.pos (Pos.size m) - 53)) with (53 - Z.pos (Pos.size m)) by lia.
    apply Z.div_mul. apply Z.pow_nonzero; lia.
  - replace (53 - Z.pos (Pos.size m)) with 0 by lia.
    replace (Z.pos (Pos.size m) - 53) with 0 by lia. change (2 ^ 0) with 1. lia.
Qed.

Lemma round64_exact (z : Z) : Z.abs z < 2 ^ 53 -> round64 z = Fin z.
Proof.
  intros Hz. destruct z as [|m|m]; [done | |].
  - by apply (round_pos_exact false).
  - by apply (round_pos_exact true).
Qed.

Lemma round_pos_large (s : bool) (m : positive) :
  2 ^ 53 <= Z.pos m -> large s (ofSF (binary_round 53 1024 s m 0)).
Proof.
  intros Hm. rewrite binary_round_long by (pose proof (size_54 m Hm); lia).
  pose proof (round_aux_big s m Hm) as H.
  destruct (binary_round_aux 53 1024 s (Z.pos m) 0 loc_Exact) as [|s'| |s' m' e'];
    try done.
  destruct H as (-> & [Hm' _] & [He' _]). cbn [ofSF large]. unfold mag.
  destruct (Z.ltb_spec e' 0); [lia|].
  assert (Hp : 2 ^ 1 <= 2 ^ e') by (apply Z.pow_le_mono_r; lia).
  change (2 ^ 1) with 2 in Hp.
  assert (Hv : 2 ^ 53 <= Z.pos m' * 2 ^ e').
  { change (2 ^ 53) with (2 ^ 52 * 2). apply Z.mul_le_mono_nonneg; lia. }
  destruct s.
  - split; [lia|]. apply Z.ltb_lt. lia.
  - split; [lia|]. apply Z.ltb_ge. lia.
Qed.

Lemma round64_large (z : Z) : 2 ^ 53 <= Z.abs z -> large (z <? 0) (round64 z).
Proof.
  intros Hz. destruct z as [|m|m].
  - cbn in Hz. lia.
  - by apply (round_pos_large false).
  - by apply (round_pos_large true).
Qed.

(** The product of two normal floats is the rounding of the product of the
    integers they hold. *)
Lemma SFmul_finite (s1 s2 : bool) (m1 m2 : positive) (e1 e2 : Z) (a : positive) :
  normal (S754_finite s1 m1 e1) -> normal (S754_finite s2 m2 e2) ->
  Z.pos a = mag m1 e1 * mag m2 e2 ->
  SFmul 53 1024 (S754_finite s1 m1 e1) (S754_finite s2 m2 e2)
  = binary_round 53 1024 (xorb s1 s2) a 0.
Proof.
  intros N1 N2 Ha.
  destruct (mag_scaled _ _ _ N1) as (B1 & S1 & _).
  destruct (mag_scaled _ _ _ N2) as (B2 & S2 & _).
  destruct N1 as (_ & He1 & _), N2 as (_ & He2 & _).
  cbn [SFmul]. set (M := (m1 * m2)%positive). set (E := e1 + e2).
  assert (HM : Z.pos M = Z.pos m1 * Z.pos m2) by (subst M; lia).
  (* the mantissa of the product has 105 or 106 bits *)
  assert (HdM : 105 <= Z.pos (Pos.size M)).
  { destruct (size_bounds M) as [_ Bhi].
    destruct (Z.le_gt_cases 105 (Z.pos (Pos.size M))); [done|].
    assert (2 ^ Z.pos (Pos.size M) <= 2 ^ 104) by (apply Z.pow_le_mono_r; lia).
    change (2 ^ 104) with (2 ^ 52 * 2 ^ 52) in *. nia. }
  (* M * 2^E = a, with both sides scaled by 2^104 *)
  assert (Hscaled : Z.pos a * 2 ^ 104 = Z.pos M * 2 ^ (E + 104)).
  { rewrite Ha, HM. change (2 ^ 104) with (2 ^ 52 * 2 ^ 52).
    replace (E + 104) with ((e1 + 52) + (e2 + 52)) by (subst E; lia).
    rewrite Z.pow_add_r by lia.
    transitivity ((mag m1 e1 * 2 ^ 52) * (mag m2 e2 * 2 ^ 52)); [ring|].
    rewrite S1, S2. ring. }
  destruct (Z.le_gt_cases 0 E) as [HE|HE].
  - (* a = M * 2^E *)
    assert (Hshift : a = Nat.iter (Z.to_nat E) xO M).
    { apply shl_unique. rewrite Z2Nat.id by done.
      rewrite Z.pow_add_r in Hscaled by lia.
      assert (0 < 2 ^ 104) by done. nia. }
    rewrite binary_round_long by (rewrite Hshift, shl_size; lia).
    rewrite Hshift.
    rewrite <- (round_aux_shift _ M E (Z.to_nat E)) by lia.
    by rewrite Z2Nat.id, Z.sub_diag by done.
  - (* M = a * 2^(-E) *)
    assert (HMa : Z.pos M = Z.pos a * 2 ^ (- E)).
    { assert (Hp : 2 ^ 104 = 2 ^ (E + 104) * 2 ^ (- E)).
      { rewrite <- Z.pow_add_r by (subst E; lia). f_equal. lia. }
      rewrite Hp in Hscaled.
      assert (0 < 2 ^ (E + 104)) by (apply Z.pow_pos_nonneg; subst E; lia). nia. }
    assert (Hshift : M = Nat.iter (Z.to_nat (- E)) xO a).
    { apply shl_unique. by rewrite Z2Nat.id by lia. }
    assert (Hda : Z.pos (Pos.size M) = Z.pos (Pos.size a) - E).
    { rewrite Hshift, shl_size. lia. }
    fold E. destruct (Z.le_gt_cases 53 (Z.pos (Pos.size a))) as [Hlong|Hshort].
    + rewrite binary_round_long by done.
      rewrite <- (round_aux_shift _ a 0 (Z.to_nat (- E))) by lia.
      rewrite <- Hshift. f_equal. lia.
    + assert (Hsmall : Z.pos a < 2 ^ 53).
      { destruct (size_bounds a) as [_ Bhi].
        assert (2 ^ Z.pos (Pos.size a) <= 2 ^ 53) by (apply Z.pow_le_mono_r; lia). lia. }
      rewrite binary_round_small by done.
      set (d := Z.pos (Pos.size a)) in *. set (k := Z.to_nat (53 - d)).
      set (a' := Nat.iter k xO a).
      assert (Hk : Z.of_nat k = 53 - d) by (subst k; lia).
      rewrite <- (round_aux_exact _ a' (d - 53)); [|subst a'; rewrite shl_size; fold d; lia|lia].
      set (j := Z.to_nat (- E - (53 - d))).
      assert (Hj : Z.of_nat j = - E - (53 - d)) by (subst j; lia).
      rewrite <- (round_aux_shift _ a' (d - 53) j);
        [|subst a'; rewrite shl_size; fold d; lia|lia].
      f_equal; [|lia]. f_equal. rewrite Hshift. subst a'.
      rewrite <- Nat.iter_add. f_equal. lia.
Qed.

(** The model's multiplication is the library's: on normal floats,
    [SFmul] gives a normal float, which holds what [dmul] gives. *)
Lemma SFmul_dmul (f1 f2 : spec_float) :
  normal f1 -> normal f2 ->
  normal (SFmul 53 1024 f1 f2) /\
  ofSF (SFmul 53 1024 f1 f2) = dmul (ofSF f1) (ofSF f2).
Proof.
  intros N1 N2.
  destruct f1 as [s1|s1| |s1 m1 e1], f2 as [s2|s2| |s2 m2 e2];
    try (split; [done|]; cbn [SFmul ofSF dmul]; done).
  - split; [done|]. cbn [SFmul ofSF dmul].
    destruct (mag_scaled _ _ _ N2) as (_ & _ & Hpos).
    destruct s2.
    + destruct (Z.eqb_spec (- mag m2 e2) 0); [lia|].
      by destruct (Z.ltb_spec (- mag m2 e2) 0); [|lia].
    + destruct (Z.eqb_spec (mag m2 e2) 0); [lia|].
      by destruct (Z.ltb_spec (mag m2 e2) 0); [lia|].
  - split; [done|]. cbn [SFmul ofSF dmul]. by rewrite Z.mul_0_r.
  - split; [done|]. cbn [SFmul ofSF dmul].
    destruct (mag_scaled _ _ _ N1) as (_ & _ & Hpos).
    destruct s1.
    + destruct (Z.eqb_spec (- mag m1 e1) 0); [lia|].
      destruct (Z.ltb_spec (- mag m1 e1) 0); [|lia]. by destruct s2.
    + destruct (Z.eqb_spec (mag m1 e1) 0); [lia|].
      destruct (Z.ltb_spec (mag m1 e1) 0); [lia|]. by destruct s2.
  - destruct (mag_scaled _ _ _ N1) as (_ & _ & Hp1).
    destruct (mag_scaled _ _ _ N2) as (_ & _ & Hp2).
    assert (Ha : exists a, Z.pos a = mag m1 e1 * mag m2 e2).
    { exists (Z.to_pos (mag m1 e1 * mag m2 e2)). rewrite Z2Pos.id; [done | nia]. }
    destruct Ha as [a Ha].
    rewrite (SFmul_finite s1 s2 m1 m2 e1 e2 a N1 N2 Ha).
    split; [apply binary_round_normal|].
    cbn [ofSF dmul]. rewrite <- round64_signed. f_equal.
    destruct s1, s2; cbn [xorb]; lia.
Qed.

(** ** Products in doubles and in integers *)

Lemma tracks_small (P : Z) : Z.abs P < 2 ^ 53 -> tracks (Fin P) P.
Proof. intros H. unfold tracks. by destruct (Z.ltb_spec (Z.abs P) (2 ^ 53)); [|lia]. Qed.

Lemma tracks_round (z : Z) : tracks (round64 z) z.
Proof.
  unfold tracks. destruct (Z.ltb_spec (Z.abs z) (2 ^ 53)).
  - by apply round64_exact.
  - by apply round64_large.
Qed.

Lemma tracks_mul (d : dbl) (P y : Z) :
  tracks d P -> y <> 0 -> tracks (dmul d (Fin y)) (P * y).
Proof.
  unfold tracks at 1. destruct (Z.ltb_spec (Z.abs P) (2 ^ 53)) as [Hs|Hl].
  - intros -> _. cbn [dmul]. apply tracks_round.
  - intros Hd Hy.
    assert (HPy : 2 ^ 53 <= Z.abs (P * y)) by (rewrite Z.abs_mul; nia).
    unfold tracks. destruct (Z.ltb_spec (Z.abs (P * y)) (2 ^ 53)); [lia|].
    destruct d as [q|s|]; cbn [large dmul] in *; [| |done].
    + destruct Hd as [Hq Hsign].
      assert (Hqy : 2 ^ 53 <= Z.abs (q * y)) by (rewrite Z.abs_mul; nia).
      pose proof (round64_large (q * y) Hqy) as Hr.
      replace (P * y <? 0) with (q * y <? 0); [done|].
      destruct (Z.ltb_spec q 0), (Z.ltb_spec P 0); try discriminate;
        destruct (Z.ltb_spec (q * y) 0), (Z.ltb_spec (P * y) 0); try done; nia.
    + subst s. destruct (Z.eqb_spec y 0); [done|]. f_equal.
      destruct (Z.ltb_spec P 0), (Z.ltb_spec y 0), (Z.ltb_spec (P * y) 0);
        try done; nia.
Qed.

Lemma rem_smaller (t q : Z) : Z.abs t < Z.abs q -> Z.rem t q = t.
Proof.
  intros H. pose proof (Z.rem_bound_abs t q) as Hb.
  assert (Hq : q <> 0) by lia.
  pose proof (Z.quot_rem' t q) as Hqr.
  assert (Hz : Z.quot t q = 0); [|rewrite Hz in Hqr; lia].
  apply Z.quot_small_iff; [done|]. done.
Qed.

Lemma tracks_cmp (d : dbl) (P t : Z) :
  tracks d P -> Z.abs t < 2 ^ 53 -> dcmp d (Fin t) = Some (P ?= t).
Proof.
  unfold tracks. destruct (Z.ltb_spec (Z.abs P) (2 ^ 53)) as [Hs|Hl].
  - by intros ->.
  - intros Hd Ht. destruct d as [q|s|]; cbn [large dcmp] in *; [| |done].
    + destruct Hd as [Hq Hsign]. f_equal.
      destruct (Z.ltb_spec q 0), (Z.ltb_spec P 0); try discriminate;
        destruct (Z.compare_spec q t), (Z.compare_spec P t); try done; lia.
    + subst s. f_equal.
      destruct (Z.ltb_spec P 0), (Z.compare_spec P t); try done; lia.
Qed.

Lemma tracks_rem (d : dbl) (P t : Z) :
  tracks d P -> P <> 0 -> Z.abs t < 2 ^ 53 -> drem (Fin t) d = Fin (Z.rem t P).
Proof.
  unfold tracks. destruct (Z.ltb_spec (Z.abs P) (2 ^ 53)) as [Hs|Hl].
  - intros -> HP _. cbn [drem]. by destruct (Z.eqb_spec P 0).
  - intros Hd _ Ht. rewrite (rem_smaller t P) by lia.
    destruct d as [q|s|]; cbn [large drem] in *; [| |done].
    + destruct Hd as [Hq _]. destruct (Z.eqb_spec q 0); [lia|].
      by rewrite rem_smaller by lia.
    + done.
Qed.

Lemma prodOf_cons (x : Z) (l : list Z) : prodOf (x :: l) = x * prodOf l.
Proof. reflexivity. Qed.

Lemma prodValues_from (vals : list Z) :
  forall (d : dbl) (a : Z), tracks d a ->
  tracks (foldl (fun p v => if isZero v then p else dmul p (ofNum v)) d (map Some vals))
         (a * prodOf (filled vals)).
Proof.
  induction vals as [|v vals IH]; intros d a Hd; cbn [map foldl].
  - unfold filled; cbn. by rewrite Z.mul_1_r.
  - change (isZero (Some v)) with (v =? 0). unfold filled. cbn [List.filter].
    destruct (Z.eqb_spec v 0) as [->|Hv]; cbn [negb].
    + by apply IH.
    + rewrite prodOf_cons, Z.mul_assoc. apply IH. cbn [ofNum]. by apply tracks_mul.
Qed.

Lemma prodValues_values (vals : list Z) :
  tracks (prodValues (map Some vals)) (prodOf (filled vals)).
Proof.
  unfold prodValues. rewrite <- (Z.mul_1_l (prodOf (filled vals))).
  apply prodValues_from. by apply tracks_small.
Qed.

Lemma scaleBy_pow (n : Z) (u : nat) (d : dbl) (P : Z) :
  tracks d P -> n <> 0 -> tracks (scaleBy n u d) (P * n ^ Z.of_nat u).
Proof.
  intros Hd Hn. unfold scaleBy. induction u as [|u IH].
  - cbn. by rewrite Z.mul_1_r.
  - rewrite Nat.iter_succ, Nat2Z.inj_succ, Z.pow_succ_r by lia.
    replace (P * (n * n ^ Z.of_nat u)) with (P * n ^ Z.of_nat u * n) by ring.
    by apply tracks_mul.
Qed.

(** [prodValues] and [scaleBy] are the chains of binary64 multiplications
    of the source: on values that doubles hold exactly, they give what the
    library's [SFmul] gives, step by step. *)
Lemma prodValues_binary64 (vals : list Z) :
  Forall representable vals ->
  prodValues (map Some vals)
  = ofSF (foldl (fun p v => if v =? 0 then p else SFmul 53 1024 p (toSF v))
                (toSF 1) vals).
Proof.
  unfold prodValues. change (Fin 1) with (ofSF (toSF 1)).
  generalize (toSF_normal 1). generalize (toSF 1).
  induction vals as [|v vals IH]; intros f Hf Hrep; cbn [map foldl]; [done|].
  apply Forall_cons in Hrep as [Hv Hrep].
  change (isZero (Some v)) with (v =? 0). destruct (v =? 0); [by apply IH|].
  destruct (SFmul_dmul f (toSF v) Hf (toSF_normal v)) as [Hn Heq].
  cbn [ofNum]. rewrite <- Hv. change (round64 v) with (ofSF (toSF v)).
  rewrite <- Heq. by apply IH.
Qed.

Lemma scaleBy_binary64 (n : Z) (u : nat) (f : spec_float) :
  representable n -> normal f ->
  scaleBy n u (ofSF f) = ofSF (Nat.iter u (fun p => SFmul 53 1024 p (toSF n)) f).
Proof.
  intros Hn Hf. unfold scaleBy.
  assert (H : normal (Nat.iter u (fun p => SFmul 53 1024 p (toSF n)) f) /\
              Nat.iter u (fun m => dmul m (Fin n)) (ofSF f)
              = ofSF (Nat.iter u (fun p => SFmul 53 1024 p (toSF n)) f));
    [|by destruct H].
  induction u as [|u [IHn IH]]; [done|].
  rewrite !Nat.iter_succ, IH.
  destruct (SFmul_dmul _ (toSF n) IHn (toSF_normal n)) as [Hn' Heq].
  split; [done|]. rewrite Heq. f_equal. exact (eq_sym Hn).
Qed.

Lemma prodOf_filled_nonzero (vals : list Z) : prodOf (filled vals) <> 0.
Proof.
  induction vals as [|v vals IH]; simpl; [lia|].
  destruct (Z.eqb_spec v 0); simpl; [done | nia].
Qed.

(** With a target below 2^53 in absolute value, the verdict of the [*]
    branch is the one of exact integer arithmetic. *)
Lemma times_verdict (n t : Z) (vals : list Z) (u : nat) :
  Z.abs t < 2 ^ 53 -> (u <> 0%nat -> n <> 0) ->
  (if dgt (prodValues (map Some vals)) (Fin t)
      || negb (dseq (drem (Fin t) (prodValues (map Some vals))) (Fin 0))
   then false
   else if (u =? 0)%nat then dseq (prodValues (map Some vals)) (Fin t)
   else dge (scaleBy n u (prodValues (map Some vals))) (Fin t))
  = (if (prodOf (filled vals) >? t) || negb (Z.rem t (prodOf (filled vals)) =? 0)
     then false
     else if (u =? 0)%nat then prodOf (filled vals) =? t
     else prodOf (filled vals) * n ^ Z.of_nat u >=? t).
Proof.
  intros Ht Hn.
  pose proof (prodValues_values vals) as Hp.
  pose proof (prodOf_filled_nonzero vals) as Hnz.
  set (P := prodOf (filled vals)) in *. set (d := prodValues (map Some vals)) in *.
  unfold dgt, dseq, dge.
  rewrite (tracks_cmp d P t Hp Ht), (tracks_rem d P t Hp Hnz Ht).
  assert (Eeq : forall a b, match a ?= b with Eq => true | _ => false end = (a =? b)).
  { intros a b. by destruct (Z.compare_spec a b), (Z.eqb_spec a b); try lia. }
  cbn [dcmp]. rewrite Eeq.
  change (match P ?= t with Gt => true | _ => false end) with (P >? t).
  destruct ((P >? t) || negb (Z.rem t P =? 0)); [done|].
  destruct (Nat.eqb_spec u 0) as [Hu|Hu]; [apply Eeq|].
  by rewrite (tracks_cmp _ _ t (scaleBy_pow n u d P Hp (Hn Hu)) Ht).
Qed.

(** C7.  Sum cages.  For a [+] cage and a grid that has the cage's cells,
    with [sum] the total of the filled cell values and [unassigned] the
    number of zero cells: the oracle answers; when [unassigned = 0] it
    accepts iff [sum = target]; otherwise it rejects whenever
    [sum >= target], and it accepts iff [target] lies in
    [sum + unassigned, sum + n * unassigned]. *)
Theorem plus_oracle (n : Z) (g : list (list Z)) (cage : Cage) (vals : list Z) :
  op cage = Plus ->
  mapM (cellOf g) (cells cage) = Some vals ->
  let sum := sumOf (filled vals) in
  let unassigned := Z.of_nat (unassignedIn vals) in
  exists b, cageValidPartial n g cage = Ok b /\
    (unassigned = 0 -> (b = true <-> sum = target cage)) /\
    (unassigned <> 0 ->
       (sum >= target cage -> b = false) /\
       (b = true <->
        sum + unassigned <= target cage <= sum + n * unassigned)).
Proof.
  intros Hop Hvals sum unassigned.
  unfold cageValidPartial. rewrite (readCells_values _ _ _ Hvals); cbn [bind].
  eexists; split; [reflexivity|].
  unfold evalCage. rewrite Hop, countUnassigned_values, sumValues_values.
  fold sum. subst unassigned. simpl nseq; simpl nge; simpl nadd; simpl nle.
  destruct (Nat.eqb_spec (unassignedIn vals) 0) as [E|E].
  - split; [|lia]. intros _. apply Z.eqb_eq.
  - rewrite !Z.geb_leb. split; [lia|]. intros _.
    destruct (Z.leb_spec (target cage) sum).
    + split; [lia|]. split; [discriminate | lia].
    + rewrite andb_true_iff, !Z.leb_le. split; [lia|]. lia.
Qed.

(** C8, as the code has it.  Product cages.  For a [*] cage whose target
    is below 2^53 in absolute value, a board size n >= 1 and a grid that has
    the cage's cells, with [prod] the product of the non-zero cell values
    (1 when there is none) and [unassigned] the number of zero cells: the
    oracle answers; it rejects whenever [prod > target] or
    [target mod prod <> 0]; when [unassigned = 0] it accepts iff
    [prod = target]; otherwise, for a cage the first rule does not reject,
    it accepts iff [prod * n ^ unassigned >= target]. *)
Theorem times_oracle (n : Z) (g : list (list Z)) (cage : Cage) (vals : list Z) :
  op cage = Times ->
  mapM (cellOf g) (cells cage) = Some vals ->
  1 <= n -> Z.abs (target cage) < 2 ^ 53 ->
  let prod := prodOf (filled vals) in
  let unassigned := unassignedIn vals in
  exists b, cageValidPartial n g cage = Ok b /\
    (prod > target cage \/ target cage mod prod <> 0 -> b = false) /\
    (unassigned = 0%nat -> (b = true <-> prod = target cage)) /\
    (unassigned <> 0%nat ->
       ~ (prod > target cage \/ target cage mod prod <> 0) ->
       (b = true <-> prod * n ^ Z.of_nat unassigned >= target cage)).
Proof.
  intros Hop Hvals Hn Ht prod unassigned.
  unfold cageValidPartial. rewrite (readCells_values _ _ _ Hvals); cbn [bind].
  eexists; split; [reflexivity|].
  unfold evalCage. rewrite Hop, countUnassigned_values. cbv beta iota zeta.
  rewrite (times_verdict n (target cage) vals (unassignedIn vals) Ht)
    by (intros _; lia).
  fold prod unassigned.
  pose proof (prodOf_filled_nonzero vals) as Hnz. fold prod in Hnz.
  assert (Hdiv : Z.rem (target cage) prod = 0 <-> target cage mod prod = 0).
  { rewrite Z.rem_divide, Z.mod_divide by done. done. }
  rewrite Z.gtb_ltb, Z.geb_leb.
  destruct (Z.ltb_spec (target cage) prod) as [Hlt|Hle]; simpl.
  { split; [done|]. split.
    - intros _. split; [discriminate | lia].
    - intros _ Hno. exfalso. apply Hno. left. lia. }
  destruct (Z.eqb_spec (Z.rem (target cage) prod) 0) as [Hr|Hr]; simpl.
  - split; [intros [?|Hm]; [lia | tauto] |].
    destruct (Nat.eqb_spec unassigned 0) as [E|E].
    + split; [|done]. intros _. apply Z.eqb_eq.
    + split; [done|]. intros _ _. rewrite Z.leb_le. lia.
  - split; [done|]. split.
    + intros _. split; [discriminate|]. intros Heq.
      exfalso. apply Hr. rewrite <- Heq. by apply Z.rem_same.
    + intros _ Hno. exfalso. apply Hno. right. tauto.
Qed.

(** ** Inside one call of [solveKenKen] *)

Section SolverFacts.

Variable n : Z.
Variable cs : list Cage.
Variable cageOf : gmap (Z * Z) Cage.

Lemma cageValidPartial_total (st : State) (cage : Cage) :
  wf_state n st -> forallb (onGridb n) (cells cage) = true ->
  exists b, cageValidPartial n (grid st) cage = Ok b.
Proof.
  intros Hwf Hon. destruct (readCells_onGrid n st _ Hwf Hon) as [vals Hv].
  unfold cageValidPartial. rewrite (readCells_values _ _ _ Hv). simpl. eauto.
Qed.

Lemma probe_not_fuel (cage : option Cage) (g : list (list Z)) :
  probe n cage g <> OutOfFuel.
Proof.
  destruct cage; simpl; [apply cageValidPartial_not_fuel | discriminate].
Qed.

Lemma recheck_not_fuel (cage : option Cage) (g : list (list Z)) :
  recheck n cage g <> OutOfFuel.
Proof.
  destruct cage; simpl; [apply cageValidPartial_not_fuel | discriminate].
Qed.

(** *** [getCandidates] *)

(** What one run of the candidate loop does on an unassigned cell of a
    well-shaped state: it never runs out of fuel, it throws only if the
    cell's cage has a cell off the board, and otherwise it hands the state
    back as it found it, having added to [out] only values of [vs] that are
    free in the row and the column. *)
Lemma candLoop_good (cage : option Cage) (r c : Z) (st : State) :
  wf_state n st -> isUnassigned st r c ->
  forall (vs out : list Z), Forall (fun v => 1 <= v <= n) vs ->
  match candLoop n cage r c vs st out with
  | OutOfFuel => False
  | TypeError =>
      ~ (forall cg, cage = Some cg -> forallb (onGridb n) (cells cg) = true)
  | Ok (out', st') =>
      st' = st /\
      forall v, v ∈ out' -> v ∈ out \/ (v ∈ vs /\ used st r c v = Ok false)
  end.
Proof.
  intros Hwf Hz.
  assert (Hon : onGrid n (r, c)).
  { apply cellOf_get2 in Hz. by eapply wf_cell_onGrid. }
  induction vs as [|v rest IH]; intros out Hvs; cbn [candLoop].
  - split; [done | auto].
  - apply Forall_cons in Hvs as [Hv Hrest].
    destruct (used_total n st r c v Hwf Hon) as [u Hu]. rewrite Hu; cbn [bind].
    destruct u.
    + specialize (IH out Hrest).
      destruct (candLoop n cage r c rest st out) as [[out' st']| |]; try done.
      destruct IH as [-> IH]. split; [done|].
      intros w Hw. destruct (IH w Hw) as [?|[? ?]]; [by left|].
      right. split; [by apply list_elem_of_further | done].
    + pose proof (probe_not_fuel cage (grid (place st r c v))) as Hnf.
      destruct (probe n cage (grid (place st r c v))) as [ok| |] eqn:Hp;
        cbn [bind]; [| |done].
      * rewrite (place_unplace n st r c v Hwf Hz Hv Hu).
        specialize (IH (if ok then out ++ [v] else out) Hrest).
        destruct (candLoop n cage r c rest st _) as [[out' st']| |]; try done.
        destruct IH as [-> IH]. split; [done|].
        intros w Hw. destruct (IH w Hw) as [Hin|[? ?]].
        -- destruct ok; [|by left].
           apply elem_of_app in Hin as [?|Hin]; [by left|].
           apply list_elem_of_singleton in Hin as ->.
           right. split; [apply list_elem_of_here | done].
        -- right. split; [by apply list_elem_of_further | done].
      * intros Hcage. destruct cage as [cg|]; cbn [probe] in Hp; [|discriminate].
        destruct (cageValidPartial_total (place st r c v) cg) as [b Hb].
        { by apply place_wf. }
        { by apply Hcage. }
        congruence.
Qed.

Lemma seqZ_range : Forall (fun v => 1 <= v <= n) (seqZ 1 n).
Proof. apply Forall_forall. intros v Hv%elem_of_seqZ. lia. Qed.

Lemma getCandidates_good (st : State) (r c : Z) :
  wf_state n st -> isUnassigned st r c ->
  match getCandidates n cageOf st r c with
  | OutOfFuel => False
  | TypeError => ~ indexOnGrid n cageOf
  | Ok (cand, st') =>
      st' = st /\
      Forall (fun v => 1 <= v <= n /\ used st r c v = Ok false) cand
  end.
Proof.
  intros Hwf Hz. unfold getCandidates.
  pose proof (candLoop_good (cageOf !! (r, c)) r c st Hwf Hz _ [] seqZ_range) as H.
  destruct (candLoop n _ r c (seqZ 1 n) st []) as [[cand st']| |]; [|..|done].
  - destruct H as [-> H]. split; [done|]. apply Forall_forall. intros v Hv.
    destruct (H v Hv) as [Hin|[Hin ?]]; [by apply elem_of_nil in Hin|].
    apply elem_of_seqZ in Hin. split; [lia | done].
  - intros Hidx. apply H. intros cg Hcg. by apply (Hidx (r, c)).
Qed.

(** *** [selectNext] *)

Lemma scanOrder_onGrid : Forall (onGrid n) (scanOrder n).
Proof.
  apply Forall_forall. intros [r c]. unfold scanOrder.
  intros (r' & Hin & Hr)%list_elem_of_bind.
  apply list_elem_of_bind in Hin as (c' & Hin & Hc).
  apply list_elem_of_singleton in Hin as [= -> ->].
  apply elem_of_seqZ in Hr, Hc. unfold onGrid; simpl. lia.
Qed.

Lemma scan_good (st : State) :
  wf_state n st ->
  forall (todo : list (Z * Z)) (best : option (Z * Z)) (bc : list Z),
  Forall (onGrid n) todo ->
  match scan n cageOf todo best bc st with
  | OutOfFuel => False
  | TypeError => ~ indexOnGrid n cageOf
  | Ok (pick, st') =>
      st' = st /\
      forall p, pick = Some p ->
                pickOk n cageOf st p \/ (exists r c, best = Some (r, c) /\ p = (r, c, bc))
  end.
Proof.
  intros Hwf.
  induction todo as [|[r c] rest IH]; intros best bc Htodo; cbn [scan].
  - split; [done|]. intros p Hp. right.
    destruct best as [[r c]|]; [|discriminate].
    injection Hp as <-. eauto.
  - apply Forall_cons in Htodo as [Hrc Hrest].
    destruct (wf_cell n st r c Hwf Hrc) as [x Hx].
    unfold assigned. rewrite Hx; cbn [bind].
    destruct (Z.eqb_spec x 0) as [->|Hx0]; cbn [negb]; [|by apply IH].
    assert (Hz : isUnassigned st r c) by (by apply cellOf_get2).
    pose proof (getCandidates_good st r c Hwf Hz) as Hg.
    destruct (getCandidates n cageOf st r c) as [[cand st1]| |] eqn:Eg;
      cbn [bind]; [|done|done].
    destruct Hg as [-> Hcand].
    destruct (Nat.eqb_spec (length cand) 0) as [E0|E0]; [done|].
    assert (Hpick : pickOk n cageOf st (r, c, cand)).
    { repeat split; [done | | done]. intros ->. by apply E0. }
    destruct (noBest best || (length cand <? length bc)%nat).
    + destruct (length cand =? 1)%nat.
      * split; [done|]. intros p [= <-]. by left.
      * specialize (IH (Some (r, c)) cand Hrest).
        destruct (scan n cageOf rest _ cand st) as [[pick st']| |]; try done.
        destruct IH as [-> IH]. split; [done|]. intros p Hp.
        destruct (IH p Hp) as [?|(r' & c' & [= <- <-] & ->)]; by left.
    + by apply IH.
Qed.

Lemma selectNext_good (st : State) :
  wf_state n st ->
  match selectNext n cageOf st with
  | OutOfFuel => False
  | TypeError => ~ indexOnGrid n cageOf
  | Ok (pick, st') => st' = st /\ forall p, pick = Some p -> pickOk n cageOf st p
  end.
Proof.
  intros Hwf. unfold selectNext.
  pose proof (scan_good st Hwf (scanOrder n) None [] scanOrder_onGrid) as H.
  destruct (scan n cageOf (scanOrder n) None [] st) as [[pick st']| |]; try done.
  destruct H as [-> H]. split; [done|]. intros p Hp.
  destruct (H p Hp) as [?|(r & c & ? & _)]; [done | discriminate].
Qed.

End SolverFacts.

(** ** The search *)

Lemma extends_refl (g : list (list Z)) : extends g g.
Proof. by intros rc x H _. Qed.

Lemma extends_trans (g1 g2 g3 : list (list Z)) :
  extends g1 g2 -> extends g2 g3 -> extends g1 g3.
Proof. intros H12 H23 rc x H Hx. apply H23; [|done]. by apply H12. Qed.

Lemma extends_place (st : State) (r c v : Z) :
  isUnassigned st r c -> extends (grid st) (grid (place st r c v)).
Proof.
  intros Hz [r' c'] x Hx Hx0. unfold place; cbn [grid].
  destruct (decide ((r, c) = (r', c'))) as [[= <- <-]|Hne].
  - unfold isUnassigned in Hz. congruence.
  - apply cellOf_get2. rewrite get2_set2_ne by done. by apply cellOf_get2.
Qed.

Section SearchFacts.

Variable n : Z.
Variable cs : list Cage.
Variable cageOf : gmap (Z * Z) Cage.

Lemma allCagesValid_not_fuel (todo : list Cage) (g : list (list Z)) :
  allCagesValid n todo g <> OutOfFuel.
Proof.
  induction todo as [|cage rest IH]; cbn [allCagesValid]; [discriminate|].
  pose proof (cageValidPartial_not_fuel n g cage).
  destruct (cageValidPartial n g cage) as [[]| |]; cbn [bind]; done.
Qed.

Lemma allCagesValid_total (todo : list Cage) (st : State) :
  wf_state n st ->
  Forall (fun cage => forallb (onGridb n) (cells cage) = true) todo ->
  exists b, allCagesValid n todo (grid st) = Ok b.
Proof.
  intros Hwf. induction 1 as [|cage rest Hc _ IH]; cbn [allCagesValid]; [eauto|].
  destruct (cageValidPartial_total n st cage Hwf Hc) as [b ->]; cbn [bind].
  destruct b; eauto.
Qed.

(** When the final check passes, the oracle accepted every cage. *)
Lemma allCagesValid_true (todo : list Cage) (g : list (list Z)) (cage : Cage) :
  allCagesValid n todo g = Ok true -> cage ∈ todo ->
  cageValidPartial n g cage = Ok true.
Proof.
  induction todo as [|c0 rest IH]; cbn [allCagesValid]; intros H Hin.
  - by apply elem_of_nil in Hin.
  - apply bind_Ok in H as (ok & Hok & H). destruct ok; [|discriminate].
    apply elem_of_cons in Hin as [->|Hin]; [done | by apply IH].
Qed.

(** The loop over the candidates of a picked cell, for any recursive call
    that is itself [good] from the states the loop starts it in. *)
Lemma tryCands_good (rec : State -> res (bool * State)) (r c : Z) (st : State) :
  wf_state n st -> isUnassigned st r c ->
  (forall v, 1 <= v <= n -> used st r c v = Ok false ->
             good n cs cageOf (place st r c v) (rec (place st r c v))) ->
  forall cand : list Z,
  Forall (fun v => 1 <= v <= n /\ used st r c v = Ok false) cand ->
  good n cs cageOf st (tryCands n rec (cageOf !! (r, c)) r c cand st).
Proof.
  intros Hwf Hz Hrec.
  assert (Hon : onGrid n (r, c)).
  { apply cellOf_get2 in Hz. by eapply wf_cell_onGrid. }
  induction cand as [|v rest IH]; intros Hcand; cbn [tryCands].
  - split; [done|]. split; [done | discriminate].
  - apply Forall_cons in Hcand as [[Hv Hu] Hrest].
    pose proof (place_unplace n st r c v Hwf Hz Hv Hu) as Hundo.
    pose proof (recheck_not_fuel n (cageOf !! (r, c)) (grid (place st r c v))) as Hnf.
    destruct (recheck n (cageOf !! (r, c)) (grid (place st r c v)))
      as [ok| |] eqn:Hre; cbn [bind]; [| |done].
    + destruct ok; [|rewrite Hundo; by apply IH].
      specialize (Hrec v Hv Hu).
      destruct (rec (place st r c v)) as [[solved st2]| |]; cbn [bind]; try done.
      destruct Hrec as (Hwf2 & Hfalse & Htrue). destruct solved.
      * destruct (Htrue eq_refl) as [Hall Hext].
        split; [done|]. split; [discriminate|]. intros _. split; [done|].
        eapply extends_trans; [by apply extends_place | done].
      * rewrite (Hfalse eq_refl), Hundo. by apply IH.
    + intros (Hcs & Hidx & Hcov).
      destruct (Hcov (r, c) Hon) as [cg Hcg].
      rewrite Hcg in Hre; cbn [recheck] in Hre.
      destruct (cageValidPartial_total n (place st r c v) cg) as [b Hb].
      { by apply place_wf. }
      { by apply (Hidx (r, c)). }
      congruence.
Qed.

(** The search proper: with more fuel than unassigned cells, a call of
    [backtrack] on a well-shaped state is [good]. *)
Lemma backtrack_good (fuel : nat) :
  forall st : State,
  wf_state n st -> (zeros (grid st) < fuel)%nat ->
  good n cs cageOf st (backtrack n cs cageOf fuel st).
Proof.
  induction fuel as [|fuel IH]; intros st Hwf Hfuel; [lia|].
  cbn [backtrack].
  pose proof (selectNext_good n cageOf st Hwf) as Hsel.
  destruct (selectNext n cageOf st) as [[pick st1]| |]; cbn [bind]; [|..|done].
  - destruct Hsel as [-> Hpick]. destruct pick as [[[r c] cand]|].
    + destruct (Hpick _ eq_refl) as (Hz & Hne & Hget).
      pose proof (getCandidates_good n cageOf st r c Hwf Hz) as Hg.
      rewrite Hget in Hg. destruct Hg as [_ Hcand].
      apply tryCands_good; [done | done | | done].
      intros v Hv Hu. apply IH; [by apply place_wf|].
      assert (Hv0 : v <> 0) by lia.
      apply cellOf_get2 in Hz.
      pose proof (zeros_set2 (grid st) r c v Hz Hv0) as Hzs.
      unfold place; cbn [grid]. lia.
    + pose proof (allCagesValid_not_fuel cs (grid st)) as Hnf.
      destruct (allCagesValid n cs (grid st)) as [ok| |] eqn:Hall;
        cbn [bind]; [| |done].
      * split; [done|]. split; [done|].
        intros ->. split; [done | apply extends_refl].
      * intros (Hcs & _). destruct (allCagesValid_total cs st Hwf Hcs). congruence.
  - intros (_ & Hidx & _). by apply Hsel.
Qed.

(** More fuel does not change a run that ended. *)
Lemma tryCands_mono (rec rec' : State -> res (bool * State)) :
  (forall st, finished (rec st) -> rec' st = rec st) ->
  forall (cage : option Cage) (r c : Z) (cand : list Z) (st : State),
  finished (tryCands n rec cage r c cand st) ->
  tryCands n rec' cage r c cand st = tryCands n rec cage r c cand st.
Proof.
  intros Hrec cage r c. induction cand as [|v rest IH]; intros st; cbn [tryCands];
    [done|].
  destruct (recheck n cage (grid (place st r c v))) as [[]| |]; cbn [bind];
    try done; [|by apply IH].
  intros Hfin. rewrite Hrec.
  - destruct (rec (place st r c v)) as [[[] st2]| |]; cbn [bind] in *; try done.
    by apply IH.
  - intros E. rewrite E in Hfin. by apply Hfin.
Qed.

Lemma backtrack_mono (fuel : nat) :
  forall (st : State) (extra : nat),
  finished (backtrack n cs cageOf fuel st) ->
  backtrack n cs cageOf (fuel + extra) st = backtrack n cs cageOf fuel st.
Proof.
  induction fuel as [|fuel IH]; intros st extra Hfin; [by destruct Hfin|].
  cbn [backtrack Nat.add] in *.
  destruct (selectNext n cageOf st) as [[[[[r c] cand]|] st1]| |]; cbn [bind] in *;
    try done.
  apply tryCands_mono; [|done]. intros st' Hst'. by apply IH.
Qed.

End SearchFacts.

(** ** Pre-seeding *)

Lemma place_nonzero (st : State) (r c v : Z) (rc : Z * Z) :
  v <> 0 -> nonzeroAt (grid st) rc -> nonzeroAt (grid (place st r c v)) rc.
Proof.
  intros Hv (x & Hx & Hx0). destruct rc as [r' c']. unfold place; cbn [grid].
  destruct (decide ((r, c) = (r', c'))) as [[= <- <-]|Hne].
  - exists v. split; [|done]. apply cellOf_get2.
    apply cellOf_get2 in Hx. by eapply get2_set2_eq.
  - exists x. split; [|done]. apply cellOf_get2.
    rewrite get2_set2_ne by done. by apply cellOf_get2.
Qed.

Lemma place_sets (n : Z) (st : State) (r c v : Z) :
  wf_state n st -> 1 <= v <= n -> used st r c v = Ok false ->
  nonzeroAt (grid (place st r c v)) (r, c).
Proof.
  intros Hwf Hv Hu. destruct (used_false n st r c v Hwf Hv Hu) as (_ & _ & Hr & Hc).
  destruct (wf_cell n st r c Hwf) as [x Hx]; [by split|].
  exists v. split; [|lia]. apply cellOf_get2. unfold place; cbn [grid].
  by eapply get2_set2_eq.
Qed.

Lemma single_test (isEq single : bool) : (isEq || single) && single = single.
Proof. by destruct isEq, single. Qed.

Section PreseedFacts.

Variable n : Z.

Lemma preseed_not_fuel (todo : list Cage) :
  forall st, preseed n todo st <> OutOfFuel.
Proof.
  induction todo as [|cage rest IH]; intros st; cbn [preseed]; [discriminate|].
  rewrite single_test. destruct (length (cells cage) =? 1)%nat; [|apply IH].
  destruct (cells cage) as [|[r c] ?]; [discriminate|].
  destruct ((target cage <? 1) || (target cage >? n)); [discriminate|].
  pose proof (used_not_fuel st r c (target cage)).
  destruct (used st r c (target cage)) as [[]| |]; cbn [bind]; try done;
    apply IH.
Qed.

(** Pre-seeding keeps the shape of the state and the cells already
    assigned, and it leaves the cell of every single-cell cage assigned. *)
Lemma preseed_keeps (todo : list Cage) :
  forall st st', wf_state n st -> preseed n todo st = Ok (Some st') ->
  wf_state n st' /\
  (forall rc, nonzeroAt (grid st) rc -> nonzeroAt (grid st') rc) /\
  (forall cage r c, cage ∈ todo -> cells cage = [(r, c)] ->
                    nonzeroAt (grid st') (r, c)).
Proof.
  induction todo as [|cage rest IH]; intros st st' Hwf; cbn [preseed].
  - intros [= <-]. split; [done|]. split; [done|].
    intros cage r c Hin. by apply elem_of_nil in Hin.
  - rewrite single_test.
    destruct (Nat.eqb_spec (length (cells cage)) 1) as [Hlen|Hlen].
    + destruct (cells cage) as [|[r c] tl] eqn:Hcells; [discriminate|].
      destruct tl; [|discriminate].
      destruct (Z.ltb_spec (target cage) 1) as [|Hlo]; [discriminate|].
      rewrite Z.gtb_ltb.
      destruct (Z.ltb_spec n (target cage)) as [|Hhi]; [discriminate|].
      cbn [orb]. intros H. apply bind_Ok in H as (u & Hu & H).
      destruct u; [discriminate|].
      assert (Hv : 1 <= target cage <= n) by lia.
      destruct (IH _ _ (place_wf n st r c _ Hwf) H) as (Hwf' & Hkeep & Hsingle).
      split; [done|]. split.
      * intros rc Hrc. apply Hkeep. apply place_nonzero; [lia | done].
      * intros cage' r' c' Hin Hc'.
        apply elem_of_cons in Hin as [->|Hin]; [|by eapply Hsingle].
        rewrite Hcells in Hc'. injection Hc' as <- <-.
        apply Hkeep. by eapply place_sets.
    + intros H. destruct (IH _ _ Hwf H) as (Hwf' & Hkeep & Hsingle).
      split; [done|]. split; [done|].
      intros cage' r' c' Hin Hc'.
      apply elem_of_cons in Hin as [->|Hin]; [|by eapply Hsingle].
      rewrite Hc' in Hlen. by destruct Hlen.
Qed.

(** With the cages on the board, pre-seeding does not throw. *)
Lemma preseed_total (todo : list Cage) :
  forall st, wf_state n st ->
  Forall (fun cage => forallb (onGridb n) (cells cage) = true) todo ->
  exists o, preseed n todo st = Ok o.
Proof.
  induction todo as [|cage rest IH]; intros st Hwf Hon; cbn [preseed]; [eauto|].
  apply Forall_cons in Hon as [Hc Hrest]. rewrite single_test.
  destruct (Nat.eqb_spec (length (cells cage)) 1) as [Hlen|_]; [|by apply IH].
  destruct (cells cage) as [|[r c] tl]; [discriminate|].
  destruct ((target cage <? 1) || (target cage >? n)); [eauto|].
  destruct (used_total n st r c (target cage) Hwf) as [u Hu].
  { cbn [forallb] in Hc. apply andb_true_iff in Hc as [Hc _].
    unfold onGridb in Hc; simpl in Hc. unfold onGrid; simpl. lia. }
  rewrite Hu; cbn [bind]. destruct u; [eauto|].
  apply IH; [by apply place_wf | done].
Qed.

(** A single-cell cage whose target is not in 1..n stops pre-seeding:
    the search is not started. *)
Lemma preseed_bad_target (todo : list Cage) (cage : Cage) :
  cage ∈ todo -> length (cells cage) = 1%nat ->
  (target cage < 1 \/ target cage > n) ->
  forall st st', preseed n todo st <> Ok (Some st').
Proof.
  intros Hin Hlen Hbad.
  induction todo as [|c0 rest IH]; intros st st'; cbn [preseed].
  - by apply elem_of_nil in Hin.
  - rewrite single_test. apply elem_of_cons in Hin as [<-|Hin].
    + rewrite Hlen; cbn [Nat.eqb].
      destruct (cells cage) as [|[r c] tl]; [discriminate|].
      replace ((target cage <? 1) || (target cage >? n)) with true; [discriminate|].
      symmetry. apply orb_true_iff. rewrite Z.ltb_lt, Z.gtb_ltb, Z.ltb_lt. lia.
    + destruct (length (cells c0) =? 1)%nat; [|by apply IH].
      destruct (cells c0) as [|[r c] tl]; [discriminate|].
      destruct ((target c0 <? 1) || (target c0 >? n)); [discriminate|].
      destruct (used st r c (target c0)) as [[]| |]; cbn [bind]; try discriminate.
      by apply IH.
Qed.

Lemma marked_used (st : State) (r c v : Z) :
  marked st r c v -> used st r c v <> Ok false.
Proof.
  intros [H|H]; unfold used.
  - by rewrite H.
  - destruct (get2 (rowUsed st) r v) as [a| |]; cbn [bind]; try discriminate.
    destruct (truthy a); [discriminate|]. by rewrite H.
Qed.

Lemma marked_place (st : State) (r c v r' c' v' : Z) :
  marked st r c v -> marked (place st r' c' v') r c v.
Proof.
  unfold marked, place; cbn [rowUsed colUsed]. intros [H|H]; [left | right].
  - destruct (decide ((r', v') = (r, v))) as [[= -> ->]|Hne].
    + by eapply get2_set2_eq.
    + by rewrite get2_set2_ne.
  - destruct (decide ((c', v') = (c, v))) as [[= -> ->]|Hne].
    + by eapply get2_set2_eq.
    + by rewrite get2_set2_ne.
Qed.

(** Once a mark is set, a later single-cell cage with that value in that
    row or column stops pre-seeding. *)
Lemma preseed_marked (todo : list Cage) (cage : Cage) (r c : Z) :
  cage ∈ todo -> cells cage = [(r, c)] ->
  forall st st', marked st r c (target cage) -> preseed n todo st <> Ok (Some st').
Proof.
  intros Hin Hcells.
  induction todo as [|c0 rest IH]; intros st st' Hm; cbn [preseed].
  - by apply elem_of_nil in Hin.
  - rewrite single_test. apply elem_of_cons in Hin as [<-|Hin].
    + rewrite Hcells; cbn [length Nat.eqb].
      destruct ((target cage <? 1) || (target cage >? n)); [discriminate|].
      pose proof (marked_used _ _ _ _ Hm).
      destruct (used st r c (target cage)) as [[]| |]; cbn [bind]; done.
    + destruct (length (cells c0) =? 1)%nat; [|by apply IH].
      destruct (cells c0) as [|[r0 c0'] tl]; [discriminate|].
      destruct ((target c0 <? 1) || (target c0 >? n)); [discriminate|].
      destruct (used st r0 c0' (target c0)) as [[]| |]; cbn [bind]; try discriminate.
      apply IH; [done|]. by apply marked_place.
Qed.

(** Two single-cell cages with one target in one row or one column: the
    second one is never placed. *)
Lemma preseed_duplicate (l1 l2 : list Cage) (a b : Cage) (r c r' c' : Z) :
  cells a = [(r, c)] -> cells b = [(r', c')] -> b ∈ l2 ->
  target a = target b -> (r = r' \/ c = c') ->
  forall st st', wf_state n st -> preseed n (l1 ++ a :: l2) st <> Ok (Some st').
Proof.
  intros Ha Hb Hin Ht Hrc.
  induction l1 as [|c0 rest IH]; intros st st' Hwf; cbn [preseed app].
  - rewrite single_test, Ha; cbn [length Nat.eqb].
    destruct (Z.ltb_spec (target a) 1); [discriminate|].
    rewrite Z.gtb_ltb. destruct (Z.ltb_spec n (target a)); [discriminate|].
    cbn [orb]. destruct (used st r c (target a)) as [[]| |] eqn:Hu; cbn [bind];
      try discriminate.
    assert (Hv : 1 <= target a <= n) by lia.
    destruct (place_marks n st r c _ Hwf Hv Hu) as [Hrow Hcol].
    apply (preseed_marked l2 b r' c' Hin Hb). rewrite <- Ht.
    destruct Hrc as [<-|<-]; [by left | by right].
  - rewrite single_test. destruct (length (cells c0) =? 1)%nat; [|by apply IH].
    destruct (cells c0) as [|[r0 c0'] tl]; [discriminate|].
    destruct ((target c0 <? 1) || (target c0 >? n)); [discriminate|].
    destruct (used st r0 c0' (target c0)) as [[]| |]; cbn [bind]; try discriminate.
    apply IH. by apply place_wf.
Qed.

End PreseedFacts.

(** ** The cell -> cage Map *)

Lemma register_cells (cl : list (Z * Z)) (cage : Cage) :
  forall (m : gmap (Z * Z) Cage) (rc : Z * Z),
  foldl (fun acc k => <[k := cage]> acc) m cl !! rc =
  if bool_decide (rc ∈ cl) then Some cage else m !! rc.
Proof.
  induction cl as [|k rest IH]; intros m rc; cbn [foldl].
  - rewrite bool_decide_eq_false_2; [done | apply not_elem_of_nil].
  - rewrite IH. destruct (decide (rc ∈ rest)) as [Hin|Hnin].
    + rewrite !bool_decide_eq_true_2; [done | by apply list_elem_of_further | done].
    + rewrite (bool_decide_eq_false_2 _ Hnin).
      destruct (decide (rc = k)) as [->|Hne].
      * rewrite lookup_insert_eq, bool_decide_eq_true_2;
          [done | apply list_elem_of_here].
      * rewrite lookup_insert_ne by done. rewrite bool_decide_eq_false_2; [done|].
        intros [?|?]%elem_of_cons; done.
Qed.

Lemma register_lookup (m : gmap (Z * Z) Cage) (cage : Cage) (rc : Z * Z) :
  register m cage !! rc = if bool_decide (rc ∈ cells cage) then Some cage else m !! rc.
Proof. apply register_cells. Qed.

(** Every entry of the Map is a cage of the puzzle that has the cell. *)
Lemma cageOf_sound (cl : list Cage) :
  forall (m : gmap (Z * Z) Cage) (rc : Z * Z) (cage : Cage),
  foldl register m cl !! rc = Some cage ->
  m !! rc = Some cage \/ (cage ∈ cl /\ rc ∈ cells cage).
Proof.
  induction cl as [|c0 rest IH]; intros m rc cage; cbn [foldl]; [by left|].
  intros [H|[Hin Hrc]]%IH.
  - rewrite register_lookup in H. case_bool_decide as Hd; [|by left].
    injection H as <-. right. split; [apply list_elem_of_here | done].
  - right. split; [by apply list_elem_of_further | done].
Qed.

(** Every cell of a cage has an entry. *)
Lemma cageOf_complete (cl : list Cage) :
  forall (m : gmap (Z * Z) Cage) (rc : Z * Z),
  is_Some (m !! rc) \/ (exists cage, cage ∈ cl /\ rc ∈ cells cage) ->
  is_Some (foldl register m cl !! rc).
Proof.
  induction cl as [|c0 rest IH]; intros m rc; cbn [foldl].
  - intros [H|(cage & Hin & _)]; [done | by apply elem_of_nil in Hin].
  - intros H. apply IH. rewrite register_lookup.
    destruct H as [H|(cage & Hin & Hrc)].
    + left. by case_bool_decide.
    + apply elem_of_cons in Hin as [->|Hin].
      * left. by rewrite bool_decide_eq_true_2.
      * right. eauto.
Qed.

Lemma caged_elem (cl : list Cage) (rc : Z * Z) :
  caged cl rc = true -> exists cage, cage ∈ cl /\ rc ∈ cells cage.
Proof.
  unfold caged. intros (cage & Hin & H)%existsb_exists.
  apply existsb_exists in H as (rc' & Hin' & Heq). exists cage.
  split; [by apply list_elem_of_In|].
  unfold cellEqb in Heq. apply andb_true_iff in Heq as [H1%Z.eqb_eq H2%Z.eqb_eq].
  destruct rc, rc'; simpl in *; subst. by apply list_elem_of_In.
Qed.

Lemma onGrid_scanOrder (n : Z) (rc : Z * Z) : onGrid n rc -> rc ∈ scanOrder n.
Proof.
  destruct rc as [r c]. intros [Hr Hc]; simpl in *. unfold scanOrder.
  apply list_elem_of_bind. exists r. split; [|apply elem_of_seqZ; lia].
  apply list_elem_of_bind. exists c. split; [|apply elem_of_seqZ; lia].
  apply list_elem_of_here.
Qed.

(** The two checkable conditions on a puzzle that rule out a throw. *)
Lemma noThrow_intro (n : Z) (cl : list Cage) :
  cagesOnGrid n cl = true -> allCaged n cl = true ->
  noThrow n cl (buildCageOf cl).
Proof.
  intros Hon Hcov. unfold cagesOnGrid in Hon. rewrite forallb_forall in Hon.
  assert (Hcl : Forall (fun cage => forallb (onGridb n) (cells cage) = true) cl).
  { apply Forall_forall. intros cage Hin. apply Hon. by apply list_elem_of_In. }
  split; [done|]. split.
  - intros rc cage H. apply cageOf_sound in H as [H|[Hin _]].
    + by rewrite lookup_empty in H.
    + rewrite Forall_forall in Hcl. by apply Hcl.
  - intros rc Hrc. apply cageOf_complete. right. apply caged_elem.
    unfold allCaged in Hcov. rewrite forallb_forall in Hcov. apply Hcov.
    apply list_elem_of_In. by apply onGrid_scanOrder.
Qed.

(** ** Whole runs *)

(** The fuel that [solveKenKen] supplies is enough: the run ends, by a
    result or by a throw. *)
Lemma solveKenKen_finished (p : Puzzle) : finished (solveKenKen p).
Proof.
  unfold finished, solveKenKen, solveWith. destruct (size p <? 1); [discriminate|].
  pose proof (preseed_not_fuel (size p) (cages p) (init (size p))) as Hnf.
  destruct (preseed (size p) (cages p) (init (size p))) as [[st|]| |] eqn:Hpre;
    cbn [bind]; try done.
  destruct (preseed_keeps _ _ _ _ (init_wf (size p)) Hpre) as (Hwf & _).
  pose proof (backtrack_good (size p) (cages p) (buildCageOf (cages p))
                (fuelFor (size p)) st Hwf) as Hgood.
  pose proof (zeros_bound _ _ Hwf).
  destruct (backtrack _ _ _ _ st) as [[b st']| |]; cbn [bind]; try done.
  intros _. destruct Hgood. unfold fuelFor. lia.
Qed.

(** On a puzzle whose cages lie on the board and cover it, the run returns. *)
Lemma solveKenKen_returns (p : Puzzle) :
  cagesOnGrid (size p) (cages p) = true -> allCaged (size p) (cages p) = true ->
  exists r, solveKenKen p = Ok r.
Proof.
  intros Hon Hcov. pose proof (noThrow_intro _ _ Hon Hcov) as Hno.
  unfold solveKenKen, solveWith. destruct (size p <? 1); [eauto|].
  destruct (preseed_total (size p) (cages p) (init (size p)) (init_wf _))
    as [[st|] Hpre]; [by apply Hno | |]; rewrite Hpre; cbn [bind]; [|eauto].
  destruct (preseed_keeps _ _ _ _ (init_wf (size p)) Hpre) as (Hwf & _).
  pose proof (backtrack_good (size p) (cages p) (buildCageOf (cages p))
                (fuelFor (size p)) st Hwf) as Hgood.
  pose proof (zeros_bound _ _ Hwf).
  destruct (backtrack _ _ _ _ st) as [[b st']| |]; cbn [bind]; [eauto|..].
  - exfalso. apply Hgood; [unfold fuelFor; lia | done].
  - destruct Hgood. unfold fuelFor. lia.
Qed.

(** ** The size guard *)

(** C4, as the code has it.  The guard of [solveKenKen] is [n < 1]: for
    every puzzle of size below 1 the answer is no-solution, whatever the
    fuel, so that no search is attempted. *)
Theorem size_guard (p : Puzzle) :
  size p < 1 -> forall fuel, solveWith fuel p = Ok None.
Proof.
  intros H fuel. unfold solveWith. destruct (Z.ltb_spec (size p) 1); [done | lia].
Qed.

Lemma size_guard_witness :
  0 < 1 /\ solveWith 0 (mkPuzzle 0 [eqCage 0 0 1]) = Ok None.
Proof. split; [lia|]. apply (size_guard (mkPuzzle 0 [eqCage 0 0 1])). simpl. lia. Defined.

(** C4, as stated, fails: a puzzle of size 1 passes the guard, is searched,
    and here is solved. *)
Lemma size_one_is_solved : solveKenKen unitPuzzle = Ok (Some [[1]]).
Proof. vm_compute. reflexivity. Qed.

(** ** Pre-seeding decides *)

(** C6.  A puzzle that has a single-cell cage with a target outside 1..n,
    or two single-cell cages with equal targets in one row or one column,
    never gets past pre-seeding; with its cages on the board, pre-seeding
    returns no-solution, and so does [solveKenKen] whatever the fuel, the
    search not being started. *)
Theorem preseed_rejects (p : Puzzle) :
  (exists cage, cage ∈ cages p /\ length (cells cage) = 1%nat /\
                (target cage < 1 \/ target cage > size p)) \/
  (exists l1 l2 a b r c r' c',
      cages p = l1 ++ a :: l2 /\ b ∈ l2 /\
      cells a = [(r, c)] /\ cells b = [(r', c')] /\
      target a = target b /\ (r = r' \/ c = c')) ->
  (forall st, preseed (size p) (cages p) (init (size p)) <> Ok (Some st)) /\
  (cagesOnGrid (size p) (cages p) = true ->
   preseed (size p) (cages p) (init (size p)) = Ok None /\
   forall fuel, solveWith fuel p = Ok None).
Proof.
  intros Hbad.
  assert (Hno : forall st, preseed (size p) (cages p) (init (size p)) <> Ok (Some st)).
  { intros st. destruct Hbad as [(cage & Hin & Hlen & Ht)|
                                 (l1 & l2 & a & b & r & c & r' & c' &
                                  Hsplit & Hin & Ha & Hb & Ht & Hrc)].
    - by apply (preseed_bad_target (size p) (cages p) cage).
    - rewrite Hsplit.
      apply (preseed_duplicate (size p) l1 l2 a b r c r' c'); try done.
      apply init_wf. }
  split; [done|]. intros Hon.
  assert (Hpre : preseed (size p) (cages p) (init (size p)) = Ok None).
  { destruct (preseed_total (size p) (cages p) (init (size p)) (init_wf _))
      as [[st|] Hpre]; [| by destruct (Hno st) | done].
    unfold cagesOnGrid in Hon. rewrite forallb_forall in Hon.
    apply Forall_forall. intros cage Hin. apply Hon. by apply list_elem_of_In. }
  split; [done|]. intros fuel. unfold solveWith.
  destruct (size p <? 1); [done|]. by rewrite Hpre.
Qed.

Lemma preseed_rejects_witness :
  solveKenKen (mkPuzzle 4 [eqCage 0 0 5]) = Ok None /\
  solveKenKen (mkPuzzle 2 [eqCage 0 0 1; eqCage 1 1 2; eqCage 0 1 1]) = Ok None.
Proof.
  split.
  - apply (preseed_rejects (mkPuzzle 4 [eqCage 0 0 5])); [|reflexivity].
    left. exists (eqCage 0 0 5). split; [apply list_elem_of_here|].
    split; [reflexivity | right; simpl; lia].
  - apply (preseed_rejects (mkPuzzle 2 [eqCage 0 0 1; eqCage 1 1 2; eqCage 0 1 1]));
      [|reflexivity].
    right. exists [], [eqCage 1 1 2; eqCage 0 1 1], (eqCage 0 0 1), (eqCage 0 1 1),
                  0, 0, 0, 1.
    split; [reflexivity|]. split; [apply list_elem_of_further, list_elem_of_here|].
    split; [reflexivity|]. split; [reflexivity|]. split; [reflexivity | by left].
Defined.

(** ** One-cell difference and quotient cages *)

Lemma lonely_cells (cage : Cage) :
  lonelyBinary cage = true ->
  exists r c, cells cage = [(r, c)] /\ (op cage = Minus \/ op cage = Divide).
Proof.
  unfold lonelyBinary. intros [Hlen Hop]%andb_true_iff.
  destruct (cells cage) as [|[r c] [|? ?]]; try discriminate.
  exists r, c. split; [done|]. destruct (op cage); try discriminate; auto.
Qed.

(** Once its cell is assigned, the oracle rejects such a cage: the value
    list has one element, and the formula reads [values[1]]. *)
Lemma lonely_rejected (n : Z) (g : list (list Z)) (cage : Cage) (r c : Z) :
  cells cage = [(r, c)] -> (op cage = Minus \/ op cage = Divide) ->
  nonzeroAt g (r, c) -> cageValidPartial n g cage = Ok false.
Proof.
  intros Hcells Hop (x & Hx%cellOf_get2 & Hx0).
  unfold cageValidPartial. rewrite Hcells; cbn [readCells]. rewrite Hx; cbn [bind].
  f_equal. unfold evalCage, countUnassigned. rewrite Hcells.
  cbn [List.filter]. change (isZero (Some x)) with (x =? 0).
  destruct (Z.eqb_spec x 0); [done|]. by destruct Hop as [-> | ->].
Qed.

Lemma solveWith_solved (fuel : nat) (p : Puzzle) (g : list (list Z)) :
  solveWith fuel p = Ok (Some g) ->
  exists st st',
    preseed (size p) (cages p) (init (size p)) = Ok (Some st) /\
    backtrack (size p) (cages p) (buildCageOf (cages p)) fuel st = Ok (true, st') /\
    g = grid st'.
Proof.
  unfold solveWith. destruct (size p <? 1); [discriminate|].
  intros H. apply bind_Ok in H as ([st|] & Hpre & H); [|discriminate].
  apply bind_Ok in H as ([[] st'] & Hbt & [= <-]). eauto.
Qed.

(** C5.  A puzzle with a one-cell cage whose operator is [-] or [/] is
    never answered with a grid, whatever the fuel; with its cages on the
    board and covering it, [solveKenKen] returns no-solution. *)
Theorem lonely_binary_unsolvable (p : Puzzle) (cage : Cage) :
  cage ∈ cages p -> lonelyBinary cage = true ->
  (forall fuel g, solveWith fuel p <> Ok (Some g)) /\
  (cagesOnGrid (size p) (cages p) = true -> allCaged (size p) (cages p) = true ->
   solveKenKen p = Ok None).
Proof.
  intros Hin Hlonely.
  assert (Hnever : forall fuel g, solveWith fuel p <> Ok (Some g)).
  { intros fuel g (st & st' & Hpre & Hbt & _)%solveWith_solved.
    destruct (lonely_cells cage Hlonely) as (r & c & Hcells & Hop).
    destruct (preseed_keeps _ _ _ _ (init_wf (size p)) Hpre) as (Hwf & _ & Hsingle).
    pose proof (Hsingle cage r c Hin Hcells) as (x & Hx & Hx0).
    pose proof (backtrack_good (size p) (cages p) (buildCageOf (cages p))
                  (fuel + S (zeros (grid st))) st Hwf) as Hgood.
    rewrite backtrack_mono, Hbt in Hgood by (rewrite Hbt; discriminate).
    destruct Hgood as (_ & _ & Htrue); [lia|].
    destruct (Htrue eq_refl) as [Hall Hext].
    pose proof (allCagesValid_true _ _ _ cage Hall Hin) as Hok.
    rewrite (lonely_rejected (size p) (grid st') cage r c Hcells Hop) in Hok;
      [discriminate|].
    exists x. split; [by apply Hext | done]. }
  split; [done|]. intros Hon Hcov.
  destruct (solveKenKen_returns p Hon Hcov) as [[g|] Hr]; [|done].
  by destruct (Hnever _ _ Hr).
Qed.

Lemma lonely_binary_unsolvable_witness : solveKenKen lonelyPuzzle = Ok None.
Proof.
  apply (lonely_binary_unsolvable lonelyPuzzle (mkCage [(0, 0)] 1 Minus));
    [apply list_elem_of_here | reflexivity | reflexivity | reflexivity].
Defined.

(** ** [getCandidates] and the state *)

(** C9.  [getCandidates] has one call site, in [selectNext], behind the
    test [if (grid[r][c]) continue]: it is called on unassigned cells only.
    On a state of the shape the solver keeps, a call of [getCandidates] on
    an unassigned cell that returns hands back the grid and both usage
    tables exactly as they were; and it does return when the cages in the
    Map lie on the board. *)
Theorem getCandidates_restores (n : Z) (cageOf : gmap (Z * Z) Cage)
        (st : State) (r c : Z) :
  wf_state n st -> isUnassigned st r c ->
  (forall cand st', getCandidates n cageOf st r c = Ok (cand, st') -> st' = st) /\
  (indexOnGrid n cageOf -> exists cand, getCandidates n cageOf st r c = Ok (cand, st)).
Proof.
  intros Hwf Hz. pose proof (getCandidates_good n cageOf st r c Hwf Hz) as H.
  destruct (getCandidates n cageOf st r c) as [[cand st']| |]; [|..|done].
  - destruct H as [-> _]. split; [|eauto]. by intros ? ? [= _ <-].
  - split; [discriminate | done].
Qed.

Lemma getCandidates_restores_witness :
  wf_state 2 cornerState /\ isUnassigned cornerState 0 1 /\
  forall cand st',
    getCandidates 2 (buildCageOf (cages cornerPuzzle)) cornerState 0 1
    = Ok (cand, st') -> st' = cornerState.
Proof.
  assert (Hwf : wf_state 2 cornerState).
  { unfold wf_state; simpl. repeat split; repeat constructor. }
  split; [exact Hwf|]. split; [reflexivity|].
  apply (getCandidates_restores 2 (buildCageOf (cages cornerPuzzle))
           cornerState 0 1 Hwf eq_refl).
Defined.

(** ** The scan of [selectNext] *)






(** ** More fuel changes nothing *)

Lemma solveWith_mono (p : Puzzle) (fuel extra : nat) :
  finished (solveWith fuel p) -> solveWith (fuel + extra) p = solveWith fuel p.
Proof.
  unfold solveWith. destruct (size p <? 1); [done|].
  destruct (preseed (size p) (cages p) (init (size p))) as [[st|]| |];
    cbn [bind]; try done.
  intros Hfin. rewrite backtrack_mono; [done|].
  intros E. rewrite E in Hfin. by apply Hfin.
Qed.

(** ** Evaluations *)

(** Scenario A: the bundled 3 x 3 example comes back unchanged. *)
Example example3_solved :
  solveKenKen example3 = Ok (Some [[1; 2; 3]; [2; 3; 1]; [3; 1; 2]]).
Proof. vm_compute. reflexivity. Qed.

(** C1 fails on the code.  [deadEndPuzzle] is a well-formed puzzle without
    solution.  After pre-seeding, cell (0,1) has no candidate, [selectNext]
    returns none, [backtrack] takes that for "no cell left", every cage
    passes its partial check, and the half-empty grid is returned. *)
Theorem dead_end_returned_as_solution :
  cagesOnGrid 2 (cages deadEndPuzzle) = true /\
  allCaged 2 (cages deadEndPuzzle) = true /\
  solveKenKen deadEndPuzzle = Ok (Some [[1; 0]; [0; 2]]) /\
  fullyPopulated 2 [[1; 0]; [0; 2]] = false.
Proof. vm_compute. repeat split; reflexivity. Qed.

(** C2 fails on the code.  The one cell of [uncagedPuzzle] belongs to no
    cage; [getCandidates] treats it as unconstrained and offers 1, but
    [backtrack] hands the missing Map entry to the oracle, which throws. *)
Theorem uncaged_cell_throws :
  caged (cages uncagedPuzzle) (0, 0) = false /\
  getCandidates 1 (buildCageOf (cages uncagedPuzzle)) (init 1) 0 0
  = Ok ([1], init 1) /\
  solveKenKen uncagedPuzzle = TypeError.
Proof. vm_compute. repeat split; reflexivity. Qed.

(** ** Instances of the oracle theorems *)

Lemma plus_oracle_witness :
  cageValidPartial 4 [[1; 0]; [0; 0]] (mkCage [(0, 0); (0, 1)] 3 Plus) = Ok true.
Proof.
  destruct (plus_oracle 4 [[1; 0]; [0; 0]] (mkCage [(0, 0); (0, 1)] 3 Plus) [1; 0]
              eq_refl eq_refl) as (b & Hb & _ & Hpartial).
  rewrite Hb. f_equal.
  assert (Hu : Z.of_nat (unassignedIn [1; 0]) <> 0) by (vm_compute; discriminate).
  destruct (Hpartial Hu) as [_ Hiff]. apply Hiff.
  vm_compute. split; discriminate.
Defined.

Lemma times_oracle_witness :
  cageValidPartial 4 [[2; 0]; [0; 0]] (mkCage [(0, 0); (0, 1)] 3 Times) = Ok false.
Proof.
  destruct (times_oracle 4 [[2; 0]; [0; 0]] (mkCage [(0, 0); (0, 1)] 3 Times) [2; 0]
              eq_refl eq_refl ltac:(lia) eq_refl) as (b & Hb & Hreject & _).
  rewrite Hb. f_equal. apply Hreject. right. vm_compute. discriminate.
Defined.

(** C8, as stated, fails where a product passes 2^53.
    (1) On a 7 x 7 board take the [*] cage of the first twenty cells, one
    of them holding 1 and the others blank, with target
    11398895185373144.  Nothing is rejected by the first rule, and
    [prod * n ^ unassigned] is 7^19 = 11398895185373143, below the target;
    but the nineteenth multiplication by 7 is rounded up to the target, and
    the oracle accepts.
    (2) On the full cyclic Latin square of size 7 take the [*] cage of all
    49 cells with target 82606411253903518739726336, which is what the
    chain of 49 rounded multiplications arrives at: the oracle accepts,
    though the product of the cells is 5040^7, another number. *)
Lemma times_oracle_rounding :
  (cageValidPartial 7 cornerOne7 twentyCells = Ok true /\
   exists vals, mapM (cellOf cornerOne7) (cells twentyCells) = Some vals /\
     unassignedIn vals = 19%nat /\
     ~ (prodOf (filled vals) > target twentyCells \/
        target twentyCells mod prodOf (filled vals) <> 0) /\
     prodOf (filled vals) * 7 ^ 19 < target twentyCells) /\
  (cageValidPartial 7 latin7 wholeBoard = Ok true /\
   exists vals, mapM (cellOf latin7) (cells wholeBoard) = Some vals /\
     unassignedIn vals = 0%nat /\
     prodOf (filled vals) <> target wholeBoard).
Proof.
  split.
  - split; [vm_compute; reflexivity|]. eexists. split; [vm_compute; reflexivity|].
    split; [reflexivity|]. split; [|vm_compute; reflexivity].
    intros [H|H]; [vm_compute in H; discriminate | by apply H].
  - split; [vm_compute; reflexivity|]. eexists. split; [vm_compute; reflexivity|].
    split; [reflexivity|]. vm_compute. discriminate.
Qed.


(** * Further properties of the solver *)

(** ** The cell -> cage Map *)

Lemma hasCell_elem (rc : Z * Z) (cage : Cage) :
  hasCell rc cage = true <-> rc ∈ cells cage.
Proof.
  unfold hasCell. rewrite existsb_exists. split.
  - intros (rc' & Hin & Heq). unfold cellEqb in Heq.
    apply andb_true_iff in Heq as [H1%Z.eqb_eq H2%Z.eqb_eq].
    destruct rc, rc'; simpl in *; subst. by apply list_elem_of_In.
  - intros Hin. exists rc. split; [by apply list_elem_of_In|].
    unfold cellEqb. by rewrite !Z.eqb_refl.
Qed.

Lemma cageOf_last_from (cl : list Cage) (rc : Z * Z) :
  forall m : gmap (Z * Z) Cage,
  foldl register m cl !! rc =
  match last (List.filter (hasCell rc) cl) with
  | Some cage => Some cage
  | None => m !! rc
  end.
Proof.
  induction cl as [|c0 rest IH]; intros m; cbn [foldl List.filter]; [done|].
  rewrite IH, register_lookup. destruct (hasCell rc c0) eqn:Hc.
  - apply hasCell_elem in Hc. rewrite bool_decide_eq_true_2 by done.
    rewrite last_cons. by destruct (last (List.filter (hasCell rc) rest)).
  - rewrite bool_decide_eq_false_2; [done|].
    intros Hin%hasCell_elem. congruence.
Qed.

(** X1.  The cell -> cage Map gives, for every cell, the last cage of the
    puzzle's list that has the cell, and nothing for a cell that no cage
    has. *)
Theorem cageOf_last_wins (cl : list Cage) (rc : Z * Z) :
  buildCageOf cl !! rc = last (List.filter (hasCell rc) cl).
Proof.
  unfold buildCageOf. rewrite cageOf_last_from, lookup_empty.
  by destruct (last (List.filter (hasCell rc) cl)).
Qed.

(** ** Termination and the undo discipline *)

(** X2.  The recursion of [backtrack] is at most n * n + 1 deep: with that
    much fuel every run ends (in a grid, in no-solution or in a throw), and
    more fuel does not change its outcome. *)
Theorem search_depth_bound (p : Puzzle) (fuel : nat) :
  (fuelFor (size p) <= fuel)%nat ->
  finished (solveWith fuel p) /\ solveWith fuel p = solveKenKen p.
Proof.
  intros Hle. pose proof (solveKenKen_finished p) as Hfin.
  assert (E : solveWith fuel p = solveKenKen p).
  { unfold solveKenKen in *.
    replace fuel with (fuelFor (size p) + (fuel - fuelFor (size p)))%nat by lia.
    by apply solveWith_mono. }
  split; [|done]. by rewrite E.
Qed.

Lemma search_depth_bound_witness :
  finished (solveWith 100 lonelyPuzzle) /\
  solveWith 100 lonelyPuzzle = solveKenKen lonelyPuzzle.
Proof. apply (search_depth_bound lonelyPuzzle 100). vm_compute. lia. Defined.

(** X3.  A call of [backtrack] that reports failure hands back the grid and
    the usage tables exactly as it received them: every trial placement has
    been undone. *)
Theorem failed_search_restores (n : Z) (cl : list Cage) (cageOf : gmap (Z * Z) Cage)
        (fuel : nat) (st st' : State) :
  wf_state n st ->
  backtrack n cl cageOf fuel st = Ok (false, st') ->
  st' = st.
Proof.
  intros Hwf Hbt.
  pose proof (backtrack_good n cl cageOf (fuel + S (zeros (grid st))) st Hwf) as Hgood.
  rewrite backtrack_mono, Hbt in Hgood by (rewrite Hbt; discriminate).
  destruct Hgood as (_ & Hfalse & _); [lia|]. by apply Hfalse.
Qed.

Lemma failed_search_restores_witness :
  backtrack 2 (cages forcedThenDead) (buildCageOf (cages forcedThenDead)) 3 (init 2)
  = Ok (false, init 2).
Proof.
  destruct (backtrack 2 (cages forcedThenDead) (buildCageOf (cages forcedThenDead))
              3 (init 2)) as [[[] st']| |] eqn:E;
    try (vm_compute in E; discriminate).
  by rewrite (failed_search_restores 2 _ _ 3 (init 2) st' (init_wf 2) E).
Defined.

(** X4.  On a puzzle whose cages lie on the board and cover it,
    [solveKenKen] does not throw: it returns a grid or no-solution. *)
Theorem wellformed_never_throws (p : Puzzle) :
  cagesOnGrid (size p) (cages p) = true -> allCaged (size p) (cages p) = true ->
  solveKenKen p <> TypeError.
Proof.
  intros Hon Hcov. destruct (solveKenKen_returns p Hon Hcov) as [r ->]. discriminate.
Qed.

Lemma wellformed_never_throws_witness : solveKenKen deadEndPuzzle <> TypeError.
Proof. apply (wellformed_never_throws deadEndPuzzle); reflexivity. Defined.

(** ** What [getCandidates] returns *)

Lemma candLoop_exact (n : Z) (cage : option Cage) (r c : Z) (st : State) :
  wf_state n st -> isUnassigned st r c ->
  forall (vs out out' : list Z) (st' : State),
  Forall (fun v => 1 <= v <= n) vs ->
  candLoop n cage r c vs st out = Ok (out', st') ->
  exists new, out' = out ++ new /\ sublist new vs /\
    forall v, v ∈ new <->
      v ∈ vs /\ used st r c v = Ok false /\
      probe n cage (grid (place st r c v)) = Ok true.
Proof.
  intros Hwf Hz. induction vs as [|v rest IH]; intros out out' st' Hvs; cbn [candLoop].
  - intros [= <- _]. exists []. rewrite app_nil_r. split; [done|]. split; [done|].
    intros v. split; [by intros ?%elem_of_nil | by intros [?%elem_of_nil _]].
  - apply Forall_cons in Hvs as [Hv Hrest].
    intros H. apply bind_Ok in H as (u & Hu & H). destruct u.
    + destruct (IH _ _ _ Hrest H) as (new & -> & Hsub & Hiff).
      exists new. split; [done|]. split; [by apply sublist_cons|].
      intros w. rewrite Hiff, elem_of_cons. split; [intros (? & ? & ?); auto|].
      intros ([->|?] & Hw & ?); [congruence | done].
    + apply bind_Ok in H as (ok & Hok & H).
      rewrite (place_unplace n st r c v Hwf Hz Hv Hu) in H.
      destruct (IH _ _ _ Hrest H) as (new & -> & Hsub & Hiff). destruct ok.
      * exists (v :: new). split; [by rewrite <- app_assoc|].
        split; [by apply sublist_skip|].
        intros w. rewrite !elem_of_cons, Hiff. split.
        -- intros [->|(? & ? & ?)]; [by auto | by auto].
        -- intros ([->|?] & ? & ?); [by left | by right].
      * exists new. split; [done|]. split; [by apply sublist_cons|].
        intros w. rewrite Hiff, elem_of_cons. split; [intros (? & ? & ?); auto|].
        intros ([->|?] & ? & Hp); [congruence | done].
Qed.

(** X5.  On an unassigned cell of a well-shaped state, the list that
    [getCandidates] returns is a sublist of 1, 2, ..., n (so it is ascending
    and without repetition), and it holds exactly the values that are marked
    neither in the row nor in the column and that the oracle of the cell's
    cage accepts once placed (every such value when the cell has no cage). *)
Theorem getCandidates_exact (n : Z) (cageOf : gmap (Z * Z) Cage) (st st' : State)
        (r c : Z) (cand : list Z) :
  wf_state n st -> isUnassigned st r c ->
  getCandidates n cageOf st r c = Ok (cand, st') ->
  sublist cand (seqZ 1 n) /\
  forall v, v ∈ cand <->
    1 <= v <= n /\ used st r c v = Ok false /\
    probe n (cageOf !! (r, c)) (grid (place st r c v)) = Ok true.
Proof.
  intros Hwf Hz Hg. unfold getCandidates in Hg.
  destruct (candLoop_exact n _ r c st Hwf Hz _ _ _ _ (seqZ_range n) Hg)
    as (new & -> & Hsub & Hiff).
  split; [done|]. intros v. rewrite app_nil_l, Hiff, elem_of_seqZ.
  split; intros (? & ? & ?); (split; [lia | done]).
Qed.

Lemma getCandidates_exact_witness :
  sublist [2] (seqZ 1 2) /\
  forall v, v ∈ [2] <->
    1 <= v <= 2 /\ used cornerState 0 1 v = Ok false /\
    probe 2 (buildCageOf (cages cornerPuzzle) !! (0, 1))
          (grid (place cornerState 0 1 v)) = Ok true.
Proof.
  assert (Hwf : wf_state 2 cornerState).
  { unfold wf_state; simpl. repeat split; repeat constructor. }
  apply (getCandidates_exact 2 (buildCageOf (cages cornerPuzzle))
           cornerState cornerState 0 1 [2] Hwf eq_refl).
  vm_compute. reflexivity.
Defined.

(** ** What [selectNext] selects *)

Section ScanFacts.

Variable n : Z.
Variable cageOf : gmap (Z * Z) Cage.
Variable st : State.
Hypothesis Hwf : wf_state n st.

Lemma scan_step_assigned (r c : Z) (rest : list (Z * Z))
      (best : option (Z * Z)) (bc : list Z) :
  onGrid n (r, c) -> ~ isUnassigned st r c ->
  scan n cageOf ((r, c) :: rest) best bc st = scan n cageOf rest best bc st.
Proof.
  intros Hon Hnz. cbn [scan]. destruct (wf_cell n st r c Hwf Hon) as [x Hx].
  unfold assigned. rewrite Hx; cbn [bind].
  destruct (Z.eqb_spec x 0) as [->|_]; [|done].
  destruct Hnz. by apply cellOf_get2.
Qed.

Lemma assigned_unassigned (r c : Z) :
  isUnassigned st r c -> assigned st r c = Ok false.
Proof. intros Hz%cellOf_get2. unfold assigned. by rewrite Hz. Qed.

(** The scan, from any point on: a pick of two or more candidates is no
    longer than the shortest list seen before and than the list of every
    unassigned cell still to scan. *)
Lemma scan_minimum (todo : list (Z * Z)) :
  Forall (onGrid n) todo ->
  forall (best : option (Z * Z)) (bc : list Z) (r c : Z) (cand : list Z) (st' : State),
  scan n cageOf todo best bc st = Ok (Some (r, c, cand), st') ->
  length cand = 1%nat \/
  ((best <> None -> (length cand <= length bc)%nat) /\
   forall r' c' cand', (r', c') ∈ todo -> isUnassigned st r' c' ->
     getCandidates n cageOf st r' c' = Ok (cand', st) ->
     (length cand <= length cand')%nat).
Proof.
  induction 1 as [|[r0 c0] rest Hon _ IH]; intros best bc r c cand st'.
  - cbn [scan]. destruct best as [[rb cb]|]; [|discriminate].
    intros [= <- <- <- _]. right. split; [done|].
    intros r' c' cand' Hin. by apply elem_of_nil in Hin.
  - destruct (decide (cellOf (grid st) (r0, c0) = Some 0)) as [Hz|Hnz].
    2:{ rewrite scan_step_assigned by done. intros H.
        destruct (IH _ _ _ _ _ _ H) as [?|[Hb Hall]]; [by left | right].
        split; [done|]. intros r' c' cand' [[= -> ->]|Hin]%elem_of_cons Hz'; [done|].
        by apply Hall. }
    cbn [scan]. rewrite (assigned_unassigned _ _ Hz); cbn [bind].
    pose proof (getCandidates_good n cageOf st r0 c0 Hwf Hz) as Hg.
    destruct (getCandidates n cageOf st r0 c0) as [[cand0 st0]| |] eqn:Eg;
      cbn [bind]; [|discriminate..].
    destruct Hg as [-> _].
    destruct (Nat.eqb_spec (length cand0) 0) as [|Hne0]; [discriminate|].
    assert (Hhead : forall k, (k <= length cand0)%nat ->
              forall cand', getCandidates n cageOf st r0 c0 = Ok (cand', st) ->
                            (k <= length cand')%nat).
    { intros k Hk cand' Hc. rewrite Eg in Hc. by injection Hc as <-. }
    destruct (noBest best || (length cand0 <? length bc)%nat) eqn:Hbetter.
    + destruct (Nat.eqb_spec (length cand0) 1) as [E1|_].
      * intros [= <- <- <- _]. by left.
      * intros H. destruct (IH _ _ _ _ _ _ H) as [?|[Hb Hall]]; [by left | right].
        assert (Hle : (length cand <= length cand0)%nat) by (by apply Hb).
        split.
        -- intros Hbest. apply orb_true_iff in Hbetter as [Hnb|Hlt].
           ++ by destruct best.
           ++ apply Nat.ltb_lt in Hlt. lia.
        -- intros r' c' cand' [[= -> ->]|Hin]%elem_of_cons Hz' Hc;
             [by apply (Hhead _ Hle) | by eapply Hall].
    + apply orb_false_iff in Hbetter as [Hnb Hge]. apply Nat.ltb_ge in Hge.
      intros H. destruct (IH _ _ _ _ _ _ H) as [?|[Hb Hall]]; [by left | right].
      assert (Hbest : best <> None) by (by destruct best).
      split; [done|].
      intros r' c' cand' [[= -> ->]|Hin]%elem_of_cons Hz' Hc; [|by eapply Hall].
      apply (Hhead (length cand)); [|done]. specialize (Hb Hbest). lia.
Qed.

(** The scan, from any point on: it returns none only with nothing kept
    and nothing unassigned to scan, or at a cell without candidate. *)
Lemma scan_none (todo : list (Z * Z)) :
  Forall (onGrid n) todo ->
  forall (best : option (Z * Z)) (bc : list Z) (st' : State),
  scan n cageOf todo best bc st = Ok (None, st') ->
  (best = None /\ forall r c, (r, c) ∈ todo -> ~ isUnassigned st r c) \/
  (exists r c, (r, c) ∈ todo /\ isUnassigned st r c /\
               getCandidates n cageOf st r c = Ok ([], st)).
Proof.
  induction 1 as [|[r0 c0] rest Hon _ IH]; intros best bc st'.
  - cbn [scan]. destruct best as [[rb cb]|]; [discriminate|]. intros _. left.
    split; [done|]. intros r c Hin. by apply elem_of_nil in Hin.
  - destruct (decide (cellOf (grid st) (r0, c0) = Some 0)) as [Hz|Hnz].
    2:{ rewrite scan_step_assigned by done. intros H.
        destruct (IH _ _ _ H) as [[Hb Hall]|(r & c & Hin & ?)].
        - left. split; [done|].
          intros r c [[= -> ->]|Hin]%elem_of_cons; [done | by apply Hall].
        - right. exists r, c. split; [by apply list_elem_of_further | done]. }
    cbn [scan]. rewrite (assigned_unassigned _ _ Hz); cbn [bind].
    pose proof (getCandidates_good n cageOf st r0 c0 Hwf Hz) as Hg.
    destruct (getCandidates n cageOf st r0 c0) as [[cand0 st0]| |] eqn:Eg;
      cbn [bind]; [|discriminate..].
    destruct Hg as [-> _].
    destruct (Nat.eqb_spec (length cand0) 0) as [E0|_].
    { intros _. right. exists r0, c0. split; [apply list_elem_of_here|].
      split; [done|]. by destruct cand0. }
    assert (Hrest : forall b l,
              scan n cageOf rest b l st = Ok (None, st') -> b <> None ->
              exists r c, (r, c) ∈ (r0, c0) :: rest /\ isUnassigned st r c /\
                          getCandidates n cageOf st r c = Ok ([], st)).
    { intros b l H Hb. destruct (IH _ _ _ H) as [[? _]|(r & c & Hin & ?)]; [done|].
      exists r, c. split; [by apply list_elem_of_further | done]. }
    destruct (noBest best || (length cand0 <? length bc)%nat) eqn:Hbetter.
    + destruct (length cand0 =? 1)%nat; [discriminate|].
      intros H. right. by eapply Hrest.
    + apply orb_false_iff in Hbetter as [Hnb _].
      intros H. right. eapply Hrest; [done|]. by destruct best.
Qed.

End ScanFacts.

(** X6.  The cell that [selectNext] selects is unassigned and comes with
    its own non-empty candidate list; the list has exactly one element, or
    it is no longer than the candidate list of any unassigned cell of the
    board (minimum remaining values).  The state is not changed. *)
Theorem selectNext_minimum (n : Z) (cageOf : gmap (Z * Z) Cage) (st st' : State)
        (r c : Z) (cand : list Z) :
  wf_state n st ->
  selectNext n cageOf st = Ok (Some (r, c, cand), st') ->
  st' = st /\ isUnassigned st r c /\ cand <> [] /\
  getCandidates n cageOf st r c = Ok (cand, st) /\
  (length cand = 1%nat \/
   forall r' c' cand', onGrid n (r', c') -> isUnassigned st r' c' ->
     getCandidates n cageOf st r' c' = Ok (cand', st) ->
     (length cand <= length cand')%nat).
Proof.
  intros Hwf Hsel. pose proof (selectNext_good n cageOf st Hwf) as Hgood.
  rewrite Hsel in Hgood. destruct Hgood as [-> Hpick].
  destruct (Hpick _ eq_refl) as (Hz & Hne & Hget).
  split; [done|]. split; [done|]. split; [done|]. split; [done|].
  unfold selectNext in Hsel.
  destruct (scan_minimum n cageOf st Hwf _ (scanOrder_onGrid n) _ _ _ _ _ _ Hsel)
    as [?|[_ Hall]]; [by left | right].
  intros r' c' cand' Hon. apply Hall. by apply onGrid_scanOrder.
Qed.

Lemma selectNext_minimum_witness :
  selectNext 2 (buildCageOf (cages cornerPuzzle)) cornerState
  = Ok (Some (0, 1, [2]), cornerState) /\ [2] <> @nil Z.
Proof.
  assert (Hwf : wf_state 2 cornerState).
  { unfold wf_state; simpl. repeat split; repeat constructor. }
  assert (E : selectNext 2 (buildCageOf (cages cornerPuzzle)) cornerState
              = Ok (Some (0, 1, [2]), cornerState)) by (vm_compute; reflexivity).
  split; [exact E|].
  apply (selectNext_minimum 2 _ cornerState cornerState 0 1 [2] Hwf E).
Defined.

(** X7.  [selectNext] returns none in two situations only: no cell of the
    board is unassigned, or some unassigned cell has no candidate.  The
    state is not changed. *)
Theorem selectNext_none_cases (n : Z) (cageOf : gmap (Z * Z) Cage) (st st' : State) :
  wf_state n st ->
  selectNext n cageOf st = Ok (None, st') ->
  st' = st /\
  ((forall r c, onGrid n (r, c) -> ~ isUnassigned st r c) \/
   (exists r c, onGrid n (r, c) /\ isUnassigned st r c /\
                getCandidates n cageOf st r c = Ok ([], st))).
Proof.
  intros Hwf Hsel. pose proof (selectNext_good n cageOf st Hwf) as Hgood.
  rewrite Hsel in Hgood. destruct Hgood as [-> _]. split; [done|].
  unfold selectNext in Hsel.
  destruct (scan_none n cageOf st Hwf _ (scanOrder_onGrid n) _ _ _ Hsel)
    as [[_ Hall]|(r & c & Hin & Hz & Hg)].
  - left. intros r c Hon. apply Hall. by apply onGrid_scanOrder.
  - right. exists r, c. split; [|done].
    pose proof (scanOrder_onGrid n) as Hgrid. rewrite Forall_forall in Hgrid.
    by apply Hgrid.
Qed.

Lemma selectNext_none_cases_witness :
  exists r c, onGrid 2 (r, c) /\ isUnassigned deadEndState r c /\
    getCandidates 2 (buildCageOf (cages deadEndPuzzle)) deadEndState r c
    = Ok ([], deadEndState).
Proof.
  assert (Hwf : wf_state 2 deadEndState).
  { unfold wf_state; simpl. repeat split; repeat constructor. }
  destruct (selectNext_none_cases 2 (buildCageOf (cages deadEndPuzzle))
              deadEndState deadEndState Hwf) as [_ [Hfull|Hdead]].
  - vm_compute. reflexivity.
  - exfalso. apply (Hfull 0 1); [|reflexivity]. unfold onGrid; simpl. lia.
  - exact Hdead.
Defined.

(** ** What pre-seeding writes *)

Lemma place_cell (n : Z) (st : State) (r c v : Z) (rc : Z * Z) :
  wf_state n st -> 1 <= v <= n -> used st r c v = Ok false ->
  cellOf (grid (place st r c v)) rc =
  if decide (rc = (r, c)) then Some v else cellOf (grid st) rc.
Proof.
  intros Hwf Hv Hu. destruct (used_false n st r c v Hwf Hv Hu) as (_ & _ & Hr & Hc).
  destruct (wf_cell n st r c Hwf) as [x Hx]; [by split|].
  unfold place; cbn [grid]. destruct rc as [r' c'].
  destruct (decide ((r', c') = (r, c))) as [[= -> ->]|Hne].
  - apply cellOf_get2. by eapply get2_set2_eq.
  - destruct (cellOf (grid st) (r', c')) as [y|] eqn:Hy.
    + apply cellOf_get2. rewrite get2_set2_ne by congruence. by apply cellOf_get2.
    + destruct (cellOf (set2 (grid st) r c v) (r', c')) as [y|] eqn:Hy'; [|done].
      apply cellOf_get2 in Hy'. rewrite get2_set2_ne in Hy' by congruence.
      apply cellOf_get2 in Hy'. congruence.
Qed.

Lemma singleAt_cells (rc : Z * Z) (cage : Cage) (r c : Z) :
  cells cage = [(r, c)] -> singleAt rc cage = bool_decide (rc = (r, c)).
Proof.
  intros Hc. unfold singleAt. rewrite Hc. unfold cellEqb. destruct rc as [r' c'].
  cbn [fst snd]. destruct (Z.eqb_spec r' r) as [->|Hr], (Z.eqb_spec c' c) as [->|Hcc];
    cbn [andb]; symmetry;
    first [by apply bool_decide_eq_true_2 | apply bool_decide_eq_false_2; congruence].
Qed.

Lemma singleAt_not_single (rc : Z * Z) (cage : Cage) :
  length (cells cage) <> 1%nat -> singleAt rc cage = false.
Proof.
  intros H. unfold singleAt. by destruct (cells cage) as [|? [|? ?]].
Qed.

Lemma preseed_grid_from (n : Z) (todo : list Cage) :
  forall st st', wf_state n st -> preseed n todo st = Ok (Some st') ->
  forall rc, cellOf (grid st') rc =
             match last (List.filter (singleAt rc) todo) with
             | Some cage => Some (target cage)
             | None => cellOf (grid st) rc
             end.
Proof.
  induction todo as [|cage rest IH]; intros st st' Hwf; cbn [preseed List.filter].
  - by intros [= <-] rc.
  - rewrite single_test.
    destruct (Nat.eqb_spec (length (cells cage)) 1) as [Hlen|Hlen].
    + destruct (cells cage) as [|[r c] tl] eqn:Hcells; [discriminate|].
      destruct tl; [|discriminate].
      destruct (Z.ltb_spec (target cage) 1) as [|Hlo]; [discriminate|].
      rewrite Z.gtb_ltb.
      destruct (Z.ltb_spec n (target cage)) as [|Hhi]; [discriminate|].
      cbn [orb]. intros H rc. apply bind_Ok in H as (u & Hu & H).
      destruct u; [discriminate|].
      assert (Hv : 1 <= target cage <= n) by lia.
      rewrite (IH _ _ (place_wf n st r c _ Hwf) H rc).
      rewrite (place_cell n st r c _ rc Hwf Hv Hu).
      rewrite (singleAt_cells rc cage r c Hcells).
      destruct (decide (rc = (r, c))) as [->|Hne].
      * rewrite bool_decide_eq_true_2 by done. rewrite last_cons.
        by destruct (last (List.filter (singleAt (r, c)) rest)).
      * by rewrite bool_decide_eq_false_2.
    + intros H rc. rewrite (singleAt_not_single rc cage Hlen). by eapply IH.
Qed.

Lemma init_cell (n : Z) (rc : Z * Z) : onGrid n rc -> cellOf (grid (init n)) rc = Some 0.
Proof.
  intros Hon. destruct rc as [r c].
  destruct (wf_cell n (init n) r c (init_wf n) Hon) as [x Hx].
  apply cellOf_get2. rewrite Hx. do 2 f_equal.
  apply get2_Some in Hx as (row & Hr & Hc). unfold init in Hr; cbn [grid] in Hr.
  apply aget_Some in Hr as [_ Hr]. apply lookup_replicate in Hr as [-> _].
  apply aget_Some in Hc as [_ Hc]. by apply lookup_replicate in Hc as [-> _].
Qed.

(** X8.  When pre-seeding succeeds, every cell of the board holds the
    target of the last single-cell cage on that cell, and 0 when no
    single-cell cage is on it. *)
Theorem preseed_grid (n : Z) (cl : list Cage) (st : State) (rc : Z * Z) :
  preseed n cl (init n) = Ok (Some st) -> onGrid n rc ->
  cellOf (grid st) rc =
  Some (match last (List.filter (singleAt rc) cl) with
        | Some cage => target cage
        | None => 0
        end).
Proof.
  intros Hpre Hon. rewrite (preseed_grid_from n cl _ _ (init_wf n) Hpre rc).
  destruct (last (List.filter (singleAt rc) cl)); [done | by apply init_cell].
Qed.

Lemma preseed_grid_witness :
  cellOf (grid cornerState) (0, 0) = Some 1 /\ cellOf (grid cornerState) (1, 1) = Some 0.
Proof.
  split.
  - apply (preseed_grid 2 (cages cornerPuzzle) cornerState (0, 0));
      [vm_compute; reflexivity | unfold onGrid; simpl; lia].
  - apply (preseed_grid 2 (cages cornerPuzzle) cornerState (1, 1));
      [vm_compute; reflexivity | unfold onGrid; simpl; lia].
Defined.

(** ** Rows and columns of a returned grid *)

Lemma set2_keeps_true (m : list (list bool)) (r v r' v' : Z) :
  get2 m r' v' = Ok (Some true) -> get2 (set2 m r v true) r' v' = Ok (Some true).
Proof.
  intros H. destruct (decide ((r, v) = (r', v'))) as [[= -> ->]|Hne].
  - by eapply get2_set2_eq.
  - by rewrite get2_set2_ne.
Qed.

Lemma place_marksCover (n : Z) (st : State) (r c v : Z) :
  wf_state n st -> 1 <= v <= n -> used st r c v = Ok false ->
  marksCover n st -> marksCover n (place st r c v).
Proof.
  intros Hwf Hv Hu Hcover r' c' w Hw Hw0.
  rewrite (place_cell n st r c v _ Hwf Hv Hu) in Hw.
  destruct (decide ((r', c') = (r, c))) as [[= -> ->]|Hne].
  - injection Hw as <-. split; [done|]. by apply (place_marks n).
  - destruct (Hcover r' c' w Hw Hw0) as (? & Hrow & Hcol).
    split; [done|]. unfold place; cbn [rowUsed colUsed].
    split; by apply set2_keeps_true.
Qed.

Lemma place_noRepeat (n : Z) (st : State) (r c v : Z) :
  wf_state n st -> 1 <= v <= n -> used st r c v = Ok false ->
  marksCover n st -> noRepeat (grid st) -> noRepeat (grid (place st r c v)).
Proof.
  intros Hwf Hv Hu Hcover Hnr r1 c1 r2 c2 w Hw0 H1 H2.
  destruct (used_false n st r c v Hwf Hv Hu) as (Hrow & Hcol & _).
  rewrite (place_cell n st r c v (r1, c1) Hwf Hv Hu) in H1.
  rewrite (place_cell n st r c v (r2, c2) Hwf Hv Hu) in H2.
  destruct (decide ((r1, c1) = (r, c))) as [[= -> ->]|Hne1],
           (decide ((r2, c2) = (r, c))) as [[= -> ->]|Hne2].
  - done.
  - injection H1 as <-. destruct (Hcover r2 c2 v H2 Hw0) as (_ & Hrow2 & Hcol2).
    split; intros <-; congruence.
  - injection H2 as <-. destruct (Hcover r1 c1 v H1 Hw0) as (_ & Hrow1 & Hcol1).
    split; intros ->; congruence.
  - by apply (Hnr r1 c1 r2 c2 w).
Qed.

Lemma preseed_latin (n : Z) (todo : list Cage) :
  forall st st', wf_state n st -> marksCover n st -> noRepeat (grid st) ->
  preseed n todo st = Ok (Some st') ->
  marksCover n st' /\ noRepeat (grid st').
Proof.
  induction todo as [|cage rest IH]; intros st st' Hwf Hcover Hnr; cbn [preseed].
  - by intros [= <-].
  - rewrite single_test. destruct (length (cells cage) =? 1)%nat; [|by apply IH].
    destruct (cells cage) as [|[r c] tl]; [discriminate|].
    destruct (Z.ltb_spec (target cage) 1) as [|Hlo]; [discriminate|].
    rewrite Z.gtb_ltb.
    destruct (Z.ltb_spec n (target cage)) as [|Hhi]; [discriminate|].
    cbn [orb]. intros H. apply bind_Ok in H as (u & Hu & H).
    destruct u; [discriminate|].
    assert (Hv : 1 <= target cage <= n) by lia.
    eapply IH; [| | |exact H].
    + by apply place_wf.
    + by apply place_marksCover.
    + by apply (place_noRepeat n).
Qed.

Lemma init_latin (n : Z) : marksCover n (init n) /\ noRepeat (grid (init n)).
Proof.
  assert (Hzero : forall rc v, cellOf (grid (init n)) rc = Some v -> v = 0).
  { intros [r c] v Hv. pose proof Hv as Hon%cellOf_get2.
    apply (wf_cell_onGrid n _ _ _ _ (init_wf n)) in Hon.
    rewrite (init_cell n _ Hon) in Hv. by injection Hv. }
  split.
  - intros r c v Hv Hv0. by destruct (Hv0 (Hzero _ _ Hv)).
  - intros r c r' c' v Hv0 Hv _. by destruct (Hv0 (Hzero _ _ Hv)).
Qed.

Section SuccessFacts.

Variable n : Z.
Variable cs : list Cage.
Variable cageOf : gmap (Z * Z) Cage.

(** What holds of the state a successful search ends in, given that it
    holds of the state any successful recursive call ends in. *)
Lemma tryCands_success (rec : State -> res (bool * State)) (Q : State -> Prop)
      (cage : option Cage) (r c : Z) (st : State) :
  wf_state n st -> isUnassigned st r c ->
  (forall v, 1 <= v <= n -> used st r c v = Ok false ->
             good n cs cageOf (place st r c v) (rec (place st r c v))) ->
  (forall v st2, 1 <= v <= n -> used st r c v = Ok false ->
                 rec (place st r c v) = Ok (true, st2) -> Q st2) ->
  forall cand : list Z,
  Forall (fun v => 1 <= v <= n /\ used st r c v = Ok false) cand ->
  forall st', tryCands n rec cage r c cand st = Ok (true, st') -> Q st'.
Proof.
  intros Hwf Hz Hgood HQ.
  induction cand as [|v rest IH]; intros Hcand st'; cbn [tryCands]; [discriminate|].
  apply Forall_cons in Hcand as [[Hv Hu] Hrest].
  pose proof (place_unplace n st r c v Hwf Hz Hv Hu) as Hundo.
  intros H. apply bind_Ok in H as (ok & Hok & H). destruct ok.
  - apply bind_Ok in H as ([solved st2] & Hrec & H).
    specialize (Hgood v Hv Hu). rewrite Hrec in Hgood.
    destruct Hgood as (_ & Hfalse & _). destruct solved.
    + injection H as <-. by eapply HQ.
    + rewrite (Hfalse eq_refl), Hundo in H. by apply IH.
  - rewrite Hundo in H. by apply IH.
Qed.

Lemma backtrack_latin (fuel : nat) :
  forall st st' : State,
  wf_state n st -> (zeros (grid st) < fuel)%nat ->
  marksCover n st -> noRepeat (grid st) ->
  backtrack n cs cageOf fuel st = Ok (true, st') ->
  marksCover n st' /\ noRepeat (grid st').
Proof.
  induction fuel as [|fuel IH]; intros st st' Hwf Hfuel Hcover Hnr; [lia|].
  cbn [backtrack]. pose proof (selectNext_good n cageOf st Hwf) as Hsel.
  destruct (selectNext n cageOf st) as [[pick st1]| |]; cbn [bind]; [|discriminate..].
  destruct Hsel as [-> Hpick]. destruct pick as [[[r c] cand]|].
  - destruct (Hpick _ eq_refl) as (Hz & Hne & Hget).
    pose proof (getCandidates_good n cageOf st r c Hwf Hz) as Hg.
    rewrite Hget in Hg. destruct Hg as [_ Hcand].
    assert (Hless : forall v, 1 <= v <= n ->
              (zeros (grid (place st r c v)) < fuel)%nat).
    { intros v Hv. assert (Hv0 : v <> 0) by lia.
      pose proof Hz as Hz'%cellOf_get2.
      pose proof (zeros_set2 (grid st) r c v Hz' Hv0). unfold place; cbn [grid]. lia. }
    apply (tryCands_success (backtrack n cs cageOf fuel)
             (fun s => marksCover n s /\ noRepeat (grid s))); try done.
    + intros v Hv Hu. apply backtrack_good; [by apply place_wf | by apply Hless].
    + intros v st2 Hv Hu Hbt. apply (IH (place st r c v)); try done.
      * by apply place_wf.
      * by apply Hless.
      * by apply place_marksCover.
      * by apply (place_noRepeat n).
  - intros H. apply bind_Ok in H as (ok & _ & [= _ <-]). done.
Qed.

End SuccessFacts.

(** The state behind a returned grid. *)
Lemma solved_state (p : Puzzle) (g : list (list Z)) :
  solveKenKen p = Ok (Some g) ->
  exists st, g = grid st /\ wf_state (size p) st /\
             marksCover (size p) st /\ noRepeat g /\
             allCagesValid (size p) (cages p) g = Ok true.
Proof.
  intros (st0 & st & Hpre & Hbt & ->)%solveWith_solved.
  destruct (preseed_keeps _ _ _ _ (init_wf (size p)) Hpre) as (Hwf0 & _).
  destruct (init_latin (size p)) as [Hc0 Hn0].
  destruct (preseed_latin _ _ _ _ (init_wf (size p)) Hc0 Hn0 Hpre) as [Hc1 Hn1].
  pose proof (zeros_bound _ _ Hwf0) as Hz.
  assert (Hfuel : (zeros (grid st0) < fuelFor (size p))%nat)
    by (unfold fuelFor; lia).
  pose proof (backtrack_good (size p) (cages p) (buildCageOf (cages p))
                _ st0 Hwf0 Hfuel) as Hgood.
  rewrite Hbt in Hgood. destruct Hgood as (Hwf & _ & Htrue).
  destruct (Htrue eq_refl) as [Hall _].
  destruct (backtrack_latin _ _ _ _ _ _ Hwf0 Hfuel Hc1 Hn1 Hbt) as [Hc Hn].
  exists st. done.
Qed.



(** ** A returned grid without blank cells *)

Lemma unassignedIn_nonzero (vals : list Z) :
  Forall (fun v => v <> 0) vals -> unassignedIn vals = 0%nat /\ filled vals = vals.
Proof.
  unfold unassignedIn, filled.
  induction 1 as [|v vals Hv _ [IH1 IH2]]; [done|]. cbn [List.filter].
  destruct (Z.eqb_spec v 0); [done|]. cbn [negb]. by rewrite IH2.
Qed.

(** With no blank among the values, the oracle's verdict on a cage of a
    defined shape is the exact arithmetic test; for a [*] cage, provided
    its target is below 2^53 in absolute value. *)
Lemma evalCage_exact (n : Z) (cage : Cage) (vals : list Z) :
  Forall (fun v => v <> 0) vals -> length vals = length (cells cage) ->
  wellShaped cage = true ->
  (op cage = Times -> Z.abs (target cage) < 2 ^ 53) ->
  evalCage n cage (map Some vals) = true -> cageSatisfied cage vals.
Proof.
  intros Hnz Hlen Hshape Hsmall.
  destruct (unassignedIn_nonzero vals Hnz) as [Hu Hf].
  unfold evalCage, cageSatisfied, wellShaped in *.
  rewrite countUnassigned_values, Hu. cbn [Nat.eqb].
  destruct (op cage).
  - rewrite sumValues_values, Hf. cbn [nseq]. by intros ?%Z.eqb_eq.
  - rewrite Hshape. cbn [negb]. rewrite <- Hlen in Hshape.
    destruct vals as [|a [|b [|? ?]]]; try discriminate.
    cbn [map vget lookup list_lookup nsub nabs nseq]. intros ?%Z.eqb_eq. eauto.
  - pose proof (prodValues_values vals) as Hp. rewrite Hf in Hp.
    destruct (dgt _ _ || _); [discriminate|].
    unfold dseq. rewrite (tracks_cmp _ _ _ Hp (Hsmall eq_refl)).
    by destruct (Z.compare_spec (prodOf vals) (target cage)).
  - rewrite Hshape. cbn [negb]. rewrite <- Hlen in Hshape.
    destruct vals as [|a [|b [|? ?]]]; try discriminate.
    cbn [map vget lookup list_lookup nmax nmin ndiv_eq].
    intros [_ ?%Z.eqb_eq]%andb_true_iff. eauto.
  - rewrite <- Hlen in Hshape. destruct vals as [|a [|? ?]]; try discriminate.
    cbn [map vget lookup list_lookup nseq]. apply Forall_cons in Hnz as [Ha _].
    destruct (Z.eqb_spec a 0); [done|]. cbn [orb]. intros ?%Z.eqb_eq. eauto.
Qed.

Lemma fullyPopulated_cells (n : Z) (g : list (list Z)) :
  fullyPopulated n g = true ->
  length g = Z.to_nat n /\ Forall (fun row => length row = Z.to_nat n) g /\
  forall rc v, cellOf g rc = Some v -> 1 <= v <= n.
Proof.
  unfold fullyPopulated. intros [Hlen Hrows]%andb_true_iff.
  apply Nat.eqb_eq in Hlen. rewrite forallb_forall in Hrows.
  split; [done|]. split.
  - apply Forall_forall. intros row Hin%list_elem_of_In.
    apply Hrows, andb_true_iff in Hin as [Hl _]. by apply Nat.eqb_eq.
  - intros [r c] v Hv. unfold cellOf in Hv; cbn [fst snd] in Hv.
    destruct (aget g r) as [row|] eqn:Hr; [|discriminate]. cbn in Hv.
    apply aget_Some in Hr as [_ Hr]. apply list_elem_of_lookup_2, list_elem_of_In in Hr.
    apply Hrows, andb_true_iff in Hr as [_ Hvals]. rewrite forallb_forall in Hvals.
    apply aget_Some in Hv as [_ Hv]. apply list_elem_of_lookup_2, list_elem_of_In in Hv.
    apply Hvals in Hv. lia.
Qed.

Lemma latin_line (n : Z) (l : list Z) :
  length l = Z.to_nat n -> NoDup l -> (forall v, v ∈ l -> 1 <= v <= n) ->
  l ≡ₚ seqZ 1 n.
Proof.
  intros Hlen Hnd Hrange. apply submseteq_length_Permutation.
  - apply NoDup_submseteq; [done|]. intros v Hv%Hrange. apply elem_of_seqZ. lia.
  - rewrite length_seqZ. lia.
Qed.

Lemma row_lookup (g : list (list Z)) (row : list Z) (r : Z) (j : nat) (x : Z) :
  aget g r = Some row -> row !! j = Some x -> cellOf g (r, Z.of_nat j) = Some x.
Proof.
  intros Hr Hj. unfold cellOf; cbn [fst snd]. rewrite Hr. cbn.
  apply aget_Some. split; [lia|]. by rewrite Nat2Z.id.
Qed.

Lemma aget_cons_S {A : Type} (x : A) (l : list A) (i : nat) :
  aget (x :: l) (Z.of_nat (S i)) = aget l (Z.of_nat i).
Proof.
  unfold aget. destruct (Z.ltb_spec (Z.of_nat (S i)) 0); [lia|].
  destruct (Z.ltb_spec (Z.of_nat i) 0); [lia|]. by rewrite !Nat2Z.id.
Qed.

Lemma column_lookup (g : list (list Z)) (c : Z) (k : nat) :
  Forall (fun row => length row = k) g -> 0 <= c < Z.of_nat k ->
  length (column g c) = length g /\
  forall i x, column g c !! i = Some x -> cellOf g (Z.of_nat i, c) = Some x.
Proof.
  intros Hrows Hc. unfold column.
  induction Hrows as [|row g Hrow _ [IHlen IH]]; [done|].
  destruct (aget_in_range row c) as [y Hy]; [lia|].
  cbn [omap list_omap]. rewrite Hy. fold (omap (fun row => aget row c) g).
  split; [cbn [length]; by rewrite IHlen|].
  intros [|i] x; cbn [lookup list_lookup].
  - intros [= <-]. unfold cellOf; cbn [fst snd]. by cbn.
  - intros Hi%IH. unfold cellOf in *; cbn [fst snd] in *.
    by rewrite aget_cons_S.
Qed.

(** X10.  A returned grid that has no blank cell is a solution: every row
    and every column of it is a permutation of 1..n, and every cage of a
    defined shape lying on the board, whose target, if it is a [*] cage, is
    below 2^53 in absolute value, has cell values that combine under its
    operator to exactly its target. *)
Theorem full_grid_is_solution (p : Puzzle) (g : list (list Z)) :
  solveKenKen p = Ok (Some g) -> fullyPopulated (size p) g = true ->
  (forall row, row ∈ g -> row ≡ₚ seqZ 1 (size p)) /\
  (forall c, 0 <= c < size p -> column g c ≡ₚ seqZ 1 (size p)) /\
  (forall cage, cage ∈ cages p -> wellShaped cage = true ->
     (op cage = Times -> Z.abs (target cage) < 2 ^ 53) ->
     forallb (onGridb (size p)) (cells cage) = true ->
     exists vals, mapM (cellOf g) (cells cage) = Some vals /\
                  cageSatisfied cage vals).
Proof.
  intros (st & -> & Hwf & _ & Hnr & Hall)%solved_state Hfull.
  destruct (fullyPopulated_cells _ _ Hfull) as (Hlen & Hrows & Hrange).
  split; [|split].
  - intros row [i Hi]%list_elem_of_lookup_1.
    assert (Hr : aget (grid st) (Z.of_nat i) = Some row).
    { apply aget_Some. split; [lia|]. by rewrite Nat2Z.id. }
    apply latin_line.
    + rewrite Forall_forall in Hrows. apply Hrows. by eapply list_elem_of_lookup_2.
    + apply NoDup_alt. intros j1 j2 x H1 H2.
      pose proof (row_lookup _ _ _ _ _ Hr H1) as C1.
      pose proof (row_lookup _ _ _ _ _ Hr H2) as C2.
      pose proof (Hrange _ _ C1) as Hx.
      destruct (Hnr _ _ _ _ x ltac:(lia) C1 C2) as [Hsame _].
      specialize (Hsame eq_refl). lia.
    + intros v [j Hj]%list_elem_of_lookup_1.
      apply (Hrange (Z.of_nat i, Z.of_nat j)). by eapply row_lookup.
  - intros c Hc.
    destruct (column_lookup (grid st) c (Z.to_nat (size p)) Hrows) as [Hclen Hcol];
      [lia|].
    apply latin_line.
    + by rewrite Hclen.
    + apply NoDup_alt. intros i1 i2 x H1%Hcol H2%Hcol.
      pose proof (Hrange _ _ H1) as Hx.
      destruct (Hnr _ _ _ _ x ltac:(lia) H1 H2) as [_ Hsame].
      specialize (Hsame eq_refl). lia.
    + intros v [i Hi%Hcol]%list_elem_of_lookup_1. by apply (Hrange _ _ Hi).
  - intros cage Hin Hshape Hsmall Hon.
    destruct (readCells_onGrid _ st _ Hwf Hon) as [vals Hvals].
    exists vals. split; [done|].
    pose proof (allCagesValid_true _ _ _ cage Hall Hin) as Hok.
    unfold cageValidPartial in Hok.
    rewrite (readCells_values _ _ _ Hvals) in Hok. cbn [bind] in Hok.
    injection Hok as Hok. apply (evalCage_exact (size p)); try done.
    + apply mapM_Some in Hvals. clear -Hvals Hrange.
      induction Hvals as [|rc v cl vals Hv _ IH]; constructor; [|done].
      apply Hrange in Hv. lia.
    + apply mapM_Some in Hvals. symmetry. by eapply Forall2_length.
Qed.

Lemma full_grid_is_solution_witness : [2; 3; 1] ≡ₚ seqZ 1 3.
Proof.
  apply (full_grid_is_solution example3 [[1; 2; 3]; [2; 3; 1]; [3; 1; 2]]).
  - vm_compute. reflexivity.
  - vm_compute. reflexivity.
  - apply list_elem_of_further, list_elem_of_here.
Defined.

(** ** The oracle never rejects what can still be completed *)

Lemma blanked_full (n : Z) (vals full : list Z) :
  blanked vals full -> Forall (fun w => 1 <= w <= n) full ->
  unassignedIn vals = 0%nat -> vals = full.
Proof.
  unfold unassignedIn. induction 1 as [|v w vals full Hvw _ IH]; [done|].
  intros [Hw Hfull]%Forall_cons. cbn [List.filter].
  destruct (Z.eqb_spec v 0) as [->|Hv]; [discriminate|].
  intros Hu. destruct Hvw as [? | ->]; [done|]. f_equal. by apply IH.
Qed.

Lemma blanked_sum (n : Z) (vals full : list Z) :
  blanked vals full -> Forall (fun w => 1 <= w <= n) full ->
  sumOf vals + Z.of_nat (unassignedIn vals) <= sumOf full
  <= sumOf vals + n * Z.of_nat (unassignedIn vals).
Proof.
  unfold unassignedIn. induction 1 as [|v w vals full Hvw _ IH]; [simpl; lia|].
  intros [Hw Hfull]%Forall_cons. specialize (IH Hfull). cbn [List.filter sumOf foldr].
  fold (sumOf vals) (sumOf full).
  destruct (Z.eqb_spec v 0) as [->|Hv].
  - cbn [length]. rewrite Nat2Z.inj_succ. lia.
  - destruct Hvw as [? | ->]; [done|]. lia.
Qed.

Lemma blanked_prod (n : Z) (vals full : list Z) :
  blanked vals full -> Forall (fun w => 1 <= w <= n) full ->
  exists q, prodOf (filled full) = prodOf (filled vals) * q /\
            1 <= q <= n ^ Z.of_nat (unassignedIn vals) /\
            1 <= prodOf (filled vals).
Proof.
  unfold unassignedIn, filled.
  induction 1 as [|v w vals full Hvw _ IH]; [exists 1; simpl; lia|].
  intros [Hw Hfull]%Forall_cons. destruct (IH Hfull) as (q & Hq & Hqr & HP).
  cbn [List.filter]. destruct (Z.eqb_spec w 0) as [|_]; [lia|]. cbn [negb].
  destruct (Z.eqb_spec v 0) as [->|Hv]; cbn [negb length]; rewrite ?prodOf_cons.
  - exists (w * q). rewrite Hq, Nat2Z.inj_succ, Z.pow_succ_r by lia.
    split; [ring|]. split; [nia | done].
  - destruct Hvw as [? | ->]; [done|].
    exists q. rewrite Hq. split; [ring|]. split; [done | nia].
Qed.

Lemma findKnown_first (a : Z) (rest : list num) :
  a <> 0 -> findKnown (Some a :: rest) = Some a.
Proof.
  intros Ha. unfold findKnown. cbn [List.find].
  change (isZero (Some a)) with (a =? 0). by destruct (Z.eqb_spec a 0).
Qed.

Lemma findKnown_second (b : Z) (rest : list num) :
  b <> 0 -> findKnown (Some 0 :: Some b :: rest) = Some b.
Proof.
  intros Hb. unfold findKnown. cbn [List.find].
  change (isZero (Some 0)) with true. cbn [negb].
  change (isZero (Some b)) with (b =? 0). by destruct (Z.eqb_spec b 0).
Qed.

Lemma count_two (a b : Z) :
  countUnassigned [Some a; Some b] =
  ((if (a =? 0)%Z then 1 else 0) + (if (b =? 0)%Z then 1 else 0))%nat.
Proof.
  unfold countUnassigned. cbn [List.filter].
  change (isZero (Some a)) with (a =? 0). change (isZero (Some b)) with (b =? 0).
  by destruct (a =? 0), (b =? 0).
Qed.

Lemma between_spec (lo hi x : Z) : between lo hi (Some x) = true <-> lo <= x <= hi.
Proof.
  unfold between; cbn [nge nle]. rewrite andb_true_iff, Z.geb_leb, !Z.leb_le. lia.
Qed.

Lemma quot_in_range_spec (k t n : Z) :
  quot_in_range (Some k) t n = true <->
  t <> 0 /\ exists w, 1 <= w <= n /\ k = w * t.
Proof.
  unfold quot_in_range. rewrite !andb_true_iff, negb_true_iff, Z.eqb_neq, Z.eqb_eq,
    !Z.leb_le. split.
  - intros (((Ht & Hrem) & Hlo) & Hhi). split; [done|].
    exists (Z.quot k t). split; [lia|].
    pose proof (Z.quot_rem' k t). lia.
  - intros (Ht & w & Hw & ->).
    rewrite Z.rem_mul, Z.quot_mul by done. lia.
Qed.

Lemma evalCage_keeps (n : Z) (cage : Cage) (vals full : list Z) :
  blanked vals full -> Forall (fun w => 1 <= w <= n) full ->
  length vals = length (cells cage) ->
  (op cage = Times -> Z.abs (target cage) < 2 ^ 53) ->
  evalCage n cage (map Some full) = true ->
  evalCage n cage (map Some vals) = true.
Proof.
  intros Hb Hfull Hlen Hsmall.
  destruct (Nat.eq_dec (unassignedIn vals) 0%nat) as [Hu|Hu].
  { by rewrite (blanked_full n vals full Hb Hfull Hu). }
  assert (Hu' : unassignedIn full = 0%nat).
  { apply unassignedIn_nonzero. eapply Forall_impl; [exact Hfull|]. simpl. lia. }
  assert (Hff : filled full = full).
  { apply unassignedIn_nonzero. eapply Forall_impl; [exact Hfull|]. simpl. lia. }
  unfold evalCage. rewrite !countUnassigned_values, Hu'. cbn [Nat.eqb].
  destruct (Nat.eqb_spec (unassignedIn vals) 0) as [|_]; [done|].
  destruct (op cage).
  - rewrite !sumValues_values, Hff, sumOf_filled. cbn [nseq nge nadd nle].
    intros Ht%Z.eqb_eq. pose proof (blanked_sum n vals full Hb Hfull) as Hs.
    rewrite !Z.geb_leb. destruct (Z.leb_spec (target cage) (sumOf vals)); [lia|].
    apply andb_true_iff. rewrite !Z.leb_le. lia.
  - destruct (Nat.eqb_spec (length (cells cage)) 2) as [H2|_]; [|done].
    cbn [negb]. rewrite H2 in Hlen.
    destruct Hb as [|a a' ? ? Ha Hb]; [discriminate|].
    destruct Hb as [|b b' ? ? Hb Hnil]; [discriminate|].
    destruct Hnil; [|discriminate]. clear Hlen.
    apply Forall_cons in Hfull as [Ha' [Hb' _]%Forall_cons].
    clear Hu' Hff. unfold unassignedIn in *. cbn [List.filter] in *.
    cbn [map vget lookup list_lookup nsub nabs nseq].
    intros Ht%Z.eqb_eq.
    destruct (Z.eqb_spec a 0) as [->|Ha0], (Z.eqb_spec b 0) as [->|Hb0];
      cbn [length Nat.eqb] in *; try done.
    + destruct Hb as [? | ->]; [done|]. rewrite findKnown_second by done.
      cbn [nadd nsub]. apply orb_true_iff. rewrite !between_spec. lia.
    + destruct Ha as [? | ->]; [done|]. rewrite findKnown_first by done.
      cbn [nadd nsub]. apply orb_true_iff. rewrite !between_spec. lia.
  - pose proof (prodValues_values full) as Hpf.
    pose proof (prodValues_values vals) as Hpv.
    pose proof (Hsmall eq_refl) as Ht53.
    destruct (blanked_prod n vals full Hb Hfull) as (q & Hq & Hqr & HP).
    intros H.
    assert (Ht : prodOf (filled full) = target cage).
    { destruct (dgt _ _ || _); [discriminate|]. unfold dseq in H.
      rewrite (tracks_cmp _ _ _ Hpf Ht53) in H.
      by destruct (Z.compare_spec (prodOf (filled full)) (target cage)). }
    clear H.
    assert (Hn : n <> 0).
    { destruct Hfull as [|w full' Hw _]; [|lia].
      inversion Hb; subst. by destruct Hu. }
    assert (Hdiv : Z.rem (target cage) (prodOf (filled vals)) = 0).
    { rewrite <- Ht, Hq, Z.mul_comm. apply Z.rem_mul. lia. }
    unfold dgt, dseq, dge.
    rewrite (tracks_cmp _ _ _ Hpv Ht53), (tracks_rem _ _ _ Hpv ltac:(lia) Ht53),
      (tracks_cmp _ _ _ (scaleBy_pow n (unassignedIn vals) _ _ Hpv Hn) Ht53).
    rewrite Hdiv. cbn [dcmp Z.compare negb orb].
    destruct (Z.compare_spec (prodOf (filled vals)) (target cage)); [| |nia];
      by destruct (Z.compare_spec (prodOf (filled vals) * n ^ Z.of_nat (unassignedIn vals))
                                  (target cage)); [| nia |].
  - destruct (Nat.eqb_spec (length (cells cage)) 2) as [H2|_]; [|done].
    cbn [negb]. rewrite H2 in Hlen.
    destruct Hb as [|a a' ? ? Ha Hb]; [discriminate|].
    destruct Hb as [|b b' ? ? Hb Hnil]; [discriminate|].
    destruct Hnil; [|discriminate]. clear Hlen.
    apply Forall_cons in Hfull as [Ha' [Hb' _]%Forall_cons].
    clear Hu' Hff. unfold unassignedIn in *. cbn [List.filter] in *.
    cbn [map vget lookup list_lookup nmax nmin ndiv_eq].
    intros [_ Ht%Z.eqb_eq]%andb_true_iff.
    destruct (Z.eqb_spec a 0) as [->|Ha0], (Z.eqb_spec b 0) as [->|Hb0];
      cbn [length Nat.eqb] in *; try done.
    + destruct Hb as [? | ->]; [done|]. rewrite findKnown_second by done.
      cbn [nmul]. apply orb_true_iff. rewrite quot_in_range_spec, between_spec.
      destruct (Z.le_ge_cases a' b').
      * left. rewrite Z.max_r, Z.min_l in Ht by done.
        split; [nia|]. exists a'. split; [done | lia].
      * right. rewrite Z.max_l, Z.min_r in Ht by done. lia.
    + destruct Ha as [? | ->]; [done|]. rewrite findKnown_first by done.
      cbn [nmul]. apply orb_true_iff. rewrite quot_in_range_spec, between_spec.
      destruct (Z.le_ge_cases a' b').
      * right. rewrite Z.max_r, Z.min_l in Ht by done. lia.
      * left. rewrite Z.max_l, Z.min_r in Ht by done.
        split; [nia|]. exists b'. split; [done | lia].
  - destruct Hb as [|a a' ? ? Ha Hb]; [done|].
    apply Forall_cons in Hfull as [Ha' _].
    cbn [map vget lookup list_lookup nseq].
    destruct (Z.eqb_spec a' 0) as [|_]; [lia|]. cbn [orb]. intros Ht.
    destruct Ha as [-> | ->]; [done|]. rewrite Ht. apply orb_true_r.
Qed.

(** X11.  The oracle never rejects what can still be completed.  Take two
    grids that have the cage's cells, the second holding values of 1..n in
    them and the first agreeing with it except for blanks, and a cage
    whose target, if it is a [*] cage, is below 2^53 in absolute value.  If
    the oracle accepts the cage on the second grid, it accepts it on the
    first. *)
Theorem oracle_keeps_extendable (n : Z) (g g' : list (list Z)) (cage : Cage)
        (vals full : list Z) :
  mapM (cellOf g) (cells cage) = Some vals ->
  mapM (cellOf g') (cells cage) = Some full ->
  blanked vals full -> Forall (fun w => 1 <= w <= n) full ->
  (op cage = Times -> Z.abs (target cage) < 2 ^ 53) ->
  cageValidPartial n g' cage = Ok true ->
  cageValidPartial n g cage = Ok true.
Proof.
  intros Hvals Hfull Hb Hrange Hsmall. unfold cageValidPartial.
  rewrite (readCells_values _ _ _ Hvals), (readCells_values _ _ _ Hfull).
  cbn [bind]. intros [= H]. f_equal. apply (evalCage_keeps n cage vals full); try done.
  apply mapM_Some in Hvals. symmetry. by eapply Forall2_length.
Qed.

Lemma oracle_keeps_extendable_witness :
  cageValidPartial 3 [[2; 0; 0]] (mkCage [(0, 0); (0, 1); (0, 2)] 6 Times) = Ok true.
Proof.
  apply (oracle_keeps_extendable 3 [[2; 0; 0]] [[2; 1; 3]]
           (mkCage [(0, 0); (0, 1); (0, 2)] 6 Times) [2; 0; 0] [2; 1; 3]).
  - reflexivity.
  - reflexivity.
  - constructor; [by right|]. constructor; [by left|].
    constructor; [by left | constructor].
  - repeat (constructor; [lia|]). constructor.
  - intros _. reflexivity.
  - vm_compute. reflexivity.
Defined.

(** ** The oracle on difference, quotient and equality cages *)

Lemma readCells_two (g : list (list Z)) (rc1 rc2 : Z * Z) (a b : Z) :
  cellOf g rc1 = Some a -> cellOf g rc2 = Some b ->
  readCells g [rc1; rc2] = Ok [Some a; Some b].
Proof.
  intros H1 H2. apply (readCells_values g [rc1; rc2] [a; b]).
  apply mapM_Some. by repeat constructor.
Qed.

(** X12.  Difference cages of two cells, on a grid that has both cells:
    with both cells blank the oracle accepts; with both assigned it accepts
    iff the absolute difference of the values is the target; with exactly
    one assigned, to k, it accepts iff k + target or k - target is in
    1..n. *)
Theorem minus_oracle (n : Z) (g : list (list Z)) (cage : Cage)
        (rc1 rc2 : Z * Z) (a b : Z) :
  op cage = Minus -> cells cage = [rc1; rc2] ->
  cellOf g rc1 = Some a -> cellOf g rc2 = Some b ->
  exists ok, cageValidPartial n g cage = Ok ok /\
    (a = 0 -> b = 0 -> ok = true) /\
    (a <> 0 -> b <> 0 -> (ok = true <-> Z.abs (a - b) = target cage)) /\
    (forall k, k <> 0 -> (a = k /\ b = 0) \/ (a = 0 /\ b = k) ->
       (ok = true <->
        1 <= k + target cage <= n \/ 1 <= k - target cage <= n)).
Proof.
  intros Hop Hcells Ha Hb. unfold cageValidPartial.
  rewrite Hcells, (readCells_two g rc1 rc2 a b Ha Hb). cbn [bind].
  eexists; split; [reflexivity|].
  unfold evalCage. rewrite Hop, Hcells, count_two.
  cbn [length Nat.eqb negb vget lookup list_lookup nsub nabs nseq].
  destruct (Z.eqb_spec a 0) as [->|Ha0], (Z.eqb_spec b 0) as [->|Hb0];
    cbn [Nat.add Nat.eqb].
  - split; [done|]. split; [done|]. intros k Hk [[<- _]|[_ <-]]; done.
  - split; [done|]. split; [done|]. intros k Hk [[<- _]|[_ <-]]; [done|].
    rewrite findKnown_second by done. cbn [nadd nsub].
    by rewrite orb_true_iff, !between_spec.
  - split; [done|]. split; [done|]. intros k Hk [[<- _]|[-> _]]; [|done].
    rewrite findKnown_first by done. cbn [nadd nsub].
    by rewrite orb_true_iff, !between_spec.
  - split; [done|]. split; [intros _ _; apply Z.eqb_eq|].
    intros k Hk [[_ ->]|[-> _]]; done.
Qed.

Lemma minus_oracle_witness :
  cageValidPartial 4 [[4; 0]] (mkCage [(0, 0); (0, 1)] 3 Minus) = Ok true.
Proof.
  destruct (minus_oracle 4 [[4; 0]] (mkCage [(0, 0); (0, 1)] 3 Minus)
              (0, 0) (0, 1) 4 0 eq_refl eq_refl eq_refl eq_refl)
    as (ok & -> & _ & _ & Hone).
  f_equal. apply (Hone 4); [lia | by left | simpl; lia].
Defined.

(** X13.  Quotient cages of two cells, on a grid that has both cells: with
    both cells blank the oracle accepts; with both assigned it accepts iff
    the larger value is the smaller one times the target; with exactly one
    assigned, to k, it accepts iff some w of 1..n gives k = w * target or
    w = k * target. *)
Theorem divide_oracle (n : Z) (g : list (list Z)) (cage : Cage)
        (rc1 rc2 : Z * Z) (a b : Z) :
  op cage = Divide -> cells cage = [rc1; rc2] ->
  cellOf g rc1 = Some a -> cellOf g rc2 = Some b ->
  exists ok, cageValidPartial n g cage = Ok ok /\
    (a = 0 -> b = 0 -> ok = true) /\
    (a <> 0 -> b <> 0 ->
       (ok = true <-> Z.max a b = Z.min a b * target cage)) /\
    (forall k, k <> 0 -> (a = k /\ b = 0) \/ (a = 0 /\ b = k) ->
       (ok = true <->
        exists w, 1 <= w <= n /\ (k = w * target cage \/ w = k * target cage))).
Proof.
  intros Hop Hcells Ha Hb. unfold cageValidPartial.
  rewrite Hcells, (readCells_two g rc1 rc2 a b Ha Hb). cbn [bind].
  eexists; split; [reflexivity|].
  assert (Hone : forall k, k <> 0 ->
            quot_in_range (Some k) (target cage) n
            || between 1 n (nmul (Some k) (Some (target cage))) = true <->
            exists w, 1 <= w <= n /\ (k = w * target cage \/ w = k * target cage)).
  { intros k Hk. cbn [nmul]. rewrite orb_true_iff, quot_in_range_spec, between_spec.
    split.
    - intros [(_ & w & ? & ?)|?]; [exists w; auto | exists (k * target cage); auto].
    - intros (w & Hw & [Hkw|Hwk]); [left | right; lia].
      split; [|by exists w]. intros Ht. rewrite Ht in Hkw. lia. }
  unfold evalCage. rewrite Hop, Hcells, count_two.
  cbn [length Nat.eqb negb vget lookup list_lookup nmax nmin ndiv_eq].
  destruct (Z.eqb_spec a 0) as [->|Ha0], (Z.eqb_spec b 0) as [->|Hb0];
    cbn [Nat.add Nat.eqb].
  - split; [done|]. split; [done|]. intros k Hk [[<- _]|[_ <-]]; done.
  - split; [done|]. split; [done|]. intros k Hk [[<- _]|[_ <-]]; [done|].
    rewrite findKnown_second by done. by apply Hone.
  - split; [done|]. split; [done|]. intros k Hk [[<- _]|[-> _]]; [|done].
    rewrite findKnown_first by done. by apply Hone.
  - split; [done|]. split.
    + intros _ _. rewrite andb_true_iff, negb_true_iff, Z.eqb_neq, Z.eqb_eq. lia.
    + intros k Hk [[_ ->]|[-> _]]; done.
Qed.

Lemma divide_oracle_witness :
  cageValidPartial 4 [[2; 4]] (mkCage [(0, 0); (0, 1)] 2 Divide) = Ok true.
Proof.
  destruct (divide_oracle 4 [[2; 4]] (mkCage [(0, 0); (0, 1)] 2 Divide)
              (0, 0) (0, 1) 2 4 eq_refl eq_refl eq_refl eq_refl)
    as (ok & -> & _ & Hboth & _).
  f_equal. apply Hboth; [lia | lia | reflexivity].
Defined.

(** X14.  Equality cages, on a grid that has the cage's cells: the oracle
    looks at the first cell only, and accepts iff that cell is blank or
    holds the target. *)
Theorem equals_oracle (n : Z) (g : list (list Z)) (cage : Cage)
        (v : Z) (vs : list Z) :
  op cage = Equals ->
  mapM (cellOf g) (cells cage) = Some (v :: vs) ->
  exists ok, cageValidPartial n g cage = Ok ok /\
             (ok = true <-> v = 0 \/ v = target cage).
Proof.
  intros Hop Hvals. unfold cageValidPartial.
  rewrite (readCells_values _ _ _ Hvals). cbn [bind].
  eexists; split; [reflexivity|]. unfold evalCage. rewrite Hop.
  cbn [map vget lookup list_lookup nseq]. by rewrite orb_true_iff, !Z.eqb_eq.
Qed.

Lemma equals_oracle_witness :
  cageValidPartial 3 [[0; 2]] (mkCage [(0, 0); (0, 1)] 7 Equals) = Ok true.
Proof.
  destruct (equals_oracle 3 [[0; 2]] (mkCage [(0, 0); (0, 1)] 7 Equals) 0 [2]
              eq_refl eq_refl) as (ok & -> & Hiff).
  f_equal. apply Hiff. by left.
Defined.

(** * Properties of the editor component *)

(** ** [isPuzzleComplete] and [handleSolve] *)

Lemma isCell_spec (r c : Z) (rc : Z * Z) : isCell r c rc = true <-> rc = (r, c).
Proof.
  unfold isCell. rewrite andb_true_iff, !Z.eqb_eq. destruct rc as [r' c']; simpl.
  split; [by intros [-> ->] | by intros [= -> ->]].
Qed.

Lemma existsb_isCell (r c : Z) (l : list (Z * Z)) :
  existsb (isCell r c) l = true <-> (r, c) ∈ l.
Proof.
  rewrite existsb_exists. split.
  - intros (rc & Hin & ->%isCell_spec). by apply list_elem_of_In.
  - intros Hin. exists (r, c). split; [by apply list_elem_of_In | by apply isCell_spec].
Qed.

Lemma set2_true_spec (m : list (list bool)) (r c r' c' : Z) (x : bool) :
  get2 m r c = Ok (Some x) ->
  get2 (set2 m r c true) r' c' = Ok (Some true) <->
  (r', c') = (r, c) \/ get2 m r' c' = Ok (Some true).
Proof.
  intros Hx. destruct (decide ((r, c) = (r', c'))) as [[= <- <-]|Hne].
  - rewrite (get2_set2_eq m r c true x Hx). split; [by left | done].
  - rewrite get2_set2_ne by done. split; [by right|].
    intros [[= -> ->]|?]; done.
Qed.

Section Marking.

Variable size : Z.

Lemma markShape_cell (a : list (list bool)) (r c : Z) :
  markShape size a -> onGrid size (r, c) -> exists x, get2 a r c = Ok (Some x).
Proof.
  intros [Hlen Hrows] [Hr Hc]; simpl in *.
  apply (get2_in_range _ (Z.to_nat size)); [done | lia | lia].
Qed.

Lemma markCage_spec (cage : Cage) :
  forall a : list (list bool), markShape size a ->
  markShape size (markCage size a cage) /\
  forall r c, onGrid size (r, c) ->
    (get2 (markCage size a cage) r c = Ok (Some true) <->
     get2 a r c = Ok (Some true) \/ (r, c) ∈ cells cage).
Proof.
  unfold markCage. induction (cells cage) as [|[r0 c0] rest IH]; intros a Ha;
    cbn [foldl].
  - split; [done|]. intros r c _. split; [by left|].
    intros [?|Hin]; [done | by apply elem_of_nil in Hin].
  - set (a' := if (r0 >=? 0) && (r0 <? size) && (c0 >=? 0) && (c0 <? size)
               then set2 a r0 c0 true else a).
    assert (Ha' : markShape size a' /\
              forall r c, onGrid size (r, c) ->
                (get2 a' r c = Ok (Some true) <->
                 get2 a r c = Ok (Some true) \/ (r, c) = (r0, c0))).
    { subst a'. destruct ((r0 >=? 0) && (r0 <? size) && (c0 >=? 0) && (c0 <? size))
        eqn:Hin.
      - assert (Hon : onGrid size (r0, c0)).
        { rewrite !andb_true_iff, !Z.geb_leb, !Z.leb_le, !Z.ltb_lt in Hin.
          unfold onGrid; simpl. lia. }
        destruct (markShape_cell a r0 c0 Ha Hon) as [x Hx]. split.
        + destruct Ha as [Hlen Hrows]. split; [by rewrite set2_length|].
          by apply set2_Forall_length.
        + intros r c _. rewrite (set2_true_spec a r0 c0 r c x Hx). tauto.
      - split; [done|]. intros r c Hon. split; [by left|].
        intros [?|[= -> ->]]; [done|]. exfalso.
        destruct Hon as [Hr Hc]; simpl in *.
        rewrite !andb_false_iff, !Z.geb_leb, !Z.leb_gt, !Z.ltb_ge in Hin. lia. }
    destruct Ha' as [Hshape Hget]. destruct (IH a' Hshape) as [Hshape' Hget'].
    split; [done|]. intros r c Hon. rewrite (Hget' r c Hon), (Hget r c Hon).
    rewrite elem_of_cons. tauto.
Qed.

Lemma markAll_spec (cl : list Cage) :
  forall a : list (list bool), markShape size a ->
  markShape size (foldl (markCage size) a cl) /\
  forall r c, onGrid size (r, c) ->
    (get2 (foldl (markCage size) a cl) r c = Ok (Some true) <->
     get2 a r c = Ok (Some true) \/ exists cage, cage ∈ cl /\ (r, c) ∈ cells cage).
Proof.
  induction cl as [|cage rest IH]; intros a Ha; cbn [foldl].
  - split; [done|]. intros r c _. split; [by left|].
    intros [?|(cage & Hin & _)]; [done | by apply elem_of_nil in Hin].
  - destruct (markCage_spec cage a Ha) as [Hshape Hget].
    destruct (IH _ Hshape) as [Hshape' Hget'].
    split; [done|]. intros r c Hon. rewrite (Hget' r c Hon), (Hget r c Hon). split.
    + intros [[?|?]|(cg & Hin & ?)]; [by left | right | right].
      * exists cage. split; [apply list_elem_of_here | done].
      * exists cg. split; [by apply list_elem_of_further | done].
    + intros [?|(cg & [->|Hin]%elem_of_cons & ?)]; [by left; left | by left; right |].
      right. by exists cg.
Qed.

Lemma every_marked (a : list (list bool)) :
  markShape size a ->
  forallb (fun b => b) (concat a) = true <->
  forall r c, onGrid size (r, c) -> get2 a r c = Ok (Some true).
Proof.
  intros Ha. rewrite forallb_forall. split.
  - intros Hall r c Hon. destruct (markShape_cell a r c Ha Hon) as [x Hx].
    rewrite Hx. do 2 f_equal. apply Hall.
    apply get2_Some in Hx as (row & [_ Hr]%aget_Some & [_ Hc]%aget_Some).
    apply in_concat. exists row.
    split; apply list_elem_of_In; by eapply list_elem_of_lookup_2.
  - intros Hall b Hb.
    apply in_concat in Hb as (row & Hrow%list_elem_of_In & Hb%list_elem_of_In).
    apply list_elem_of_lookup_1 in Hrow as [i Hi].
    apply list_elem_of_lookup_1 in Hb as [j Hj].
    destruct Ha as [Hlen Hrows].
    assert (Hrow : length row = Z.to_nat size).
    { rewrite Forall_forall in Hrows. apply Hrows. by eapply list_elem_of_lookup_2. }
    apply lookup_lt_Some in Hi as Hi'. apply lookup_lt_Some in Hj as Hj'.
    assert (Hon : onGrid size (Z.of_nat i, Z.of_nat j)) by (unfold onGrid; simpl; lia).
    specialize (Hall _ _ Hon).
    apply get2_Some in Hall as (row' & [_ Hr]%aget_Some & [_ Hc]%aget_Some).
    rewrite Nat2Z.id in Hr, Hc. congruence.
Qed.

End Marking.

Lemma allCaged_spec (n : Z) (cl : list Cage) :
  allCaged n cl = true <->
  forall rc, onGrid n rc -> exists cage, cage ∈ cl /\ rc ∈ cells cage.
Proof.
  unfold allCaged. rewrite forallb_forall. split.
  - intros Hall rc Hon. apply caged_elem, Hall, list_elem_of_In.
    by apply onGrid_scanOrder.
  - intros Hall rc Hin%list_elem_of_In.
    pose proof (scanOrder_onGrid n) as Hgrid. rewrite Forall_forall in Hgrid.
    destruct (Hall rc (Hgrid rc Hin)) as (cage & Hc & Hrc).
    unfold caged. apply existsb_exists. exists cage.
    split; [by apply list_elem_of_In | by apply hasCell_elem].
Qed.

Lemma complete_iff_covered (ed : Editor) :
  isPuzzleComplete ed = true <->
  forall rc, onGrid (edSize ed) rc ->
             exists cage, cage ∈ cages (pz ed) /\ rc ∈ cells cage.
Proof.
  unfold isPuzzleComplete.
  set (k := Z.to_nat (edSize ed)).
  assert (H0 : markShape (edSize ed) (replicate k (replicate k false))).
  { split; [apply length_replicate|]. apply Forall_replicate, length_replicate. }
  destruct (markAll_spec (edSize ed) (cages (pz ed)) _ H0) as [Hshape Hget].
  rewrite (every_marked (edSize ed) _ Hshape). split.
  - intros Hall [r c] Hon. specialize (Hall r c Hon).
    apply (Hget r c Hon) in Hall as [Hinit|?]; [|done].
    apply get2_Some in Hinit as (row & [_ Hr]%aget_Some & [_ Hc]%aget_Some).
    apply lookup_replicate in Hr as [-> _]. by apply lookup_replicate in Hc as [? _].
  - intros Hall r c Hon. apply Hget; [done|]. right. by apply Hall.
Qed.

(** X15.  [isPuzzleComplete] answers true exactly when every cell of the
    size x size board belongs to some cage; cells of cages that lie off the
    board are ignored. *)
Theorem isPuzzleComplete_spec (ed : Editor) :
  isPuzzleComplete ed = true <->
  forall rc, onGrid (edSize ed) rc ->
             exists cage, cage ∈ cages (pz ed) /\ rc ∈ cells cage.
Proof. apply complete_iff_covered. Qed.

(** X16.  The guard of [handleSolve] is enough for the solver: when the
    component's size is the puzzle's size and the cages lie on the board,
    [handleSolve] does not throw, and it calls the solver only on puzzles
    that the solver answers with a grid or with no-solution. *)
Theorem handleSolve_never_throws (ed : Editor) :
  edSize ed = size (pz ed) ->
  cagesOnGrid (size (pz ed)) (cages (pz ed)) = true ->
  exists ed', handleSolve ed = Ok ed' /\
    (isPuzzleComplete ed = false -> ed' = setShowIncompleteWarning ed true) /\
    (isPuzzleComplete ed = true ->
     exists ans, solveKenKen (pz ed) = Ok ans /\ sol ed' = ans).
Proof.
  intros Hsize Hon. unfold handleSolve.
  destruct (isPuzzleComplete ed) eqn:Hc; cbn [negb].
  - assert (Hcov : allCaged (size (pz ed)) (cages (pz ed)) = true).
    { apply allCaged_spec. rewrite <- Hsize. by apply complete_iff_covered. }
    destruct (solveKenKen_returns (pz ed) Hon Hcov) as [ans Hans].
    rewrite Hans; cbn [bind]. eexists. split; [reflexivity|].
    split; [discriminate|]. intros _. by exists ans.
  - eexists. split; [reflexivity|]. split; [done | discriminate].
Qed.

Lemma handleSolve_never_throws_witness :
  exists ed', handleSolve (handleLoadExample initialEditor) = Ok ed'.
Proof.
  destruct (handleSolve_never_throws (handleLoadExample initialEditor))
    as (ed' & Hed & _); [reflexivity | reflexivity |].
  by exists ed'.
Defined.

(** ** Which cage a cell belongs to *)

Lemma hasCell_isCell (r c : Z) (cage : Cage) :
  existsb (isCell r c) (cells cage) = hasCell (r, c) cage.
Proof.
  apply eq_true_iff_eq. by rewrite existsb_isCell, hasCell_elem.
Qed.

Lemma find_owner (r c : Z) (cl : list Cage) :
  List.find (fun cage => existsb (isCell r c) (cells cage)) cl
  = head (List.filter (hasCell (r, c)) cl).
Proof.
  induction cl as [|c0 rest IH]; [done|]. cbn [List.find List.filter].
  rewrite hasCell_isCell. by destruct (hasCell (r, c) c0).
Qed.

Lemma disjoint_one_owner (cl : list Cage) (rc : Z * Z) :
  disjointCages cl -> (length (List.filter (hasCell rc) cl) <= 1)%nat.
Proof.
  unfold disjointCages, usedCells.
  induction cl as [|c0 rest IH]; cbn [map concat List.filter]; [simpl; lia|].
  intros (_ & Hdis & Hrest)%NoDup_app. specialize (IH Hrest).
  destruct (hasCell rc c0) eqn:Hc; [|done].
  apply hasCell_elem in Hc. specialize (Hdis rc Hc).
  destruct (List.filter (hasCell rc) rest) as [|c1 tl] eqn:Hf; [simpl; lia|].
  exfalso. apply Hdis.
  assert (Hin : In c1 (List.filter (hasCell rc) rest)) by (rewrite Hf; by left).
  apply filter_In in Hin as [Hin Hc1].
  apply list_elem_of_In, in_concat. exists (cells c1). split.
  - by apply in_map.
  - apply list_elem_of_In. by apply hasCell_elem.
Qed.

(** X17.  When no cell occurs twice among the cages, the editor and the
    solver agree on the cage of every cell: [cageInfoAt], which takes the
    first cage that has the cell, returns what the solver's cell -> cage
    Map, in which the last one wins, holds for it. *)
Theorem editor_and_solver_agree (ed : Editor) (r c : Z) :
  disjointCages (cages (pz ed)) ->
  cageInfoAt ed r c = buildCageOf (cages (pz ed)) !! (r, c).
Proof.
  intros Hdis. unfold cageInfoAt, buildCageOf.
  rewrite cageOf_last_from, lookup_empty.
  rewrite find_owner.
  pose proof (disjoint_one_owner _ (r, c) Hdis) as Hone.
  destruct (List.filter (hasCell (r, c)) (cages (pz ed))) as [|c0 [|c1 tl]];
    [done | done | simpl in Hone; lia].
Qed.

Lemma editor_and_solver_agree_witness :
  cageInfoAt (handleLoadExample initialEditor) 1 3
  = buildCageOf (cages (pz (handleLoadExample initialEditor))) !! (1, 3).
Proof.
  apply (editor_and_solver_agree (handleLoadExample initialEditor) 1 3).
  unfold disjointCages. apply (bool_decide_unpack _). vm_compute. reflexivity.
Defined.

Lemma findIndexFrom_spec (r c : Z) (cl : list Cage) :
  forall i, 0 <= i ->
  match List.find (fun cage => existsb (isCell r c) (cells cage)) cl with
  | None => findIndexFrom i r c cl = -1
  | Some cage =>
      i <= findIndexFrom i r c cl /\
      cl !! Z.to_nat (findIndexFrom i r c cl - i) = Some cage
  end.
Proof.
  induction cl as [|c0 rest IH]; intros i Hi; cbn [List.find findIndexFrom]; [done|].
  destruct (existsb (isCell r c) (cells c0)).
  - split; [lia|]. by rewrite Z.sub_diag.
  - specialize (IH (i + 1) ltac:(lia)).
    destruct (List.find _ rest) as [cage|]; [|done].
    destruct IH as [Hle Hlook]. split; [lia|].
    replace (Z.to_nat (findIndexFrom (i + 1) r c rest - i))
      with (S (Z.to_nat (findIndexFrom (i + 1) r c rest - (i + 1)))) by lia.
    done.
Qed.

(** X18.  [cageAt] and [cageInfoAt] describe the same cage: when no cage
    has the cell, [cageAt] is -1 and [cageInfoAt] finds nothing; otherwise
    [cageAt] is the index, in the list of cages, of the cage that
    [cageInfoAt] returns. *)
Theorem cageAt_indexes_cageInfoAt (ed : Editor) (r c : Z) :
  match cageInfoAt ed r c with
  | None => cageAt ed r c = -1
  | Some cage =>
      0 <= cageAt ed r c /\ cages (pz ed) !! Z.to_nat (cageAt ed r c) = Some cage
  end.
Proof.
  unfold cageInfoAt, cageAt.
  pose proof (findIndexFrom_spec r c (cages (pz ed)) 0 ltac:(lia)) as H.
  destruct (List.find _ (cages (pz ed))); [|done].
  by rewrite Z.sub_0_r in H.
Qed.

(** ** The label cell of a cage *)

Lemma cellLe_refl (a : Z * Z) : cellLe a a.
Proof. unfold cellLe. lia. Qed.

Lemma cellLe_trans (a b c : Z * Z) : cellLe a b -> cellLe b c -> cellLe a c.
Proof. unfold cellLe. lia. Qed.

Lemma cellLe_antisym (a b : Z * Z) : cellLe a b -> cellLe b a -> a = b.
Proof.
  unfold cellLe. destruct a, b; simpl. intros H1 H2. f_equal; lia.
Qed.

Lemma topLeft_spec (m rc : Z * Z) :
  (topLeft m rc = m \/ topLeft m rc = rc) /\
  cellLe (topLeft m rc) m /\ cellLe (topLeft m rc) rc.
Proof.
  unfold topLeft, cellLe.
  destruct (Z.ltb_spec rc.1 m.1), (Z.eqb_spec rc.1 m.1), (Z.ltb_spec rc.2 m.2);
    cbn [orb andb]; (split; [auto|]); lia.
Qed.

Lemma topLeft_fold (l : list (Z * Z)) :
  forall m, let m' := foldl topLeft m l in
  (m' = m \/ m' ∈ l) /\ cellLe m' m /\ forall rc, rc ∈ l -> cellLe m' rc.
Proof.
  induction l as [|x l IH]; intros m; cbn [foldl].
  - split; [by left|]. split; [apply cellLe_refl|].
    intros rc Hin. by apply elem_of_nil in Hin.
  - destruct (IH (topLeft m x)) as (Hwhere & Hle & Hall).
    destruct (topLeft_spec m x) as (Hmx & Hm & Hx).
    split; [|split].
    + destruct Hwhere as [->|?]; [|right; by apply list_elem_of_further].
      destruct Hmx as [->| ->]; [by left | right; apply list_elem_of_here].
    + by eapply cellLe_trans.
    + intros rc [->|Hin]%elem_of_cons; [by eapply cellLe_trans | by apply Hall].
Qed.

(** X19.  For a cage with at least one cell, [isCageLabelCell] is true of
    exactly one position: the cell of the cage that comes first in
    row-major order.  For a cage without cells it throws. *)
Theorem label_cell_is_first (cage : Cage) (r c : Z) :
  match cells cage with
  | [] => isCageLabelCell cage r c = TypeError
  | _ :: _ =>
      exists b, isCageLabelCell cage r c = Ok b /\
        (b = true <->
         (r, c) ∈ cells cage /\ forall rc, rc ∈ cells cage -> cellLe (r, c) rc)
  end.
Proof.
  unfold isCageLabelCell. destruct (cells cage) as [|first tl] eqn:Hcells; [done|].
  eexists; split; [reflexivity|].
  destruct (topLeft_fold (first :: tl) first) as (Hwhere & _ & Hall).
  set (m := foldl topLeft first (first :: tl)) in *.
  assert (Hin : m ∈ first :: tl).
  { destruct Hwhere as [->|?]; [apply list_elem_of_here | done]. }
  rewrite andb_true_iff, !Z.eqb_eq. split.
  - intros [Hr Hc]. assert (Heq : m = (r, c)) by (destruct m; simpl in *; congruence).
    by rewrite <- Heq.
  - intros [Hrc Hmin].
    assert (Heq : m = (r, c)) by (apply cellLe_antisym; [by apply Hall | by apply Hmin]).
    by rewrite Heq.
Qed.

(** ** Defining and removing cages *)

Lemma usedCells_snoc (cl : list Cage) (cage : Cage) :
  usedCells (cl ++ [cage]) = usedCells cl ++ cells cage.
Proof.
  unfold usedCells. rewrite map_app, concat_app. cbn [map concat].
  by rewrite app_nil_r.
Qed.

Lemma overlaps_false (cl : list Cage) (selected : list (Z * Z)) :
  overlaps cl selected = false ->
  forall rc, rc ∈ usedCells cl -> rc ∉ selected.
Proof.
  unfold overlaps. intros Hno [r c] Hused Hsel.
  assert (Hyes : existsb (fun rc => existsb (isCell rc.1 rc.2) (usedCells cl)) selected
                 = true).
  { apply existsb_exists. exists (r, c). split; [by apply list_elem_of_In|].
    cbn [fst snd]. by apply existsb_isCell. }
  congruence.
Qed.

Lemma overlaps_true (cl : list Cage) (selected : list (Z * Z)) :
  overlaps cl selected = true ->
  exists rc, rc ∈ selected /\ rc ∈ usedCells cl.
Proof.
  unfold overlaps. intros ([r c] & Hin & Hused)%existsb_exists.
  exists (r, c). split; [by apply list_elem_of_In|].
  cbn [fst snd] in Hused. by apply existsb_isCell.
Qed.

(** What one [handleCellMouseEnter] does to the selection while the
    button is held: the cell is added at the end unless it is there. *)
Lemma enter_selection (ed : Editor) (r c : Z) :
  isDragging ed = true ->
  let ed' := handleCellMouseEnter ed r c in
  isDragging ed' = true /\ pz ed' = pz ed /\
  cageTarget ed' = cageTarget ed /\ cageOp ed' = cageOp ed /\
  selectedCells ed' =
    if decide ((r, c) ∈ selectedCells ed) then selectedCells ed
    else selectedCells ed ++ [(r, c)].
Proof.
  intros Hdrag. unfold handleCellMouseEnter. rewrite Hdrag. cbn.
  repeat split; try done.
  destruct (existsb (isCell r c) (selectedCells ed)) eqn:Hex.
  - apply existsb_isCell in Hex. by rewrite decide_True.
  - rewrite decide_False; [done|]. intros Hin%existsb_isCell. congruence.
Qed.

(** While the button is held, the selection is the walk so far with every
    cell kept at its first visit only, and the puzzle is not touched. *)
Lemma drag_selection (path : list (Z * Z)) :
  forall (ed : Editor) (walk : list (Z * Z)),
  isDragging ed = true ->
  selectedCells ed = reverse (remove_dups (reverse walk)) ->
  let dragged := foldl (fun e rc => handleCellMouseEnter e rc.1 rc.2) ed path in
  selectedCells dragged = reverse (remove_dups (reverse (walk ++ path))) /\
  pz dragged = pz ed /\
  cageTarget dragged = cageTarget ed /\ cageOp dragged = cageOp ed.
Proof.
  induction path as [|[r c] rest IH]; intros ed walk Hdrag Hsel; cbn [foldl].
  { by rewrite app_nil_r. }
  cbn [fst snd].
  destruct (enter_selection ed r c Hdrag) as (Hd & Hp & Ht & Ho & Hs).
  destruct (IH (handleCellMouseEnter ed r c) (walk ++ [(r, c)]) Hd) as (? & ? & ? & ?).
  { rewrite Hs, Hsel, reverse_app. change (reverse [(r, c)]) with [(r, c)].
    cbn [app remove_dups]. unfold decide_rel.
    destruct (list_elem_of_dec (r, c) (reverse walk)) as [Hin|Hout].
    - by rewrite decide_True by (by rewrite elem_of_reverse, elem_of_remove_dups).
    - rewrite decide_False by (by rewrite elem_of_reverse, elem_of_remove_dups).
      by rewrite reverse_cons. }
  rewrite <- app_assoc in *. cbn [app] in *. repeat split; congruence.
Qed.

(** X20.  Defining a cage by a drag (press on a cell, drag over any cells,
    release, confirm) keeps the cages free of repeated cells: if no cell
    occurs twice among the cages before the gesture, none does after it.
    Let [sel] be the cells of the walk, each kept once, at its first visit:
    the pressed cell and the cells dragged over, and no other cell.  If the
    target in the dialog is 0 or a cell of [sel] belongs to a cage, the
    list of cages is left as it was; otherwise exactly one cage is
    appended, whose cells are [sel], with the target and the operator of
    the dialog. *)
Theorem drag_keeps_cages_disjoint (ed : Editor) (r c : Z) (path : list (Z * Z)) :
  disjointCages (cages (pz ed)) ->
  let ed' := dragAndAdd ed r c path in
  let sel := reverse (remove_dups (reverse ((r, c) :: path))) in
  disjointCages (cages (pz ed')) /\ size (pz ed') = size (pz ed) /\
  NoDup sel /\ (forall rc, rc ∈ sel <-> rc = (r, c) \/ rc ∈ path) /\
  (cageTarget ed = 0 \/ (exists rc, rc ∈ sel /\ rc ∈ usedCells (cages (pz ed))) ->
   cages (pz ed') = cages (pz ed)) /\
  (cageTarget ed <> 0 ->
   (forall rc, rc ∈ sel -> rc ∉ usedCells (cages (pz ed))) ->
   cages (pz ed') = cages (pz ed) ++ [mkCage sel (cageTarget ed) (cageOp ed)]).
Proof.
  intros Hdis ed' sel.
  assert (Hnd : NoDup sel).
  { unfold sel. rewrite reverse_Permutation. apply NoDup_remove_dups. }
  assert (Hmem : forall rc, rc ∈ sel <-> rc = (r, c) \/ rc ∈ path).
  { intros rc. unfold sel.
    by rewrite elem_of_reverse, elem_of_remove_dups, elem_of_reverse, elem_of_cons. }
  subst ed'. unfold dragAndAdd.
  set (pressed := handleCellMouseDown ed r c).
  set (dragged := foldl (fun e rc => handleCellMouseEnter e rc.1 rc.2) pressed path).
  destruct (drag_selection path pressed [(r, c)] eq_refl eq_refl)
    as (Hsel & Hpz & Ht & Ho).
  fold dragged in Hsel, Hpz, Ht, Ho. cbn [app] in Hsel. fold sel in Hsel.
  assert (Hpz0 : pz dragged = pz ed) by (by rewrite Hpz).
  assert (Ht0 : cageTarget dragged = cageTarget ed) by (by rewrite Ht).
  assert (Ho0 : cageOp dragged = cageOp ed) by (by rewrite Ho).
  clearbody dragged. clear pressed Hpz Ht Ho.
  assert (Hne : exists rc0 tl, sel = rc0 :: tl).
  { destruct sel as [|rc0 tl] eqn:E; [|eauto].
    exfalso. eapply (not_elem_of_nil (r, c)). apply Hmem. by left. }
  destruct Hne as (rc0 & tl & Hcons).
  unfold handleMouseUp. rewrite Hpz0, Hsel, Hcons. cbn [length Nat.ltb Nat.leb].
  rewrite <- Hcons.
  destruct (overlaps (cages (pz ed)) sel) eqn:Hov.
  - unfold handleCageModalSubmit. cbn [selectedCells setSelectedCells length Nat.eqb].
    rewrite orb_true_r. cbn. rewrite Hpz0.
    repeat split; try done.
    + by apply Hmem.
    + by apply Hmem.
    + intros _ Hfree. destruct (overlaps_true _ _ Hov) as (rc & Hin & Hused).
      by destruct (Hfree rc Hin).
  - pose proof (overlaps_false _ _ Hov) as Hfree.
    unfold handleCageModalSubmit.
    cbn [selectedCells cageTarget cageOp setShowCageModal setIsDragging pz].
    rewrite Ht0, Ho0, Hpz0, Hsel, Hcons. cbn [length Nat.eqb]. rewrite orb_false_r.
    rewrite <- Hcons.
    destruct (Z.eqb_spec (cageTarget ed) 0) as [Hz|Hz].
    + cbn. rewrite Hpz0. repeat split; try done.
      * by apply Hmem.
      * by apply Hmem.
    + cbn. repeat split; try done.
      * unfold disjointCages. rewrite usedCells_snoc. cbn [cells].
        apply NoDup_app. split; [done|]. split; [|done]. done.
      * by apply Hmem.
      * by apply Hmem.
      * intros [?|(rc & Hin & Hused)]; [done|]. by destruct (Hfree rc Hused).
Qed.

Lemma drag_keeps_cages_disjoint_witness :
  cages (pz (dragAndAdd initialEditor 0 0 [(0, 1); (0, 0); (1, 1)]))
  = [mkCage [(0, 0); (0, 1); (1, 1)] 1 Plus] /\
  disjointCages (cages (pz (dragAndAdd initialEditor 0 0 [(0, 1); (0, 0); (1, 1)]))).
Proof.
  split; [vm_compute; reflexivity|].
  apply (drag_keeps_cages_disjoint initialEditor 0 0 [(0, 1); (0, 0); (1, 1)]).
  apply NoDup_nil_2.
Defined.

Lemma filterIndexFrom_spec (idx : Z) (cl : list Cage) :
  forall i, 0 <= i ->
  filterIndexFrom i idx cl =
  if (idx <? i) then cl else delete (Z.to_nat (idx - i)) cl.
Proof.
  induction cl as [|c0 rest IH]; intros i Hi; cbn [filterIndexFrom].
  - by destruct (idx <? i).
  - rewrite (IH (i + 1)) by lia.
    destruct (Z.eqb_spec i idx) as [->|Hne].
    + destruct (Z.ltb_spec idx idx); [lia|]. rewrite Z.sub_diag. cbn.
      by destruct (Z.ltb_spec idx (idx + 1)); [|lia].
    + destruct (Z.ltb_spec idx i), (Z.ltb_spec idx (i + 1)); try lia; [done|].
      replace (Z.to_nat (idx - i)) with (S (Z.to_nat (idx - (i + 1)))) by lia.
      done.
Qed.

Lemma usedCells_sublist (l1 l2 : list Cage) :
  sublist l1 l2 -> sublist (usedCells l1) (usedCells l2).
Proof.
  unfold usedCells. induction 1 as [|x l1 l2 _ IH|x l1 l2 _ IH]; cbn [map concat].
  - done.
  - by apply sublist_app.
  - by apply sublist_inserts_l.
Qed.

(** X21.  [handleRemoveCage] removes the cage at the given index and keeps
    the others in their order; an index outside the list removes nothing.
    The displayed solution is cleared, and cages that were free of repeated
    cells remain so. *)
Theorem handleRemoveCage_spec (ed : Editor) (idx : Z) :
  let ed' := handleRemoveCage ed idx in
  cages (pz ed') =
    (if idx <? 0 then cages (pz ed) else delete (Z.to_nat idx) (cages (pz ed))) /\
  size (pz ed') = size (pz ed) /\ sol ed' = None /\
  (disjointCages (cages (pz ed)) -> disjointCages (cages (pz ed'))).
Proof.
  cbn. rewrite (filterIndexFrom_spec idx (cages (pz ed)) 0) by lia.
  rewrite Z.sub_0_r. split; [done|]. split; [done|]. split; [done|].
  unfold disjointCages. intros Hdis.
  apply (sublist_NoDup _ (usedCells (cages (pz ed)))); [done|].
  apply usedCells_sublist. destruct (idx <? 0); [done | apply sublist_delete].
Qed.

Lemma handleRemoveCage_spec_witness :
  cages (pz (handleRemoveCage (handleLoadExample initialEditor) 100))
  = cages (pz (handleLoadExample initialEditor)).
Proof.
  destruct (handleRemoveCage_spec (handleLoadExample initialEditor) 100) as [H _].
  rewrite H. reflexivity.
Defined.

(** ** The two sizes *)

Lemma handle_size (ed ed' : Editor) (ev : Event) :
  edSize ed = size (pz ed) -> handle ed ev = Ok ed' -> edSize ed' = size (pz ed').
Proof.
  intros Hsize. destruct ev; cbn [handle]; try (intros [= <-]; cbn; done).
  - unfold handleSolve. destruct (isPuzzleComplete ed); cbn [negb].
    + intros (ans & _ & [= <-])%bind_Ok. by cbn.
    + intros [= <-]. by cbn.
  - intros [= <-]. unfold handleCellMouseEnter. by destruct (isDragging ed).
  - intros [= <-]. unfold handleMouseUp.
    destruct (0 <? _)%nat; [destruct (overlaps _ _)|]; by cbn.
  - intros [= <-]. unfold handleCageModalSubmit. destruct (_ || _); by cbn.
  - intros [= <-]. unfold handleLoadExample.
    destruct (examplePuzzles (edSize ed)); by cbn.
Qed.

(** X22.  The component keeps its two sizes equal: after any sequence of
    events that does not throw, the [size] that [isPuzzleComplete] checks
    the board with is the [size] of the puzzle handed to the solver. *)
Theorem sizes_stay_equal (ed0 ed : Editor) (evs : list Event) :
  edSize ed0 = size (pz ed0) -> run ed0 evs = Ok ed -> edSize ed = size (pz ed).
Proof.
  revert ed0. induction evs as [|ev rest IH]; intros ed0 Hsize; cbn [run].
  - by intros [= <-].
  - intros (ed1 & Hstep & Hrest)%bind_Ok.
    apply (IH ed1); [|done]. by eapply handle_size.
Qed.

Lemma sizes_stay_equal_witness :
  exists ed, run initialEditor [SizeChange 3; LoadExample; Solve; RemoveCage 0] = Ok ed /\
             edSize ed = size (pz ed).
Proof.
  destruct (run initialEditor [SizeChange 3; LoadExample; Solve; RemoveCage 0])
    as [ed| |] eqn:E; try (vm_compute in E; discriminate).
  exists ed. split; [done|].
  apply (sizes_stay_equal initialEditor ed
           [SizeChange 3; LoadExample; Solve; RemoveCage 0] eq_refl E).
Defined.

(** The bundled 4 x 4 example, loaded and solved: the search runs into a
    dead end after three placements and the grid is shown as it stands. *)
Example bundled_4x4_example :
  (let* ed := run initialEditor [LoadExample; Solve] in Ok (sol ed))
  = Ok (Some [[1; 2; 3; 0]; [0; 0; 0; 0]; [0; 0; 0; 0]; [0; 0; 0; 0]]).
Proof. vm_compute. reflexivity. Qed.
